(** * Neighborhood generation for large neighborhood search

    A shallow embedding of [ortools/sat/cp_model_lns.cc]: the restriction of a
    model to a neighborhood ([FixGivenPosition]), the incidence tables built by
    the constructor of [NeighborhoodGenerator], and the three [Generate]
    methods, followed by the properties proved about them.

    Conventions.
    - Indices and sizes are C++ [int] and values are [int64]; both are [Z]
      here.  Every indexed access goes through [at_] or [set_at], which fail
      where the C++ access is outside the container.
    - A function that can hit a failed [CHECK], an access outside a container
      or a bad conversion returns a [result].
    - [double] is IEEE 754 binary64 as specified by [SpecFloat] with
      [prec = 53] and [emax = 1024].
    - The random engine, [std::uniform_int_distribution] and [std::shuffle]
      are library code: they are the interface [RandomEngine], and
      [RandomEngineLaws] states what the proofs use of them.
    - [UsedVariables] lives in [cp_model_utils]; a [ConstraintModel] supplies
      the constraint type and that function. *)

From Stdlib Require Import ZArith List Bool Lia Permutation String.
From Stdlib Require Import Floats.SpecFloat.
From stdpp Require Import base list numbers relations.

Local Open Scope Z_scope.

(** ** Failures and the result monad *)

Inductive failure : Type :=
| CheckFailure        (* a CHECK_xx macro aborted the process *)
| UndefinedBehavior   (* access outside a container, empty distribution range,
                         double to int conversion out of range *)
| LengthError         (* std::vector::resize with a size above max_size *)
| OutOfFuel.          (* the loop bound of the embedding was too small *)

Inductive result (A : Type) : Type :=
| Ok (a : A)
| Fail (f : failure).

Arguments Ok {A} a.
Arguments Fail {A} f.

Definition bind {A B : Type} (m : result A) (k : A -> result B) : result B :=
  match m with
  | Ok a => k a
  | Fail f => Fail f
  end.

Notation "'do' x <- m ; k" := (bind m (fun x => k))
  (at level 10, x pattern, m at level 100, k at level 200).

Definition check (b : bool) : result unit :=
  if b then Ok tt else Fail CheckFailure.

Fixpoint foldM {A B : Type} (f : A -> B -> result A) (l : list B) (a : A)
  : result A :=
  match l with
  | [] => Ok a
  | x :: l' => do a' <- f a x; foldM f l' a'
  end.

(** ** Containers indexed by [int] *)

Definition size {A : Type} (l : list A) : Z := Z.of_nat (length l).

Definition in_range {A : Type} (l : list A) (i : Z) : bool :=
  (0 <=? i) && (i <? size l).

Definition at_ {A : Type} (l : list A) (i : Z) : result A :=
  if in_range l i then
    match l !! Z.to_nat i with
    | Some x => Ok x
    | None => Fail UndefinedBehavior
    end
  else Fail UndefinedBehavior.

Definition set_at {A : Type} (l : list A) (i : Z) (x : A) : result (list A) :=
  if in_range l i then Ok (<[Z.to_nat i := x]> l) else Fail UndefinedBehavior.

(** [for (int i = 0; i < l.size(); ++i)] together with [l[i]]. *)
Definition enumerate {A : Type} (l : list A) : list (Z * A) :=
  zip (seqZ 0 (size l)) l.

(** ** Messages *)

Record IntegerVariableProto : Type := {
  name : string;
  domain : list Z
}.

Record DecisionStrategyProto : Type := {
  strategy_variables : list Z
}.

Record PartialVariableAssignment : Type := {
  vars : list Z;
  values : list Z
}.

Record CpSolverResponse : Type := {
  solution : list Z
}.

Class ConstraintModel : Type := {
  ConstraintProto : Type;
  UsedVariables : ConstraintProto -> list Z
}.

Record CpModelProto `{ConstraintModel} : Type := {
  variables : list IntegerVariableProto;
  constraints : list ConstraintProto;
  search_strategy : list DecisionStrategyProto;
  has_solution_hint : option PartialVariableAssignment
}.

(** The accessor of an unset message field returns the default instance. *)
Definition solution_hint `{ConstraintModel} (m : CpModelProto)
  : PartialVariableAssignment :=
  match has_solution_hint m with
  | Some h => h
  | None => {| vars := []; values := [] |}
  end.

(** ** The random engine *)

Class RandomEngine : Type := {
  random_engine_t : Type;
  (* random_engine_t random; random.seed(seed); *)
  seed_engine : Z -> random_engine_t;
  (* std::uniform_int_distribution<int>(a, b)(random), for a <= b *)
  uniform_int : Z -> Z -> random_engine_t -> Z * random_engine_t;
  (* std::shuffle(l.begin(), l.end(), random) *)
  shuffle : list Z -> random_engine_t -> list Z * random_engine_t
}.

(** What the standard library promises about them. *)
Class RandomEngineLaws (RE : RandomEngine) : Prop := {
  uniform_int_range : forall a b r,
    a <= b -> a <= fst (uniform_int a b r) <= b;
  shuffle_Permutation : forall l r, Permutation l (fst (shuffle l r))
}.

(** A distribution over an empty range has no defined behaviour. *)
Definition uniform_int_distribution `{RandomEngine} (a b : Z)
    (random : random_engine_t) : result (Z * random_engine_t) :=
  if a <=? b then Ok (uniform_int a b random) else Fail UndefinedBehavior.

(** ** binary64 *)

Definition double : Type := spec_float.

Definition prec : Z := 53.
Definition emax : Z := 1024.

Definition double_mul : double -> double -> double := SFmul prec emax.
Definition double_sub : double -> double -> double := SFsub prec emax.

(** Conversion of an integer, rounding to nearest. *)
Definition double_of_int (n : Z) : double := binary_normalize prec emax n 0 false.

Definition double_one : double := S754_finite false 4503599627370496 (-52).

Definition INT_MIN : Z := - 2 ^ 31.
Definition INT_MAX : Z := 2 ^ 31 - 1.

(** [int t = std::ceil(x)].  [std::ceil] of a binary64 is a binary64 with an
    integer value; its conversion to [int] is that integer when it fits and
    is undefined otherwise. *)
Definition ceil_value (x : double) : option Z :=
  match x with
  | S754_zero _ => Some 0
  | S754_finite s m e =>
      let v := if s then Z.neg m else Z.pos m in
      Some (if 0 <=? e then v * 2 ^ e else - ((- v) / 2 ^ (- e)))
  | S754_infinity _ | S754_nan => None
  end.

Definition ceil_to_int (x : double) : result Z :=
  match ceil_value x with
  | Some c => if (INT_MIN <=? c) && (c <=? INT_MAX) then Ok c
              else Fail UndefinedBehavior
  | None => Fail UndefinedBehavior
  end.

Section Lns.
Context `{CM : ConstraintModel} `{RE : RandomEngine}.

(** ** FixGivenPosition *)

Definition fix_variable (response : CpSolverResponse)
    (vs : list IntegerVariableProto) (var : Z)
  : result (list IntegerVariableProto) :=
  do v <- at_ vs var;
  (* clear_domain(); add_domain(solution(var)); add_domain(solution(var)); *)
  do s <- at_ (solution response) var;
  set_at vs var {| name := name v; domain := [] ++ [s] ++ [s] |}.

Definition add_hint (response : CpSolverResponse)
    (hint : option PartialVariableAssignment) (var : Z)
  : result (option PartialVariableAssignment) :=
  (* mutable_solution_hint() creates the message when it is unset *)
  let h := match hint with
           | Some h => h
           | None => {| vars := []; values := [] |}
           end in
  let h1 := {| vars := vars h ++ [var]; values := values h |} in
  do s <- at_ (solution response) var;
  Ok (Some {| vars := vars h1; values := values h1 ++ [s] |}).

Definition FixGivenPosition (response : CpSolverResponse)
    (variables_to_fix : list Z) (model_proto : CpModelProto)
  : result CpModelProto :=
  do _ <- check (size (solution response) =? size (variables model_proto));
  do vs <- foldM (fix_variable response) variables_to_fix
             (variables model_proto);
  do hint <- foldM (add_hint response) (seqZ 0 (size vs)) None;
  Ok {| variables := vs;
        constraints := constraints model_proto;
        search_strategy := search_strategy model_proto;
        has_solution_hint := hint |}.

(** ** The generator base class *)

Record NeighborhoodGenerator : Type := {
  model_proto_ : CpModelProto;
  focus_on_decision_variables_ : bool;
  var_to_constraint_ : list (list Z);
  constraint_to_var_ : list (list Z);
  decision_variables_ : list Z;
  decision_variables_set_ : list bool
}.

Definition add_constraint_variable (num_vars ct_index : Z)
    (tabs : list (list Z) * list (list Z)) (var : Z)
  : result (list (list Z) * list (list Z)) :=
  let '(v2c, c2v) := tabs in
  do cts <- at_ v2c var;
  do v2c' <- set_at v2c var (cts ++ [ct_index]);
  do vs <- at_ c2v ct_index;
  do c2v' <- set_at c2v ct_index (vs ++ [var]);
  do _ <- check (0 <=? var);
  do _ <- check (var <? num_vars);
  Ok (v2c', c2v').

Definition add_constraint (num_vars : Z)
    (tabs : list (list Z) * list (list Z)) (ct : Z * ConstraintProto)
  : result (list (list Z) * list (list Z)) :=
  foldM (add_constraint_variable num_vars (fst ct)) (UsedVariables (snd ct)) tabs.

Definition add_decision_variable (st : list Z * list bool) (var : Z)
  : result (list Z * list bool) :=
  let '(dvars, dset) := st in
  do seen <- at_ dset var;
  if negb seen then
    do dset' <- set_at dset var true;
    Ok (dvars ++ [var], dset')
  else Ok st.

Definition add_search_strategy (st : list Z * list bool)
    (search_strategy : DecisionStrategyProto) : result (list Z * list bool) :=
  foldM add_decision_variable (strategy_variables search_strategy) st.

(** [NeighborhoodGenerator::NeighborhoodGenerator]. *)
Definition new_NeighborhoodGenerator (model : CpModelProto)
    (focus_on_decision_variables : bool) : result NeighborhoodGenerator :=
  let num_vars := length (variables model) in
  do tabs <- foldM (add_constraint (Z.of_nat num_vars))
               (enumerate (constraints model))
               (replicate num_vars [], replicate (length (constraints model)) []);
  let dset0 :=
    if 0 <? size (search_strategy model) then replicate num_vars false
    else [] in
  do dec <- foldM add_search_strategy (search_strategy model) ([], dset0);
  Ok {| model_proto_ := model;
        focus_on_decision_variables_ :=
          if bool_decide (fst dec = []) then false
          else focus_on_decision_variables;
        var_to_constraint_ := fst tabs;
        constraint_to_var_ := snd tabs;
        decision_variables_ := fst dec;
        decision_variables_set_ := snd dec |}.

Section Methods.
Variable g : NeighborhoodGenerator.

Definition IsActive (var : Z) : result bool :=
  if negb (focus_on_decision_variables_ g) then Ok true
  else at_ (decision_variables_set_ g) var.

Definition add_if_not_relaxed (relaxed_variables : list bool)
    (fixed_variables : list Z) (i : Z) : result (list Z) :=
  do r <- at_ relaxed_variables i;
  Ok (if negb r then fixed_variables ++ [i] else fixed_variables).

(** The [fixed_variables] vector computed by [RelaxGivenVariables]. *)
Definition fixed_variables_of (relaxed_variables : list bool) : result (list Z) :=
  if focus_on_decision_variables_ g then
    foldM (add_if_not_relaxed relaxed_variables) (decision_variables_ g) []
  else
    foldM (add_if_not_relaxed relaxed_variables)
      (seqZ 0 (size (variables (model_proto_ g)))) [].

Definition RelaxGivenVariables (initial_solution : CpSolverResponse)
    (relaxed_variables : list bool) : result CpModelProto :=
  do fixed_variables <- fixed_variables_of relaxed_variables;
  FixGivenPosition initial_solution fixed_variables (model_proto_ g).

(** ** SimpleNeighborhoodGenerator *)

(** [v.resize(n)] for an [int] argument: a negative [n] converts to a size
    above [max_size()]; a larger [n] appends zeros. *)
Definition resize (l : list Z) (n : Z) : result (list Z) :=
  if n <? 0 then Fail LengthError
  else Ok (take (Z.to_nat n) l ++ replicate (Z.to_nat n - length l)%nat 0).

(** The [fixed_variables] vector handed to [FixGivenPosition]. *)
Definition Simple_fixed_variables (seed : Z) (difficulty : double)
  : result (list Z) :=
  let random := seed_engine seed in
  let fixed_variables :=
    if focus_on_decision_variables_ g then decision_variables_ g
    else seqZ 0 (size (variables (model_proto_ g))) in
  let '(fixed_variables, random) := shuffle fixed_variables random in
  do target_size <-
    ceil_to_int (double_mul (double_sub double_one difficulty)
                            (double_of_int (size fixed_variables)));
  resize fixed_variables target_size.

Definition SimpleNeighborhoodGenerator_Generate
    (initial_solution : CpSolverResponse) (seed : Z) (difficulty : double)
  : result CpModelProto :=
  do fixed_variables <- Simple_fixed_variables seed difficulty;
  FixGivenPosition initial_solution fixed_variables (model_proto_ g).

(** ** Target size of the graph generators *)

Definition num_active_vars : Z :=
  if focus_on_decision_variables_ g then size (decision_variables_ g)
  else size (variables (model_proto_ g)).

Definition num_model_vars : Z := size (variables (model_proto_ g)).

Definition target_size (difficulty : double) : result Z :=
  ceil_to_int (double_mul difficulty (double_of_int num_active_vars)).

(** [used_variables.assign(n, false); for (var : relaxed) used[var] = true]. *)
Definition mark (mask : list bool) (var : Z) : result (list bool) :=
  set_at mask var true.

Definition mask_of (relaxed_variables : list Z) : result (list bool) :=
  foldM mark relaxed_variables (replicate (Z.to_nat num_model_vars) false).

(** ** VariableGraphNeighborhoodGenerator *)

Record variable_walk_state : Type := {
  used_variables : list bool;
  visited_variables : list Z;
  relaxed_variables : list Z;
  random : random_engine_t
}.

Definition collect_variable (st : list bool * list Z * Z) (var : Z)
  : result (list bool * list Z * Z) :=
  let '(used, random_variables, active) := st in
  do u <- at_ used var;
  if u then Ok st
  else
    do used' <- set_at used var true;
    do a <- IsActive var;
    Ok (used', random_variables ++ [var], if a then active + 1 else active).

Definition collect_constraint (st : list bool * list Z * Z) (ct : Z)
  : result (list bool * list Z * Z) :=
  do ct_vars <- at_ (constraint_to_var_ g) ct;
  foldM collect_variable ct_vars st.

Fixpoint add_random_variables (target : Z) (random_variables : list Z)
    (visited relaxed : list Z) : result (list Z * list Z) :=
  match random_variables with
  | [] => Ok (visited, relaxed)
  | to_add :: rest =>
      let visited := visited ++ [to_add] in
      do a <- IsActive to_add;
      let relaxed := if a then relaxed ++ [to_add] else relaxed in
      if size relaxed >=? target then Ok (visited, relaxed)
      else add_random_variables target rest visited relaxed
  end.

Fixpoint variable_walk (fuel : nat) (target : Z) (i : Z)
    (st : variable_walk_state) : result variable_walk_state :=
  match fuel with
  | O => Fail OutOfFuel
  | S fuel' =>
      if i <? size (visited_variables st) then
        do v <- at_ (visited_variables st) i;
        do cts <- at_ (var_to_constraint_ g) v;
        do col <- foldM collect_constraint cts (used_variables st, [], 0);
        let '(used, random_variables, active) := col in
        let '(random_variables, rnd) :=
          if active + size (relaxed_variables st) >=? target
          then shuffle random_variables (random st)
          else (random_variables, random st) in
        do added <- add_random_variables target random_variables
                      (visited_variables st) (relaxed_variables st);
        let st' := {| used_variables := used;
                      visited_variables := fst added;
                      relaxed_variables := snd added;
                      random := rnd |} in
        if size (relaxed_variables st') >=? target then Ok st'
        else variable_walk fuel' target (i + 1) st'
      else Ok st
  end.

(** From the seeding of the engine to the end of the walk. *)
Definition VariableGraph_walk (seed : Z) (target : Z)
  : result variable_walk_state :=
  let rnd := seed_engine seed in
  do draw <- uniform_int_distribution 0 (num_active_vars - 1) rnd;
  let '(r, rnd) := draw in
  do first_var <-
    (if focus_on_decision_variables_ g then at_ (decision_variables_ g) r
     else Ok r);
  do used <- set_at (replicate (Z.to_nat num_model_vars) false) first_var true;
  variable_walk (S (Z.to_nat num_model_vars)) target 0
    {| used_variables := used;
       visited_variables := [first_var];
       relaxed_variables := [first_var];
       random := rnd |}.

Definition VariableGraphNeighborhoodGenerator_Generate
    (initial_solution : CpSolverResponse) (seed : Z) (difficulty : double)
  : result CpModelProto :=
  do target <- target_size difficulty;
  if target =? num_active_vars then Ok (model_proto_ g)
  else
    do _ <- check (target >? 0);
    do st <- VariableGraph_walk seed target;
    do mask <- mask_of (relaxed_variables st);
    RelaxGivenVariables initial_solution mask.

(** ** ConstraintGraphNeighborhoodGenerator *)

Record constraint_walk_state : Type := {
  visited : list bool;
  added_constraints : list bool;
  next_constraints : list Z;
  num_relaxed_variables : Z
}.

Definition enqueue_constraint (st : list bool * list Z) (ct : Z)
  : result (list bool * list Z) :=
  let '(added, next) := st in
  do a <- at_ added ct;
  if a then Ok st
  else
    do added' <- set_at added ct true;
    Ok (added', next ++ [ct]).

Fixpoint visit_variables (target : Z) (random_variables : list Z)
    (st : constraint_walk_state) : result constraint_walk_state :=
  match random_variables with
  | [] => Ok st
  | var :: rest =>
      do seen <- at_ (visited st) var;
      if seen then visit_variables target rest st
      else
        do visited' <- set_at (visited st) var true;
        do a <- IsActive var;
        let n := if a then num_relaxed_variables st + 1
                 else num_relaxed_variables st in
        if n =? target then
          Ok {| visited := visited';
                added_constraints := added_constraints st;
                next_constraints := next_constraints st;
                num_relaxed_variables := n |}
        else
          do cts <- at_ (var_to_constraint_ g) var;
          do q <- foldM enqueue_constraint cts
                    (added_constraints st, next_constraints st);
          visit_variables target rest
            {| visited := visited';
               added_constraints := fst q;
               next_constraints := snd q;
               num_relaxed_variables := n |}
  end.

(** [std::swap(next[i], next.back()); next.pop_back();] *)
Definition swap_remove (next : list Z) (i : Z) : result (Z * list Z) :=
  do x <- at_ next i;
  do b <- at_ next (size next - 1);
  do next1 <- set_at next i b;
  do next2 <- set_at next1 (size next - 1) x;
  Ok (x, removelast next2).

Fixpoint constraint_walk (fuel : nat) (target : Z)
    (st : constraint_walk_state) (rnd : random_engine_t)
  : result constraint_walk_state :=
  match fuel with
  | O => Fail OutOfFuel
  | S fuel' =>
      if num_relaxed_variables st <? target then
        if bool_decide (next_constraints st = []) then Ok st
        else
          do draw <- uniform_int_distribution 0
                       (size (next_constraints st) - 1) rnd;
          let '(i, rnd) := draw in
          do picked <- swap_remove (next_constraints st) i;
          let '(contraint_index, next) := picked in
          do _ <- check (in_range (constraint_to_var_ g) contraint_index);
          do random_variables <- at_ (constraint_to_var_ g) contraint_index;
          let '(random_variables, rnd) := shuffle random_variables rnd in
          do st' <- visit_variables target random_variables
                      {| visited := visited st;
                         added_constraints := added_constraints st;
                         next_constraints := next;
                         num_relaxed_variables := num_relaxed_variables st |};
          constraint_walk fuel' target st' rnd
      else Ok st
  end.

Definition ConstraintGraph_walk (seed : Z) (target : Z)
  : result constraint_walk_state :=
  let rnd := seed_engine seed in
  let added := replicate (length (constraint_to_var_ g)) false in
  do draw <- uniform_int_distribution 0 (size (constraint_to_var_ g) - 1) rnd;
  let '(start, rnd) := draw in
  do added' <- set_at added start true;
  constraint_walk (S (length (constraint_to_var_ g))) target
    {| visited := replicate (Z.to_nat num_model_vars) false;
       added_constraints := added';
       next_constraints := [start];
       num_relaxed_variables := 0 |} rnd.

Definition ConstraintGraphNeighborhoodGenerator_Generate
    (initial_solution : CpSolverResponse) (seed : Z) (difficulty : double)
  : result CpModelProto :=
  do target <- target_size difficulty;
  if target =? num_active_vars then Ok (model_proto_ g)
  else
    do _ <- check (target >? 0);
    do st <- ConstraintGraph_walk seed target;
    RelaxGivenVariables initial_solution (visited st).

End Methods.
End Lns.


(** * The methods on objects in memory

    The definitions above are functions of the values that the methods read.
    The definitions below place the same code in a memory, where an object
    and its copy are different things: the generator object with its members,
    the [CpModelProto] objects that calls create (by-value parameters and
    returned values) and the vectors of [int] that are assigned from a member.
    A statement that changes an object in place ([mutable_variables(var)],
    [clear_solution_hint], [std::shuffle], [resize]) is an update of the
    memory at the place of that object, which may be a member of the
    generator.  The containers that a method creates empty or filled with a
    constant, and changes by index or [push_back] only, stay the local values
    of the definitions above.  Objects are never reclaimed. *)

Section Memory.
Context `{CM : ConstraintModel} `{RE : RandomEngine}.

Record memory : Type := {
  this_ : NeighborhoodGenerator;       (* the generator and its members *)
  protos : list CpModelProto;          (* the other CpModelProto objects *)
  vectors : list (list Z)              (* the other std::vector<int> objects *)
}.

Inductive proto_place : Type :=
| this_model_proto                     (* the member model_proto_ *)
| proto_object (l : nat).

Inductive vector_place : Type :=
| this_decision_variables              (* the member decision_variables_ *)
| this_constraint_to_var (ct : Z)      (* constraint_to_var_[ct] *)
| vector_object (l : nat).

Definition with_variables (m : CpModelProto) (vs : list IntegerVariableProto)
  : CpModelProto :=
  {| variables := vs;
     constraints := constraints m;
     search_strategy := search_strategy m;
     has_solution_hint := has_solution_hint m |}.

Definition with_solution_hint (m : CpModelProto)
    (hint : option PartialVariableAssignment) : CpModelProto :=
  {| variables := variables m;
     constraints := constraints m;
     search_strategy := search_strategy m;
     has_solution_hint := hint |}.

Definition with_model_proto (g : NeighborhoodGenerator) (m : CpModelProto)
  : NeighborhoodGenerator :=
  {| model_proto_ := m;
     focus_on_decision_variables_ := focus_on_decision_variables_ g;
     var_to_constraint_ := var_to_constraint_ g;
     constraint_to_var_ := constraint_to_var_ g;
     decision_variables_ := decision_variables_ g;
     decision_variables_set_ := decision_variables_set_ g |}.

Definition with_decision_variables (g : NeighborhoodGenerator) (v : list Z)
  : NeighborhoodGenerator :=
  {| model_proto_ := model_proto_ g;
     focus_on_decision_variables_ := focus_on_decision_variables_ g;
     var_to_constraint_ := var_to_constraint_ g;
     constraint_to_var_ := constraint_to_var_ g;
     decision_variables_ := v;
     decision_variables_set_ := decision_variables_set_ g |}.

Definition with_constraint_to_var (g : NeighborhoodGenerator)
    (rows : list (list Z)) : NeighborhoodGenerator :=
  {| model_proto_ := model_proto_ g;
     focus_on_decision_variables_ := focus_on_decision_variables_ g;
     var_to_constraint_ := var_to_constraint_ g;
     constraint_to_var_ := rows;
     decision_variables_ := decision_variables_ g;
     decision_variables_set_ := decision_variables_set_ g |}.

Definition with_this (mem : memory) (g : NeighborhoodGenerator) : memory :=
  {| this_ := g; protos := protos mem; vectors := vectors mem |}.

Definition with_protos (mem : memory) (l : list CpModelProto) : memory :=
  {| this_ := this_ mem; protos := l; vectors := vectors mem |}.

Definition with_vectors (mem : memory) (l : list (list Z)) : memory :=
  {| this_ := this_ mem; protos := protos mem; vectors := l |}.

(** ** Reading and changing an object at its place *)

Definition read_proto (p : proto_place) (mem : memory) : result CpModelProto :=
  match p with
  | this_model_proto => Ok (model_proto_ (this_ mem))
  | proto_object l => at_ (protos mem) (Z.of_nat l)
  end.

Definition write_proto (p : proto_place) (m : CpModelProto) (mem : memory)
  : result memory :=
  match p with
  | this_model_proto => Ok (with_this mem (with_model_proto (this_ mem) m))
  | proto_object l =>
      do l' <- set_at (protos mem) (Z.of_nat l) m;
      Ok (with_protos mem l')
  end.

Definition read_vector (p : vector_place) (mem : memory) : result (list Z) :=
  match p with
  | this_decision_variables => Ok (decision_variables_ (this_ mem))
  | this_constraint_to_var ct => at_ (constraint_to_var_ (this_ mem)) ct
  | vector_object l => at_ (vectors mem) (Z.of_nat l)
  end.

Definition write_vector (p : vector_place) (v : list Z) (mem : memory)
  : result memory :=
  match p with
  | this_decision_variables =>
      Ok (with_this mem (with_decision_variables (this_ mem) v))
  | this_constraint_to_var ct =>
      do rows <- set_at (constraint_to_var_ (this_ mem)) ct v;
      Ok (with_this mem (with_constraint_to_var (this_ mem) rows))
  | vector_object l =>
      do l' <- set_at (vectors mem) (Z.of_nat l) v;
      Ok (with_vectors mem l')
  end.

(** A new [CpModelProto] object that is a copy of the one at [p]: a by-value
    parameter, or the object that [return] hands to the caller. *)
Definition copy_proto (p : proto_place) (mem : memory) : result (nat * memory) :=
  do m <- read_proto p mem;
  Ok (length (protos mem), with_protos mem (protos mem ++ [m])).

(** [std::vector<int> v;] *)
Definition new_vector (mem : memory) : nat * memory :=
  (length (vectors mem), with_vectors mem (vectors mem ++ [[]])).

(** [v = w;] for two vectors: the elements of [w] are copied into [v]. *)
Definition assign_vector (v w : vector_place) (mem : memory) : result memory :=
  do elements <- read_vector w mem;
  write_vector v elements mem.

(** [std::shuffle(v.begin(), v.end(), random);] *)
Definition shuffle_in_place (v : vector_place) (random : random_engine_t)
    (mem : memory) : result (random_engine_t * memory) :=
  do elements <- read_vector v mem;
  let '(elements, random) := shuffle elements random in
  do mem <- write_vector v elements mem;
  Ok (random, mem).

(** [v.resize(n);] *)
Definition resize_in_place (v : vector_place) (n : Z) (mem : memory)
  : result memory :=
  do elements <- read_vector v mem;
  do elements <- resize elements n;
  write_vector v elements mem.

(** ** FixGivenPosition on its parameter object *)

(** The three statements of the first loop on the object at [p]. *)
Definition fix_variable_in_place (response : CpSolverResponse)
    (p : proto_place) (mem : memory) (var : Z) : result memory :=
  do m <- read_proto p mem;
  do vs <- fix_variable response (variables m) var;
  write_proto p (with_variables m vs) mem.

(** The two statements of the second loop on the object at [p]. *)
Definition add_hint_in_place (response : CpSolverResponse)
    (p : proto_place) (mem : memory) (var : Z) : result memory :=
  do m <- read_proto p mem;
  do hint <- add_hint response (has_solution_hint m) var;
  write_proto p (with_solution_hint m hint) mem.

(** The body of [FixGivenPosition], [model_proto] being the object at [p]. *)
Definition FixGivenPosition_in_place (response : CpSolverResponse)
    (variables_to_fix : list Z) (p : proto_place) (mem : memory)
  : result memory :=
  do m <- read_proto p mem;
  do _ <- check (size (solution response) =? size (variables m));
  do mem <- foldM (fix_variable_in_place response p) variables_to_fix mem;
  (* model_proto.clear_solution_hint(); *)
  do m <- read_proto p mem;
  do mem <- write_proto p (with_solution_hint m None) mem;
  do m <- read_proto p mem;
  foldM (add_hint_in_place response p) (seqZ 0 (size (variables m))) mem.

(** A call of [FixGivenPosition]: the parameter [model_proto] is passed by
    value, so it is a new object that copies the argument; the body changes
    that object and returns it. *)
Definition call_FixGivenPosition (response : CpSolverResponse)
    (variables_to_fix : list Z) (argument : proto_place) (mem : memory)
  : result (nat * memory) :=
  do copied <- copy_proto argument mem;
  let '(model_proto, mem) := copied in
  do mem <- FixGivenPosition_in_place response variables_to_fix
              (proto_object model_proto) mem;
  Ok (model_proto, mem).

(** ** The methods of the generator *)

(** [RelaxGivenVariables]: its argument of the call is the member
    [model_proto_]. *)
Definition RelaxGivenVariables_in_memory (initial_solution : CpSolverResponse)
    (relaxed_variables : list bool) (mem : memory) : result (nat * memory) :=
  do fixed_variables <- fixed_variables_of (this_ mem) relaxed_variables;
  call_FixGivenPosition initial_solution fixed_variables this_model_proto mem.

Definition SimpleNeighborhoodGenerator_Generate_in_memory
    (initial_solution : CpSolverResponse) (seed : Z) (difficulty : double)
    (mem : memory) : result (nat * memory) :=
  let random := seed_engine seed in
  let '(fixed_variables, mem) := new_vector mem in
  do mem <-
    (if focus_on_decision_variables_ (this_ mem)
     then
       (* fixed_variables = decision_variables_; *)
       assign_vector (vector_object fixed_variables) this_decision_variables mem
     else
       (* fixed_variables.resize(n); std::iota(begin, end, 0); *)
       write_vector (vector_object fixed_variables)
         (seqZ 0 (size (variables (model_proto_ (this_ mem))))) mem);
  do shuffled <- shuffle_in_place (vector_object fixed_variables) random mem;
  let '(random, mem) := shuffled in
  do elements <- read_vector (vector_object fixed_variables) mem;
  do target_size <-
    ceil_to_int (double_mul (double_sub double_one difficulty)
                            (double_of_int (size elements)));
  do mem <- resize_in_place (vector_object fixed_variables) target_size mem;
  do elements <- read_vector (vector_object fixed_variables) mem;
  call_FixGivenPosition initial_solution elements this_model_proto mem.

Definition VariableGraphNeighborhoodGenerator_Generate_in_memory
    (initial_solution : CpSolverResponse) (seed : Z) (difficulty : double)
    (mem : memory) : result (nat * memory) :=
  do target <- target_size (this_ mem) difficulty;
  if target =? num_active_vars (this_ mem) then
    (* return model_proto_; *)
    copy_proto this_model_proto mem
  else
    do _ <- check (target >? 0);
    do st <- VariableGraph_walk (this_ mem) seed target;
    do mask <- mask_of (this_ mem) (relaxed_variables st);
    RelaxGivenVariables_in_memory initial_solution mask mem.

(** The loop of the constraint-graph generator; [random_variables] is the
    vector that each turn assigns from a row of [constraint_to_var_] and
    shuffles. *)
Fixpoint constraint_walk_in_memory (fuel : nat) (target : Z)
    (st : constraint_walk_state) (rnd : random_engine_t)
    (random_variables : nat) (mem : memory)
  : result (constraint_walk_state * memory) :=
  match fuel with
  | O => Fail OutOfFuel
  | S fuel' =>
      if num_relaxed_variables st <? target then
        if bool_decide (next_constraints st = []) then Ok (st, mem)
        else
          do draw <- uniform_int_distribution 0
                       (size (next_constraints st) - 1) rnd;
          let '(i, rnd) := draw in
          do picked <- swap_remove (next_constraints st) i;
          let '(contraint_index, next) := picked in
          do _ <- check (in_range (constraint_to_var_ (this_ mem))
                           contraint_index);
          (* random_variables = constraint_to_var_[contraint_index]; *)
          do mem <- assign_vector (vector_object random_variables)
                      (this_constraint_to_var contraint_index) mem;
          do shuffled <- shuffle_in_place (vector_object random_variables)
                           rnd mem;
          let '(rnd, mem) := shuffled in
          do elements <- read_vector (vector_object random_variables) mem;
          do st' <- visit_variables (this_ mem) target elements
                      {| visited := visited st;
                         added_constraints := added_constraints st;
                         next_constraints := next;
                         num_relaxed_variables := num_relaxed_variables st |};
          constraint_walk_in_memory fuel' target st' rnd random_variables mem
      else Ok (st, mem)
  end.

Definition ConstraintGraph_walk_in_memory (seed : Z) (target : Z)
    (mem : memory) : result (constraint_walk_state * memory) :=
  let rnd := seed_engine seed in
  let added := replicate (length (constraint_to_var_ (this_ mem))) false in
  do draw <- uniform_int_distribution 0
               (size (constraint_to_var_ (this_ mem)) - 1) rnd;
  let '(start, rnd) := draw in
  do added' <- set_at added start true;
  let '(random_variables, mem) := new_vector mem in
  constraint_walk_in_memory (S (length (constraint_to_var_ (this_ mem)))) target
    {| visited := replicate (Z.to_nat (num_model_vars (this_ mem))) false;
       added_constraints := added';
       next_constraints := [start];
       num_relaxed_variables := 0 |} rnd random_variables mem.

Definition ConstraintGraphNeighborhoodGenerator_Generate_in_memory
    (initial_solution : CpSolverResponse) (seed : Z) (difficulty : double)
    (mem : memory) : result (nat * memory) :=
  do target <- target_size (this_ mem) difficulty;
  if target =? num_active_vars (this_ mem) then
    copy_proto this_model_proto mem
  else
    do _ <- check (target >? 0);
    do walked <- ConstraintGraph_walk_in_memory seed target mem;
    let '(st, mem) := walked in
    RelaxGivenVariables_in_memory initial_solution (visited st) mem.

(** ** The three generators behind one interface *)

Inductive generator_class : Type :=
| SimpleNeighborhoodGenerator
| VariableGraphNeighborhoodGenerator
| ConstraintGraphNeighborhoodGenerator.

(** [Generate] as a function of the values it reads. *)
Definition Generate (class : generator_class) (g : NeighborhoodGenerator)
    (initial_solution : CpSolverResponse) (seed : Z) (difficulty : double)
  : result CpModelProto :=
  match class with
  | SimpleNeighborhoodGenerator =>
      SimpleNeighborhoodGenerator_Generate g initial_solution seed difficulty
  | VariableGraphNeighborhoodGenerator =>
      VariableGraphNeighborhoodGenerator_Generate g initial_solution seed
        difficulty
  | ConstraintGraphNeighborhoodGenerator =>
      ConstraintGraphNeighborhoodGenerator_Generate g initial_solution seed
        difficulty
  end.

(** [Generate] on the generator object of a memory. *)
Definition Generate_in_memory (class : generator_class)
    (initial_solution : CpSolverResponse) (seed : Z) (difficulty : double)
    (mem : memory) : result (nat * memory) :=
  match class with
  | SimpleNeighborhoodGenerator =>
      SimpleNeighborhoodGenerator_Generate_in_memory initial_solution seed
        difficulty mem
  | VariableGraphNeighborhoodGenerator =>
      VariableGraphNeighborhoodGenerator_Generate_in_memory initial_solution
        seed difficulty mem
  | ConstraintGraphNeighborhoodGenerator =>
      ConstraintGraphNeighborhoodGenerator_Generate_in_memory initial_solution
        seed difficulty mem
  end.

End Memory.

(** * Vocabulary of the statements *)

(** ** binary64 values *)

Definition inexact (mrs : shr_record) : bool := shr_r mrs || shr_s mrs.

(** [bounded_by x N]: [x] is a non-negative number not above the integer
    [N]. *)
Definition bounded_by (x : double) (N : Z) : Prop :=
  match x with
  | S754_zero _ => 0 <= N
  | S754_finite false m e => e <= 0 /\ Z.pos m <= N * 2 ^ (- e)
  | _ => False
  end.

(** [represents x N]: the value of [x] is the non-negative integer [N]. *)
Definition represents (x : double) (N : Z) : Prop :=
  match x with
  | S754_zero _ => N = 0
  | S754_finite false m e => e <= 0 /\ Z.pos m = N * 2 ^ (- e)
  | _ => False
  end.

(** [x] is a valid binary64 with [0 <= x <= 1]. *)
Definition in_unit_interval (x : double) : Prop :=
  valid_binary prec emax x = true /\
  SFleb (S754_zero false) x = true /\
  SFleb x double_one = true.

(** The binary64 nearest to 0.4. *)
Definition difficulty_0_4 : double :=
  S754_finite false 7205759403792794 (-54).

(** The binary64 nearest to 0.2. *)
Definition difficulty_0_2 : double :=
  S754_finite false 7205759403792794 (-55).

(** The binary64 0.5. *)
Definition difficulty_0_5 : double := S754_finite false 4503599627370496 (-53).

(** ** The model that FixGivenPosition returns *)

Section RestrictedModel.
Context `{CM : ConstraintModel}.

Definition solution_at (response : CpSolverResponse) (i : nat) : Z :=
  default 0 (solution response !! i).

(** The variable at position [i] once the positions in [fixed] are fixed. *)
Definition restrict_variable (response : CpSolverResponse) (fixed : list Z)
    (i : nat) (v : IntegerVariableProto) : IntegerVariableProto :=
  if bool_decide (Z.of_nat i ∈ fixed)
  then {| name := name v;
          domain := [solution_at response i; solution_at response i] |}
  else v.

(** The hint that lists every variable with its value in [response]. *)
Definition full_hint (response : CpSolverResponse)
  : option PartialVariableAssignment :=
  if bool_decide (solution response = []) then None
  else Some {| vars := seqZ 0 (size (solution response));
               values := solution response |}.

Definition restricted_model (response : CpSolverResponse) (fixed : list Z)
    (model_proto : CpModelProto) : CpModelProto :=
  {| variables := imap (restrict_variable response fixed) (variables model_proto);
     constraints := constraints model_proto;
     search_strategy := search_strategy model_proto;
     has_solution_hint := full_hint response |}.

Definition hint_of (hint : option PartialVariableAssignment)
  : PartialVariableAssignment :=
  match hint with
  | Some h => h
  | None => {| vars := []; values := [] |}
  end.

End RestrictedModel.

(** ** The memory before and after a call *)

Section MemoryVocabulary.
Context `{CM : ConstraintModel}.

(** The generator object of [mem] with all its members, and every other
    object of [mem], are in [mem'] what they are in [mem]. *)
Definition unchanged (mem mem' : memory) : Prop :=
  this_ mem' = this_ mem /\
  (forall l m, protos mem !! l = Some m -> protos mem' !! l = Some m) /\
  (forall l v, vectors mem !! l = Some v -> vectors mem' !! l = Some v).

End MemoryVocabulary.

(** ** The state of a generator and of its walks *)

Section GeneratorState.
Context `{CM : ConstraintModel} `{RE : RandomEngine}.

(** [ct] is listed for variable [v] in the table [v2c]. *)
Definition lists_constraint (v2c : list (list Z)) (v : nat) (ct : Z) : Prop :=
  exists cts, v2c !! v = Some cts /\ ct ∈ cts.

(** The decision variables and their membership mask. *)
Definition decision_invariant (len : nat) (st : list Z * list bool) : Prop :=
  length (snd st) = len /\ NoDup (fst st) /\
  forall var, var ∈ fst st <->
              0 <= var /\ snd st !! Z.to_nat var = Some true.

(** The state of a generator that the constructor has built. *)
Record generator_ok (g : NeighborhoodGenerator) : Prop := {
  ok_var_to_constraint_length :
    length (var_to_constraint_ g) = length (variables (model_proto_ g));
  ok_constraint_to_var :
    constraint_to_var_ g = UsedVariables <$> constraints (model_proto_ g);
  ok_used_in_range :
    Forall (fun ct =>
              Forall (fun var => 0 <= var < size (variables (model_proto_ g)))
                     (UsedVariables ct))
           (constraints (model_proto_ g));
  ok_var_to_constraint : forall v ct,
    lists_constraint (var_to_constraint_ g) v ct <->
    0 <= ct /\ exists c, constraints (model_proto_ g) !! Z.to_nat ct = Some c /\
                         Z.of_nat v ∈ UsedVariables c;
  ok_decision_NoDup : NoDup (decision_variables_ g);
  ok_decision_set : forall var,
    var ∈ decision_variables_ g <->
    0 <= var /\ decision_variables_set_ g !! Z.to_nat var = Some true;
  ok_decision_set_length :
    decision_variables_set_ g = [] \/
    length (decision_variables_set_ g) = length (variables (model_proto_ g));
  ok_focus :
    focus_on_decision_variables_ g = true -> decision_variables_ g <> []
}.

(** Number of entries of a mask that are still [false]. *)
Definition unmarked (l : list bool) : nat :=
  length (filter (fun b => b = false) l).

Definition potential (added : list bool) (next : list Z) : nat :=
  (length next + unmarked added)%nat.

Definition state_potential (st : constraint_walk_state) : nat :=
  potential (added_constraints st) (next_constraints st).

(** The variables that a mask marks. *)
Definition marked (mask : list bool) (var : Z) : Prop :=
  0 <= var /\ mask !! Z.to_nat var = Some true.

(** The set of relaxed variables of a mask given to [RelaxGivenVariables]. *)
Definition relaxed_set (mask : list bool) : list Z :=
  filter (marked mask) (seqZ 0 (size mask)).

Section WithGenerator.
Variable g : NeighborhoodGenerator.

Local Abbreviation num_vars := (size (variables (model_proto_ g))).

(** The variables that count toward the target size. *)
Definition active (var : Z) : Prop :=
  focus_on_decision_variables_ g = false \/ var ∈ decision_variables_ g.

Definition active_pool : list Z :=
  if focus_on_decision_variables_ g then decision_variables_ g
  else seqZ 0 (size (variables (model_proto_ g))).

(** Two variables used by one constraint of the model. *)
Definition shares_constraint (u v : Z) : Prop :=
  exists c, c ∈ constraints (model_proto_ g) /\
            u ∈ UsedVariables c /\ v ∈ UsedVariables c.

(** The state of the collecting loops for the visited variable [cur]:
    [used0] is the mask on entry. *)
Definition collect_inv (used0 : list bool) (cur : Z)
    (st : list bool * list Z * Z) : Prop :=
  length (st.1.1) = length used0 /\
  NoDup (st.1.2) /\
  (forall v, v ∈ st.1.2 ->
             0 <= v < num_vars /\ ~ marked used0 v /\ shares_constraint cur v) /\
  (forall v, marked (st.1.1) v <-> marked used0 v \/ v ∈ st.1.2) /\
  st.2 = size (filter active (st.1.2)).

(** The state of the walk that started at [first]. *)
Definition walk_inv (first : Z) (st : variable_walk_state) : Prop :=
  length (used_variables st) = length (variables (model_proto_ g)) /\
  NoDup (visited_variables st) /\
  head (visited_variables st) = Some first /\
  (forall v, v ∈ visited_variables st ->
             0 <= v < num_vars /\ marked (used_variables st) v /\
             rtc shares_constraint first v) /\
  relaxed_variables st = filter active (visited_variables st).

(** The walk has been through the neighbours of its first [i] visited
    variables, and every variable it has marked is in the visited list. *)
Definition walk_closed (i : Z) (st : variable_walk_state) : Prop :=
  (forall v, marked (used_variables st) v -> v ∈ visited_variables st) /\
  (forall (j : nat) u v,
     Z.of_nat j < i -> visited_variables st !! j = Some u ->
     shares_constraint u v -> v ∈ visited_variables st).

(** Constraint number [ct] uses variable [v]. *)
Definition uses (ct v : Z) : Prop :=
  0 <= ct /\
  exists c, constraints (model_proto_ g) !! Z.to_nat ct = Some c /\
            v ∈ UsedVariables c.

(** Two constraints that use a common variable. *)
Definition shares_variable (ct1 ct2 : Z) : Prop :=
  exists v, uses ct1 v /\ uses ct2 v.

(** Every variable of constraint [ct] is marked in [vis]. *)
Definition processed (vis : list bool) (ct : Z) : Prop :=
  forall v, uses ct v -> marked vis v.

(** Every constraint that was added is waiting in the queue, is the one
    being processed ([skip]) or has been processed, and the constraints of
    every visited variable were added. *)
Definition queue_closed (skip : option Z) (st : constraint_walk_state)
  : Prop :=
  (forall ct, marked (added_constraints st) ct ->
              ct ∈ next_constraints st \/ Some ct = skip \/
              processed (visited st) ct) /\
  (forall v ct, marked (visited st) v -> uses ct v ->
                marked (added_constraints st) ct).

Section WithStart.
Variable start : Z.

(** The queue: its entries are constraints reachable from [start]. *)
Definition queue_inv (k : nat) (q : list bool * list Z) : Prop :=
  length q.1 = length (constraint_to_var_ g) /\
  potential q.1 q.2 = k /\
  forall ct, ct ∈ q.2 ->
             0 <= ct < size (constraint_to_var_ g) /\
             rtc shares_variable start ct.

(** The state of the walk; [vis] lists the visited variables. *)
Definition cwalk_inv (st : constraint_walk_state) : Prop :=
  length (visited st) = length (variables (model_proto_ g)) /\
  (exists k, queue_inv k (added_constraints st, next_constraints st)) /\
  (forall v, marked (visited st) v ->
             exists ct, rtc shares_variable start ct /\ uses ct v) /\
  exists vis, NoDup vis /\ (forall v, marked (visited st) v <-> v ∈ vis) /\
              num_relaxed_variables st = size (filter active vis).

End WithStart.
End WithGenerator.
End GeneratorState.

(** ** A concrete instance, for evaluating the definitions *)

(** Constraints given by the list of the variables they use. *)
Definition list_constraints : ConstraintModel :=
  {| ConstraintProto := list Z; UsedVariables := fun ct => ct |}.

(** A linear congruential engine; [pick_shuffle] draws the next element
    uniformly among the remaining ones. *)
Definition lcg_next (s : Z) : Z :=
  (s * 6364136223846793005 + 1442695040888963407) mod 2 ^ 64.

Definition lcg_uniform (a b : Z) (s : Z) : Z * Z :=
  let s' := lcg_next s in
  (a + (s' / 2 ^ 33) mod (b - a + 1), s').

Fixpoint pick_shuffle (fuel : nat) (l : list Z) (s : Z) : list Z * Z :=
  match fuel, l with
  | S fuel', x :: _ =>
      let '(i, s') := lcg_uniform 0 (Z.of_nat (length l) - 1) s in
      let y := nth (Z.to_nat i) l x in
      let '(rest, s'') := pick_shuffle fuel' (delete (Z.to_nat i) l) s' in
      (y :: rest, s'')
  | _, _ => ([], s)
  end.

Definition lcg_shuffle (l : list Z) (s : Z) : list Z * Z :=
  pick_shuffle (length l) l s.

Definition lcg : RandomEngine :=
  {| random_engine_t := Z;
     seed_engine := fun seed => seed mod 2 ^ 64;
     uniform_int := lcg_uniform;
     shuffle := lcg_shuffle |}.

(** ** The scenario of the specification *)

Section Scenario.
#[local] Existing Instance list_constraints.

Definition variable_0_10 : IntegerVariableProto :=
  {| name := ""; domain := [0; 10] |}.

(** Five variables; constraints over [{0,1}], [{1,2}] and [{3,4}]. *)
Definition model5 : CpModelProto :=
  {| variables := replicate 5 variable_0_10;
     constraints := [[0; 1]; [1; 2]; [3; 4]];
     search_strategy := [];
     has_solution_hint := None |}.

Definition generator5 : NeighborhoodGenerator :=
  {| model_proto_ := model5;
     focus_on_decision_variables_ := false;
     var_to_constraint_ := [[0]; [0; 1]; [1]; [2]; [2]];
     constraint_to_var_ := [[0; 1]; [1; 2]; [3; 4]];
     decision_variables_ := [];
     decision_variables_set_ := [] |}.

Definition incumbent5 : CpSolverResponse := {| solution := [1; 2; 3; 4; 5] |}.

(** The neighborhood of [model5] that relaxes variables 0 and 1. *)
Definition neighborhood5 : CpModelProto :=
  {| variables :=
       [variable_0_10; variable_0_10;
        {| name := ""; domain := [3; 3] |};
        {| name := ""; domain := [4; 4] |};
        {| name := ""; domain := [5; 5] |}];
     constraints := [[0; 1]; [1; 2]; [3; 4]];
     search_strategy := [];
     has_solution_hint :=
       Some {| vars := [0; 1; 2; 3; 4]; values := [1; 2; 3; 4; 5] |} |}.

(** A memory that holds [generator5] and no other object. *)
Definition memory5 : memory :=
  {| this_ := generator5; protos := []; vectors := [] |}.

(** Four variables on a path, of which 0, 1 and 2 are decision variables. *)
Definition model4 : CpModelProto :=
  {| variables := replicate 4 variable_0_10;
     constraints := [[0; 1]; [1; 2]; [2; 3]];
     search_strategy := [{| strategy_variables := [0; 1; 2] |}];
     has_solution_hint := None |}.

Definition generator4 : NeighborhoodGenerator :=
  {| model_proto_ := model4;
     focus_on_decision_variables_ := true;
     var_to_constraint_ := [[0]; [0; 1]; [1; 2]; [2]];
     constraint_to_var_ := [[0; 1]; [1; 2]; [2; 3]];
     decision_variables_ := [0; 1; 2];
     decision_variables_set_ := [true; true; true; false] |}.

Definition incumbent4 : CpSolverResponse := {| solution := [1; 2; 3; 4] |}.

(** The model without variables. *)
Definition model0 : CpModelProto :=
  {| variables := [];
     constraints := [];
     search_strategy := [];
     has_solution_hint := None |}.

Definition generator0 : NeighborhoodGenerator :=
  {| model_proto_ := model0;
     focus_on_decision_variables_ := false;
     var_to_constraint_ := [];
     constraint_to_var_ := [];
     decision_variables_ := [];
     decision_variables_set_ := [] |}.

Definition incumbent0 : CpSolverResponse := {| solution := [] |}.

End Scenario.

(** * Proofs *)

(** ** Rounding of binary64 operations *)


Lemma shr_1_spec (mrs : shr_record) :
  0 <= shr_m mrs ->
  shr_m (shr_1 mrs) = shr_m mrs / 2 /\
  inexact (shr_1 mrs) = inexact mrs || Z.odd (shr_m mrs).
Proof.
  destruct mrs as [m r s]. unfold inexact. cbn [shr_m shr_r shr_s].
  intros Hm. destruct m as [|p|p]; [| |lia].
  - cbn. split; [reflexivity|]. by destruct r, s.
  - destruct p as [p|p|]; cbn [shr_1 shr_m shr_r shr_s Z.odd].
    + split; [|by destruct r, s].
      rewrite Pos2Z.inj_xI. apply Z.div_unique with (r := 1); lia.
    + split; [|by destruct r, s].
      rewrite Pos2Z.inj_xO. apply Z.div_unique with (r := 0); lia.
    + split; [reflexivity | by destruct r, s].
Qed.

Lemma iter_pos_nat {A : Type} (f : A -> A) (p : positive) (x : A) :
  SpecFloat.iter_pos f p x = Nat.iter (Pos.to_nat p) f x.
Proof.
  revert x. induction p as [p IH|p IH|]; intros x; cbn [SpecFloat.iter_pos].
  - rewrite !IH, Pos2Nat.inj_xI.
    replace (S (2 * Pos.to_nat p)) with (Pos.to_nat p + S (Pos.to_nat p))%nat by lia.
    rewrite Nat.iter_add. f_equal. by rewrite Nat.iter_succ, Nat.iter_swap.
  - rewrite !IH, Pos2Nat.inj_xO.
    replace (2 * Pos.to_nat p)%nat with (Pos.to_nat p + Pos.to_nat p)%nat by lia.
    by rewrite Nat.iter_add.
  - reflexivity.
Qed.

Lemma iter_shr_1_spec (k : nat) (mrs : shr_record) :
  0 <= shr_m mrs ->
  shr_m (Nat.iter k shr_1 mrs) = shr_m mrs / 2 ^ Z.of_nat k /\
  inexact (Nat.iter k shr_1 mrs)
  = inexact mrs || negb (shr_m mrs mod 2 ^ Z.of_nat k =? 0).
Proof.
  intros Hm. induction k as [|k [IHm IHi]].
  - change (Nat.iter 0 shr_1 mrs) with mrs.
    rewrite Z.pow_0_r, Z.div_1_r, Z.mod_1_r. cbn.
    by rewrite orb_false_r.
  - rewrite Nat.iter_succ.
    assert (H2 : 0 < 2 ^ Z.of_nat k) by (apply Z.pow_pos_nonneg; lia).
    destruct (shr_1_spec (Nat.iter k shr_1 mrs)) as [Em Ei].
    { rewrite IHm. apply Z.div_pos; lia. }
    rewrite Em, Ei, IHm, IHi, Nat2Z.inj_succ, Z.pow_succ_r by lia.
    rewrite (Z.mul_comm 2).
    split; [rewrite Z.div_div by lia; reflexivity|].
    rewrite <- orb_assoc. f_equal.
    rewrite Z.rem_mul_r by lia.
    rewrite Zodd_mod.
    pose proof (Z.mod_pos_bound (shr_m mrs) (2 ^ Z.of_nat k) H2).
    pose proof (Z.mod_pos_bound (shr_m mrs / 2 ^ Z.of_nat k) 2 eq_refl).
    set (a := shr_m mrs mod 2 ^ Z.of_nat k) in *.
    set (b := (shr_m mrs / 2 ^ Z.of_nat k) mod 2) in *.
    destruct (Z.eqb_spec a 0), (Z.eqb_spec b 1), (Z.eqb_spec (a + 2 ^ Z.of_nat k * b) 0);
      cbn; try reflexivity; exfalso; nia.
Qed.

Lemma shr_spec (mrs : shr_record) (e k : Z) :
  0 <= shr_m mrs ->
  snd (shr mrs e k) = e + Z.max 0 k /\
  shr_m (fst (shr mrs e k)) = shr_m mrs / 2 ^ Z.max 0 k /\
  inexact (fst (shr mrs e k))
  = inexact mrs || negb (shr_m mrs mod 2 ^ Z.max 0 k =? 0).
Proof.
  intros Hm. destruct k as [|p|p]; cbn [shr fst snd].
  - rewrite Z.max_id, Z.add_0_r, Z.pow_0_r, Z.div_1_r, Z.mod_1_r. cbn.
    by rewrite orb_false_r.
  - rewrite iter_pos_nat. destruct (iter_shr_1_spec (Pos.to_nat p) mrs Hm) as [-> ->].
    rewrite positive_nat_Z. by replace (Z.max 0 (Z.pos p)) with (Z.pos p) by lia.
  - replace (Z.max 0 (Z.neg p)) with 0 by lia.
    rewrite Z.add_0_r, Z.pow_0_r, Z.div_1_r, Z.mod_1_r. cbn.
    by rewrite orb_false_r.
Qed.

Lemma round_nearest_even_bounds (mrs : shr_record) :
  shr_m mrs <= round_nearest_even (shr_m mrs) (loc_of_shr_record mrs)
  <= shr_m mrs + (if inexact mrs then 1 else 0).
Proof.
  destruct mrs as [m [|] [|]]; unfold inexact; cbn; try lia.
  destruct (Z.even m); lia.
Qed.

Lemma digits2_pos_le (p : positive) : 2 ^ (Z.pos (digits2_pos p) - 1) <= Z.pos p.
Proof.
  induction p as [p IH|p IH|]; cbn [digits2_pos]; [| |reflexivity].
  all: rewrite Pos2Z.inj_succ;
    replace (Z.succ (Z.pos (digits2_pos p)) - 1)
      with (Z.succ (Z.pos (digits2_pos p) - 1)) by lia;
    rewrite Z.pow_succ_r by lia; lia.
Qed.

Lemma digits2_pos_gt (p : positive) : Z.pos p < 2 ^ Z.pos (digits2_pos p).
Proof.
  induction p as [p IH|p IH|]; cbn [digits2_pos]; [| |reflexivity].
  all: rewrite Pos2Z.inj_succ, Z.pow_succ_r by lia; lia.
Qed.

Lemma fexp_eq (x : Z) : fexp prec emax x = Z.max (x - 53) (-1074).
Proof. reflexivity. Qed.

Lemma Zdigits2_bound (m e N : Z) :
  e <= 0 -> 0 <= m -> m <= N * 2 ^ (- e) -> N < 2 ^ 53 ->
  fexp prec emax (Zdigits2 m + e) <= 0.
Proof.
  intros He Hm HN H53. rewrite fexp_eq.
  destruct m as [|p|p]; cbn [Zdigits2]; [lia| |lia].
  destruct (Z_le_gt_dec (Z.pos (digits2_pos p) + e - 53) 0) as [|Hgt]; [lia|].
  exfalso.
  pose proof (digits2_pos_le p) as Hd.
  assert (H1 : 2 ^ (53 + - e) <= 2 ^ (Z.pos (digits2_pos p) - 1))
    by (apply Z.pow_le_mono_r; lia).
  rewrite Z.pow_add_r in H1 by lia.
  assert (0 < 2 ^ (- e)) by (apply Z.pow_pos_nonneg; lia).
  nia.
Qed.

Lemma div_pow_bound (m N k : Z) :
  0 <= k -> 0 <= m -> m <= N * 2 ^ k ->
  m / 2 ^ k <= N /\ (m / 2 ^ k = N -> m mod 2 ^ k = 0).
Proof.
  intros Hk Hm HN.
  assert (H2 : 0 < 2 ^ k) by (apply Z.pow_pos_nonneg; lia).
  pose proof (Z.div_mod m (2 ^ k) ltac:(lia)) as Hdm.
  pose proof (Z.mod_pos_bound m (2 ^ k) H2) as Hb.
  split; [|intros E]; nia.
Qed.

Lemma binary_round_aux_bounded (M : positive) (e N : Z) :
  e <= 0 -> Z.pos M <= N * 2 ^ (- e) -> N < 2 ^ 53 ->
  bounded_by (binary_round_aux prec emax false (Z.pos M) e loc_Exact) N.
Proof.
  intros He HM H53. unfold binary_round_aux, shr_fexp.
  cbn [shr_record_of_loc].
  set (r0 := {| shr_m := Z.pos M; shr_r := false; shr_s := false |}).
  set (k1 := fexp prec emax (Zdigits2 (Z.pos M) + e) - e).
  destruct (shr_spec r0 e k1) as (E1 & M1 & I1); [cbn; lia|].
  destruct (shr r0 e k1) as [mrs1 e1]. cbn [fst snd] in E1, M1, I1.
  pose proof (Zdigits2_bound (Z.pos M) e N He ltac:(lia) HM H53) as Hf1.
  assert (He1 : e1 <= 0) by lia.
  assert (Hpow1 : 2 ^ (- e) = 2 ^ (- e1) * 2 ^ Z.max 0 k1).
  { rewrite <- Z.pow_add_r by lia. f_equal. lia. }
  destruct (div_pow_bound (Z.pos M) (N * 2 ^ (- e1)) (Z.max 0 k1)) as [Hq Hex];
    [lia | lia | rewrite <- Z.mul_assoc, <- Hpow1; exact HM |].
  change (shr_m r0) with (Z.pos M) in M1, I1.
  assert (Hm1 : 0 <= shr_m mrs1).
  { rewrite M1. apply Z.div_pos; [lia|]. apply Z.pow_pos_nonneg; lia. }
  pose proof (round_nearest_even_bounds mrs1) as Hr.
  set (m2 := round_nearest_even (shr_m mrs1) (loc_of_shr_record mrs1)) in *.
  assert (Hm2 : 0 <= m2 <= N * 2 ^ (- e1)).
  { split; [lia|]. rewrite I1 in Hr. change (inexact r0) with false in Hr.
    cbn [orb] in Hr. rewrite <- M1 in Hq, Hex.
    destruct (Z.eq_dec (shr_m mrs1) (N * 2 ^ (- e1))) as [Eq|Ne].
    - rewrite (Hex Eq) in Hr. cbn in Hr. lia.
    - destruct (negb _); lia. }
  set (r2 := {| shr_m := m2; shr_r := false; shr_s := false |}).
  set (k2 := fexp prec emax (Zdigits2 m2 + e1) - e1).
  destruct (shr_spec r2 e1 k2) as (E2 & M2 & _); [cbn; lia|].
  destruct (shr r2 e1 k2) as [mrs2 e2]. cbn [fst snd] in E2, M2.
  change (shr_m r2) with m2 in M2.
  pose proof (Zdigits2_bound m2 e1 N He1 ltac:(lia) ltac:(lia) H53) as Hf2.
  assert (He2 : e2 <= 0) by lia.
  assert (Hpow2 : 2 ^ (- e1) = 2 ^ (- e2) * 2 ^ Z.max 0 k2).
  { rewrite <- Z.pow_add_r by lia. f_equal. lia. }
  destruct (div_pow_bound m2 (N * 2 ^ (- e2)) (Z.max 0 k2)) as [Hq2 _];
    [lia | lia | rewrite <- Z.mul_assoc, <- Hpow2; lia |].
  rewrite <- M2 in Hq2.
  assert (Hm3 : 0 <= shr_m mrs2).
  { rewrite M2. apply Z.div_pos; [lia|]. apply Z.pow_pos_nonneg; lia. }
  destruct (shr_m mrs2) as [|m3|m3] eqn:Em3; cbn [bounded_by].
  - assert (0 < 2 ^ (- e)) by (apply Z.pow_pos_nonneg; lia). nia.
  - replace (e2 <=? emax - prec) with true
      by (symmetry; apply Z.leb_le; unfold emax, prec; lia).
    cbn [bounded_by]. split; [exact He2 | exact Hq2].
  - lia.
Qed.

Lemma Pos_iter_xO (m d : positive) :
  Z.pos (Pos.iter xO m d) = Z.pos m * 2 ^ Z.pos d.
Proof.
  induction d as [|d IH] using Pos.peano_ind.
  - cbn [Pos.iter]. rewrite Pos2Z.inj_xO. change (2 ^ 1) with 2. lia.
  - rewrite Pos.iter_succ, Pos2Z.inj_xO, IH, Pos2Z.inj_succ, Z.pow_succ_r by lia.
    lia.
Qed.

Lemma binary_round_bounded (M : positive) (e N : Z) :
  e <= 0 -> Z.pos M <= N * 2 ^ (- e) -> N < 2 ^ 53 ->
  bounded_by (binary_round prec emax false M e) N.
Proof.
  intros He HM H53. unfold binary_round, shl_align.
  destruct (fexp prec emax (Z.pos (digits2_pos M) + e) - e) as [|d|d] eqn:Ed.
  1, 2: by apply binary_round_aux_bounded.
  assert (He' : fexp prec emax (Z.pos (digits2_pos M) + e) = e - Z.pos d) by lia.
  rewrite He'.
  apply binary_round_aux_bounded; [lia| |exact H53].
  rewrite Pos_iter_xO.
  replace (- (e - Z.pos d)) with (- e + Z.pos d) by lia.
  rewrite Z.pow_add_r by lia.
  assert (0 < 2 ^ Z.pos d) by (apply Z.pow_pos_nonneg; lia). nia.
Qed.

Lemma double_of_int_bounded (n : Z) :
  0 <= n < 2 ^ 53 -> bounded_by (double_of_int n) n.
Proof.
  intros Hn. unfold double_of_int, binary_normalize.
  destruct n as [|p|p]; [cbn; lia | | lia].
  apply binary_round_bounded; [lia | rewrite Z.pow_0_r; lia | lia].
Qed.

Lemma double_mul_bounded (x y : double) (N : Z) :
  0 <= N < 2 ^ 53 -> bounded_by x 1 -> bounded_by y N ->
  bounded_by (double_mul x y) N.
Proof.
  intros HN Hx Hy.
  destruct x as [sx| | |[|] mx ex], y as [sy| | |[|] my ey];
    cbn [bounded_by] in Hx, Hy; try contradiction; try (cbn; lia).
  destruct Hx as [Hex Hmx], Hy as [Hey Hmy].
  unfold double_mul, SFmul. cbn [xorb].
  apply binary_round_aux_bounded; [lia| |lia].
  rewrite Pos2Z.inj_mul.
  replace (- (ex + ey)) with (- ex + - ey) by lia.
  rewrite Z.pow_add_r by lia.
  assert (0 < 2 ^ (- ex)) by (apply Z.pow_pos_nonneg; lia).
  assert (0 < 2 ^ (- ey)) by (apply Z.pow_pos_nonneg; lia).
  nia.
Qed.

Lemma in_unit_interval_cases (x : double) :
  in_unit_interval x ->
  (exists s, x = S754_zero s) \/
  (exists m e, x = S754_finite false m e /\ e <= -52 /\
               Z.pos m <= 2 ^ (- e) /\ (e = -52 -> Z.pos m = 2 ^ 52)).
Proof.
  intros (Hv & H0 & H1).
  destruct x as [s|s| |s m e]; [left; eauto | destruct s; discriminate
                               | discriminate |].
  right. destruct s; [discriminate|]. exists m, e. split; [reflexivity|].
  unfold SFleb, SFcompare, double_one in H1.
  cbn [valid_binary] in Hv. unfold bounded, canonical_mantissa in Hv.
  apply andb_prop in Hv as [Hc _]. apply Z.eqb_eq in Hc.
  rewrite fexp_eq in Hc.
  pose proof (digits2_pos_gt m) as Hgt. pose proof (digits2_pos_le m) as Hle.
  assert (Hd : Z.pos (digits2_pos m) <= 53) by lia.
  assert (Hm53 : Z.pos m < 2 ^ 53).
  { eapply Z.lt_le_trans; [exact Hgt|]. apply Z.pow_le_mono_r; lia. }
  destruct (Z.compare_spec e (-52)) as [He|He|He]; [| |discriminate].
  - subst e. rewrite Pos.compare_cont_spec in H1. cbn [Pos.switch_Eq] in H1.
    rewrite Pos2Z.inj_compare in H1.
    assert (Hm : Z.pos m <= 4503599627370496).
    { destruct (Z.compare_spec (Z.pos m) (Z.pos 4503599627370496));
        [lia|lia|discriminate]. }
    assert (Hdd : Z.pos (digits2_pos m) = 53) by lia.
    rewrite Hdd in Hle.
    assert (E52 : 2 ^ 52 = 4503599627370496) by reflexivity.
    replace (53 - 1) with 52 in Hle by lia.
    replace (- -52) with 52 by lia.
    repeat split; [lia | lia | intros _; lia].
  - repeat split; [lia | | lia].
    assert (2 ^ 53 <= 2 ^ (- e)) by (apply Z.pow_le_mono_r; lia). lia.
Qed.

Lemma double_sub_one_bounded (x : double) :
  in_unit_interval x -> bounded_by (double_sub double_one x) 1.
Proof.
  intros Hx. destruct (in_unit_interval_cases x Hx) as [[s ->]|(m & e & -> & He & Hm & _)].
  - cbn. split; [lia|reflexivity].
  - unfold double_sub, double_one, SFsub.
    replace (Z.min (-52) e) with e by lia.
    assert (E1 : Z.pos (fst (shl_align 4503599627370496 (-52) e)) = 2 ^ (- e)).
    { unfold shl_align. destruct (e - -52) as [|d|d] eqn:Ed; cbn [fst].
      - replace e with (-52) by lia. reflexivity.
      - lia.
      - rewrite Pos_iter_xO. change (Z.pos 4503599627370496) with (2 ^ 52).
        rewrite <- Z.pow_add_r by lia. f_equal. lia. }
    assert (E2 : fst (shl_align m e e) = m).
    { unfold shl_align. by rewrite Z.sub_diag. }
    rewrite E1, E2. cbn [cond_Zopp]. unfold binary_normalize.
    destruct (2 ^ (- e) - Z.pos m) as [|M|M] eqn:EM; [cbn; lia| |lia].
    apply binary_round_bounded; [lia | lia | lia].
Qed.

Lemma ceil_to_int_bounded (x : double) (N : Z) :
  bounded_by x N -> N <= INT_MAX ->
  exists c, ceil_to_int x = Ok c /\ 0 <= c <= N.
Proof.
  intros Hx HN. unfold ceil_to_int.
  assert (Hc : exists c, ceil_value x = Some c /\ 0 <= c <= N).
  { destruct x as [s| | |[|] m e]; cbn [bounded_by] in Hx; try contradiction.
    - exists 0. split; [reflexivity|lia].
    - destruct Hx as [He Hm]. cbn [ceil_value].
      destruct (Z.leb_spec 0 e) as [H0|H0].
      + replace e with 0 in * by lia. eexists; split; [reflexivity|].
        change (- 0) with 0 in Hm. rewrite Z.pow_0_r in *. lia.
      + eexists; split; [reflexivity|].
        assert (H2 : 0 < 2 ^ (- e)) by (apply Z.pow_pos_nonneg; lia).
        pose proof (Z.div_mod (- Z.pos m) (2 ^ (- e)) ltac:(lia)) as Hdm.
        pose proof (Z.mod_pos_bound (- Z.pos m) (2 ^ (- e)) H2) as Hb.
        split; nia. }
  destruct Hc as (c & -> & Hc). exists c.
  replace ((INT_MIN <=? c) && (c <=? INT_MAX)) with true; [by split|].
  symmetry. apply andb_true_intro. unfold INT_MIN in *.
  split; [apply Z.leb_le | apply Z.leb_le]; lia.
Qed.

(** [0 * n] and [(1 - 1) * n] have ceiling [0]. *)
Lemma ceil_zero_mul (s : bool) (n : Z) :
  0 <= n < 2 ^ 53 ->
  ceil_to_int (double_mul (S754_zero s) (double_of_int n)) = Ok 0.
Proof.
  intros Hn. pose proof (double_of_int_bounded n Hn) as Hb.
  destruct (double_of_int n) as [sy| | |[|] my ey]; cbn [bounded_by] in Hb;
    try contradiction; reflexivity.
Qed.

(** The size computed by the simple generator lies between [0] and the size
    of the pool. *)
Lemma ceil_one_minus_mul (difficulty : double) (n : Z) :
  in_unit_interval difficulty -> 0 <= n <= INT_MAX ->
  exists t,
    ceil_to_int (double_mul (double_sub double_one difficulty)
                            (double_of_int n)) = Ok t /\ 0 <= t <= n.
Proof.
  intros Hd Hn. unfold INT_MAX in Hn.
  apply ceil_to_int_bounded; [|unfold INT_MAX; lia].
  apply double_mul_bounded; [lia| |].
  - by apply double_sub_one_bounded.
  - apply double_of_int_bounded. lia.
Qed.

Lemma in_unit_interval_bounded (x : double) :
  in_unit_interval x -> bounded_by x 1.
Proof.
  intros Hx.
  destruct (in_unit_interval_cases x Hx) as [[s ->]|(m & e & -> & He & Hm & _)].
  - cbn. lia.
  - cbn. split; lia.
Qed.

(** The size computed by the graph generators lies between [0] and the
    number of active variables. *)
Lemma ceil_mul (difficulty : double) (n : Z) :
  in_unit_interval difficulty -> 0 <= n <= INT_MAX ->
  exists t,
    ceil_to_int (double_mul difficulty (double_of_int n)) = Ok t /\
    0 <= t <= n.
Proof.
  intros Hd Hn. unfold INT_MAX in Hn.
  apply ceil_to_int_bounded; [|unfold INT_MAX; lia].
  apply double_mul_bounded; [lia| |].
  - by apply in_unit_interval_bounded.
  - apply double_of_int_bounded. lia.
Qed.

(** ** Operations on small integers are exact *)

Lemma div_pow_exact (N a b : Z) :
  0 <= a -> 0 <= b ->
  (N * 2 ^ (a + b)) / 2 ^ b = N * 2 ^ a /\ (N * 2 ^ (a + b)) mod 2 ^ b = 0.
Proof.
  intros Ha Hb. rewrite Z.pow_add_r, Z.mul_assoc by lia.
  assert (0 < 2 ^ b) by (apply Z.pow_pos_nonneg; lia).
  split; [apply Z.div_mul; lia | apply Z.mod_mul; lia].
Qed.

Lemma binary_round_aux_represents (M : positive) (e N : Z) :
  e <= 0 -> Z.pos M = N * 2 ^ (- e) -> N < 2 ^ 53 ->
  represents (binary_round_aux prec emax false (Z.pos M) e loc_Exact) N.
Proof.
  intros He HM H53. unfold binary_round_aux, shr_fexp.
  cbn [shr_record_of_loc].
  set (r0 := {| shr_m := Z.pos M; shr_r := false; shr_s := false |}).
  set (k1 := fexp prec emax (Zdigits2 (Z.pos M) + e) - e).
  destruct (shr_spec r0 e k1) as (E1 & M1 & I1); [cbn; lia|].
  destruct (shr r0 e k1) as [mrs1 e1]. cbn [fst snd] in E1, M1, I1.
  pose proof (Zdigits2_bound (Z.pos M) e N He ltac:(lia) ltac:(lia) H53) as Hf1.
  assert (He1 : e1 <= 0) by lia.
  change (shr_m r0) with (Z.pos M) in M1, I1.
  change (inexact r0) with false in I1. cbn [orb] in I1.
  destruct (div_pow_exact N (- e1) (Z.max 0 k1)) as [Hdiv Hmod]; [lia|lia|].
  replace (- e1 + Z.max 0 k1) with (- e) in Hdiv, Hmod by lia.
  rewrite <- HM in Hdiv, Hmod. rewrite Hdiv in M1. rewrite Hmod in I1.
  cbn in I1.
  pose proof (round_nearest_even_bounds mrs1) as Hr.
  set (m2 := round_nearest_even (shr_m mrs1) (loc_of_shr_record mrs1)) in *.
  rewrite I1, M1 in Hr.
  assert (Hm2 : m2 = N * 2 ^ (- e1)) by lia.
  assert (HN : 0 < N).
  { assert (0 < 2 ^ (- e)) by (apply Z.pow_pos_nonneg; lia). nia. }
  assert (Hm2pos : 0 < m2).
  { assert (0 < 2 ^ (- e1)) by (apply Z.pow_pos_nonneg; lia). nia. }
  set (r2 := {| shr_m := m2; shr_r := false; shr_s := false |}).
  set (k2 := fexp prec emax (Zdigits2 m2 + e1) - e1).
  destruct (shr_spec r2 e1 k2) as (E2 & M2 & _); [cbn; lia|].
  destruct (shr r2 e1 k2) as [mrs2 e2]. cbn [fst snd] in E2, M2.
  change (shr_m r2) with m2 in M2.
  pose proof (Zdigits2_bound m2 e1 N He1 ltac:(lia) ltac:(lia) H53) as Hf2.
  assert (He2 : e2 <= 0) by lia.
  destruct (div_pow_exact N (- e2) (Z.max 0 k2)) as [Hdiv2 _]; [lia|lia|].
  replace (- e2 + Z.max 0 k2) with (- e1) in Hdiv2 by lia.
  rewrite <- Hm2, <- M2 in Hdiv2.
  assert (0 < 2 ^ (- e2)) by (apply Z.pow_pos_nonneg; lia).
  destruct (shr_m mrs2) as [|m3|m3] eqn:Em3; [nia| |nia].
  replace (e2 <=? emax - prec) with true
    by (symmetry; apply Z.leb_le; unfold emax, prec; lia).
  cbn [represents]. by split.
Qed.

Lemma binary_round_represents (M : positive) (e N : Z) :
  e <= 0 -> Z.pos M = N * 2 ^ (- e) -> N < 2 ^ 53 ->
  represents (binary_round prec emax false M e) N.
Proof.
  intros He HM H53. unfold binary_round, shl_align.
  destruct (fexp prec emax (Z.pos (digits2_pos M) + e) - e) as [|d|d] eqn:Ed.
  1, 2: by apply binary_round_aux_represents.
  assert (He' : fexp prec emax (Z.pos (digits2_pos M) + e) = e - Z.pos d) by lia.
  rewrite He'.
  apply binary_round_aux_represents; [lia| |exact H53].
  rewrite Pos_iter_xO, HM.
  replace (- (e - Z.pos d)) with (- e + Z.pos d) by lia.
  rewrite Z.pow_add_r by lia. lia.
Qed.

Lemma double_of_int_represents (n : Z) :
  0 <= n < 2 ^ 53 -> represents (double_of_int n) n.
Proof.
  intros Hn. unfold double_of_int, binary_normalize.
  destruct n as [|p|p]; [reflexivity | | lia].
  apply binary_round_represents; [lia | rewrite Z.pow_0_r; lia | lia].
Qed.

Lemma double_mul_represents (x y : double) (a b : Z) :
  represents x a -> represents y b -> a * b < 2 ^ 53 ->
  represents (double_mul x y) (a * b).
Proof.
  intros Hx Hy Hab.
  destruct x as [sx| | |[|] mx ex], y as [sy| | |[|] my ey];
    cbn [represents] in Hx, Hy; try contradiction; subst;
    try (cbn; lia).
  destruct Hx as [Hex Hmx], Hy as [Hey Hmy].
  unfold double_mul, SFmul. cbn [xorb].
  apply binary_round_aux_represents; [lia| |lia].
  rewrite Pos2Z.inj_mul, Hmx, Hmy.
  replace (- (ex + ey)) with (- ex + - ey) by lia.
  rewrite Z.pow_add_r by lia. lia.
Qed.

Lemma double_one_represents : represents double_one 1.
Proof. cbn. split; [lia|reflexivity]. Qed.

Lemma ceil_to_int_represents (x : double) (N : Z) :
  represents x N -> 0 <= N <= INT_MAX -> ceil_to_int x = Ok N.
Proof.
  intros Hx HN. unfold ceil_to_int.
  assert (ceil_value x = Some N) as ->.
  { destruct x as [s| | |[|] m e]; cbn [represents] in Hx; try contradiction.
    - by subst.
    - destruct Hx as [He Hm]. cbn [ceil_value]. f_equal.
      destruct (Z.leb_spec 0 e) as [H0|H0].
      + replace e with 0 in * by lia. change (- 0) with 0 in Hm.
        rewrite Z.pow_0_r in *. lia.
      + rewrite Hm.
        assert (0 < 2 ^ (- e)) by (apply Z.pow_pos_nonneg; lia).
        replace (- (N * 2 ^ (- e))) with (- N * 2 ^ (- e)) by lia.
        rewrite Z.div_mul by lia. lia. }
  replace ((INT_MIN <=? N) && (N <=? INT_MAX)) with true; [done|].
  symmetry. apply andb_true_intro. unfold INT_MIN in *.
  split; apply Z.leb_le; lia.
Qed.

(** [1 * n] has ceiling [n], and so has [(1 - 0) * n]. *)
Lemma ceil_one_mul (n : Z) :
  0 <= n <= INT_MAX ->
  ceil_to_int (double_mul double_one (double_of_int n)) = Ok n.
Proof.
  intros Hn. apply ceil_to_int_represents; [|done].
  unfold INT_MAX in Hn.
  replace n with (1 * n) at 2 by lia.
  apply double_mul_represents;
    [apply double_one_represents|apply double_of_int_represents; lia|lia].
Qed.

Lemma double_sub_one_zero (s : bool) :
  double_sub double_one (S754_zero s) = double_one.
Proof. reflexivity. Qed.

(** ** A positive product does not round to zero *)

Lemma shift_keeps_positive (m e : Z) :
  0 < m -> -1074 <= e ->
  0 < m / 2 ^ Z.max 0 (fexp prec emax (Zdigits2 m + e) - e).
Proof.
  intros Hm He. rewrite fexp_eq.
  destruct m as [|p|p]; [lia| |lia]. cbn [Zdigits2].
  pose proof (digits2_pos_le p) as Hd.
  set (d := Z.pos (digits2_pos p)) in *.
  assert (Hd1 : 1 <= d) by (unfold d; lia).
  apply Z.div_str_pos. split; [apply Z.pow_pos_nonneg; lia|].
  eapply Z.le_trans; [|exact Hd].
  apply Z.pow_le_mono_r; lia.
Qed.

Lemma binary_round_aux_nonzero (M : positive) (e : Z) (s : bool) :
  (e < -1074 -> 2 ^ (-1074 - e) <= Z.pos M) ->
  binary_round_aux prec emax false (Z.pos M) e loc_Exact <> S754_zero s.
Proof.
  intros HM. unfold binary_round_aux, shr_fexp.
  cbn [shr_record_of_loc].
  set (r0 := {| shr_m := Z.pos M; shr_r := false; shr_s := false |}).
  set (k1 := fexp prec emax (Zdigits2 (Z.pos M) + e) - e).
  destruct (shr_spec r0 e k1) as (E1 & M1 & _); [cbn; lia|].
  destruct (shr r0 e k1) as [mrs1 e1]. cbn [fst snd] in E1, M1.
  change (shr_m r0) with (Z.pos M) in M1.
  assert (He1 : -1074 <= e1).
  { subst e1 k1. rewrite fexp_eq. lia. }
  assert (Hm1 : 0 < shr_m mrs1).
  { rewrite M1. apply Z.div_str_pos. split; [apply Z.pow_pos_nonneg; lia|].
    subst k1. rewrite fexp_eq. cbn [Zdigits2].
    pose proof (digits2_pos_le M) as Hd.
    set (d := Z.pos (digits2_pos M)) in *.
    assert (Hd1 : 1 <= d) by (unfold d; lia).
    destruct (Z.max_spec 0 (Z.max (d + e - 53) (-1074) - e)) as [[Hk ->]|[_ ->]].
    - destruct (Z.max_spec (d + e - 53) (-1074)) as [[_ Hmax]|[_ Hmax]];
        rewrite Hmax in Hk |- *.
      + apply HM. lia.
      + eapply Z.le_trans; [|exact Hd]. apply Z.pow_le_mono_r; lia.
    - rewrite Z.pow_0_r. lia. }
  pose proof (round_nearest_even_bounds mrs1) as Hr.
  set (m2 := round_nearest_even (shr_m mrs1) (loc_of_shr_record mrs1)) in *.
  assert (Hm2 : 0 < m2) by lia.
  set (r2 := {| shr_m := m2; shr_r := false; shr_s := false |}).
  set (k2 := fexp prec emax (Zdigits2 m2 + e1) - e1).
  destruct (shr_spec r2 e1 k2) as (E2 & M2 & _); [cbn; lia|].
  destruct (shr r2 e1 k2) as [mrs2 e2]. cbn [fst snd] in E2, M2.
  change (shr_m r2) with m2 in M2.
  pose proof (shift_keeps_positive m2 e1 Hm2 He1) as Hm3.
  fold k2 in Hm3. rewrite <- M2 in Hm3.
  destruct (shr_m mrs2) as [|m3|m3]; [lia| |lia].
  by destruct (e2 <=? emax - prec).
Qed.

(** A valid binary64 other than zero has an exponent of at least [-1074]. *)
Lemma valid_binary_exponent (s : bool) (m : positive) (e : Z) :
  valid_binary prec emax (S754_finite s m e) = true -> -1074 <= e.
Proof.
  cbn [valid_binary]. unfold bounded, canonical_mantissa.
  intros [Hc _]%andb_prop. apply Z.eqb_eq in Hc. rewrite fexp_eq in Hc. lia.
Qed.

(** The target size of the graph generators for a positive difficulty and a
    non-empty pool is at least [1]. *)
Lemma ceil_mul_positive (difficulty : double) (n : Z) :
  in_unit_interval difficulty ->
  (forall s, difficulty <> S754_zero s) ->
  1 <= n <= INT_MAX ->
  exists t,
    ceil_to_int (double_mul difficulty (double_of_int n)) = Ok t /\
    1 <= t <= n.
Proof.
  intros Hd Hnz Hn.
  destruct (ceil_mul difficulty n Hd ltac:(lia)) as (t & Ht & Hrange).
  exists t. split; [done|]. split; [|lia].
  destruct (in_unit_interval_cases difficulty Hd)
    as [[s ->]|(m & e & -> & He & Hm & _)]; [by destruct (Hnz s)|].
  destruct Hd as (Hvalid & _). apply valid_binary_exponent in Hvalid.
  unfold INT_MAX in Hn.
  pose proof (double_of_int_represents n ltac:(lia)) as Hy.
  pose proof (double_of_int_bounded n ltac:(lia)) as Hyb.
  destruct (double_of_int n) as [sy| | |[|] my ey]; cbn [represents] in Hy;
    try contradiction; [lia|].
  destruct Hy as [Hey Hmy].
  assert (Hprod : bounded_by (double_mul (S754_finite false m e)
                                (S754_finite false my ey)) n).
  { apply double_mul_bounded; [lia| |done]. cbn. split; lia. }
  assert (Hnonzero : forall s, double_mul (S754_finite false m e)
                                 (S754_finite false my ey) <> S754_zero s).
  { intros s. unfold double_mul, SFmul. cbn [xorb].
    apply binary_round_aux_nonzero. intros Hlt. rewrite Pos2Z.inj_mul.
    assert (0 < 2 ^ (- ey)) by (apply Z.pow_pos_nonneg; lia).
    assert (2 ^ (-1074 - (e + ey)) <= 2 ^ (- ey))
      by (apply Z.pow_le_mono_r; lia).
    nia. }
  destruct (double_mul (S754_finite false m e) (S754_finite false my ey))
    as [s| | |[|] m' e']; cbn [bounded_by] in Hprod; try contradiction.
  { by destruct (Hnonzero s). }
  destruct Hprod as [He' Hm']. unfold ceil_to_int in Ht. cbn [ceil_value] in Ht.
  destruct ((INT_MIN <=? _) && _); [|discriminate]. injection Ht as <-.
  destruct (Z.leb_spec 0 e') as [H0|H0]; [nia|].
  assert (H2 : 0 < 2 ^ (- e')) by (apply Z.pow_pos_nonneg; lia).
  pose proof (Z.div_mod (- Z.pos m') (2 ^ (- e')) ltac:(lia)) as Hdm.
  pose proof (Z.mod_pos_bound (- Z.pos m') (2 ^ (- e')) H2) as Hb.
  nia.
Qed.

(** ** Basic facts about the result monad and checked accesses *)

Lemma bind_Ok {A B : Type} (m : result A) (k : A -> result B) (b : B) :
  bind m k = Ok b <-> exists a, m = Ok a /\ k a = Ok b.
Proof.
  destruct m as [a|f]; cbn; split.
  - intros Hk. by exists a.
  - by intros (a' & [= <-] & Hk).
  - discriminate.
  - by intros (a' & [=] & _).
Qed.

Lemma check_Ok (b : bool) (u : unit) : check b = Ok u <-> b = true.
Proof. destruct b, u; cbn; split; congruence. Qed.

Lemma in_range_true {A : Type} (l : list A) (i : Z) :
  in_range l i = true <-> 0 <= i < size l.
Proof. unfold in_range. rewrite andb_true_iff, Z.leb_le, Z.ltb_lt. tauto. Qed.

Lemma in_range_lt {A : Type} (l : list A) (i : Z) :
  0 <= i < size l -> (Z.to_nat i < length l)%nat.
Proof. unfold size. lia. Qed.

Lemma at_Ok {A : Type} (l : list A) (i : Z) (x : A) :
  at_ l i = Ok x <-> 0 <= i < size l /\ l !! Z.to_nat i = Some x.
Proof.
  unfold at_. destruct (in_range l i) eqn:Hr.
  - apply in_range_true in Hr.
    destruct (l !! Z.to_nat i) as [y|] eqn:Hl; split.
    + by intros [= ->].
    + by intros [_ [= ->]].
    + discriminate.
    + by intros [_ [=]].
  - split; [discriminate|]. intros [Hi _]. apply in_range_true in Hi. congruence.
Qed.

Lemma at_defined {A : Type} (l : list A) (i : Z) :
  0 <= i < size l -> exists x, at_ l i = Ok x /\ l !! Z.to_nat i = Some x.
Proof.
  intros Hi. destruct (lookup_lt_is_Some_2 l (Z.to_nat i)) as [x Hx].
  { by apply in_range_lt. }
  exists x. split; [|exact Hx]. by apply at_Ok.
Qed.

Lemma set_at_Ok {A : Type} (l l' : list A) (i : Z) (x : A) :
  set_at l i x = Ok l' <-> 0 <= i < size l /\ l' = <[Z.to_nat i := x]> l.
Proof.
  unfold set_at. destruct (in_range l i) eqn:Hr.
  - apply in_range_true in Hr. split; [by intros [= <-]|by intros [_ ->]].
  - split; [discriminate|]. intros [Hi _]. apply in_range_true in Hi. congruence.
Qed.

Lemma set_at_defined {A : Type} (l : list A) (i : Z) (x : A) :
  0 <= i < size l -> set_at l i x = Ok (<[Z.to_nat i := x]> l).
Proof. intros Hi. by apply set_at_Ok. Qed.

Lemma size_insert {A : Type} (l : list A) (i : nat) (x : A) :
  size (<[i := x]> l) = size l.
Proof. unfold size. by rewrite length_insert. Qed.

Lemma size_app {A : Type} (l k : list A) : size (l ++ k) = size l + size k.
Proof. unfold size. rewrite length_app. lia. Qed.

Lemma size_replicate {A : Type} (n : nat) (x : A) :
  size (replicate n x) = Z.of_nat n.
Proof. unfold size. by rewrite length_replicate. Qed.

(** Splits a hypothesis [bind m k = Ok b] into its two steps. *)
Tactic Notation "inv_bind" hyp(H) "as" simple_intropattern(a)
    simple_intropattern(Ha) :=
  apply bind_Ok in H as (a & Ha & H).

(** A loop invariant carried through [foldM]. *)
Lemma foldM_invariant {A B : Type} (P : A -> Prop) (Q : B -> Prop)
    (f : A -> B -> result A) (l : list B) (a a' : A) :
  (forall a x a', P a -> Q x -> f a x = Ok a' -> P a') ->
  Forall Q l -> P a -> foldM f l a = Ok a' -> P a'.
Proof.
  intros Hf Hl. revert a. induction Hl as [|x l Hx Hl IH]; intros a Ha Hfold.
  - cbn in Hfold. by injection Hfold as <-.
  - cbn [foldM] in Hfold. inv_bind Hfold as a1 Ha1. eauto.
Qed.

(** A loop whose body cannot fail under the invariant does not fail. *)
Lemma foldM_defined {A B : Type} (P : A -> Prop) (Q : B -> Prop)
    (f : A -> B -> result A) (l : list B) (a : A) :
  (forall a x, P a -> Q x -> exists a', f a x = Ok a' /\ P a') ->
  Forall Q l -> P a -> exists a', foldM f l a = Ok a' /\ P a'.
Proof.
  intros Hf Hl. revert a. induction Hl as [|x l Hx Hl IH]; intros a Ha.
  - exists a. by split.
  - destruct (Hf a x Ha Hx) as (a1 & E1 & Ha1).
    destruct (IH a1 Ha1) as (a' & E' & Ha').
    exists a'. split; [|exact Ha']. cbn [foldM]. by rewrite E1.
Qed.

Lemma foldM_app {A B : Type} (f : A -> B -> result A) (l k : list B) (a : A) :
  foldM f (l ++ k) a = do a' <- foldM f l a; foldM f k a'.
Proof.
  revert a. induction l as [|x l IH]; intros a; [reflexivity|].
  cbn [foldM app]. destruct (f a x) as [a1|]; cbn [bind]; [apply IH|reflexivity].
Qed.

(** ** What FixGivenPosition returns *)

Section FixGivenPositionFacts.
Context `{CM : ConstraintModel}.

Lemma fix_variable_step (response : CpSolverResponse)
    (vs0 : list IntegerVariableProto) (done : list Z) (var : Z) :
  size (solution response) = size vs0 -> 0 <= var < size vs0 ->
  fix_variable response (imap (restrict_variable response done) vs0) var
  = Ok (imap (restrict_variable response (done ++ [var])) vs0).
Proof.
  intros Hsz Hvar. unfold fix_variable.
  destruct (at_defined vs0 var Hvar) as (x & _ & Hx).
  destruct (at_defined (solution response) var) as (s & Es & Hs); [lia|].
  assert (E1 : at_ (imap (restrict_variable response done) vs0) var
               = Ok (restrict_variable response done (Z.to_nat var) x)).
  { apply at_Ok. unfold size. rewrite length_imap.
    split; [exact Hvar|]. by rewrite list_lookup_imap, Hx. }
  rewrite E1, Es. cbn [bind].
  rewrite set_at_defined by (unfold size; rewrite length_imap; exact Hvar).
  f_equal. apply list_eq. intros i.
  rewrite list_lookup_imap.
  destruct (decide (i = Z.to_nat var)) as [->|Hne].
  - rewrite list_lookup_insert_eq
      by (rewrite length_imap; by apply in_range_lt).
    rewrite Hx. cbn. f_equal.
    unfold restrict_variable at 2.
    rewrite bool_decide_eq_true_2
      by (apply elem_of_app; right; apply list_elem_of_singleton; lia).
    unfold solution_at. rewrite Hs. cbn.
    f_equal. unfold restrict_variable. by destruct (bool_decide _).
  - rewrite list_lookup_insert_ne by done.
    rewrite list_lookup_imap. destruct (vs0 !! i) as [y|]; [|done].
    cbn. f_equal. unfold restrict_variable.
    rewrite (bool_decide_ext (Z.of_nat i ∈ done ++ [var]) (Z.of_nat i ∈ done));
      [done|].
    rewrite elem_of_app, list_elem_of_singleton.
    split; [|tauto]. intros [H|H]; [done|]. lia.
Qed.

Lemma fix_variables_fold (response : CpSolverResponse)
    (vs0 : list IntegerVariableProto) (to_fix done : list Z) :
  size (solution response) = size vs0 ->
  Forall (fun var => 0 <= var < size vs0) to_fix ->
  foldM (fix_variable response) to_fix
    (imap (restrict_variable response done) vs0)
  = Ok (imap (restrict_variable response (done ++ to_fix)) vs0).
Proof.
  intros Hsz Hall. revert done.
  induction Hall as [|var to_fix Hvar _ IH]; intros done.
  - by rewrite app_nil_r.
  - cbn [foldM]. rewrite fix_variable_step by done. cbn [bind].
    rewrite IH. by rewrite <- app_assoc.
Qed.

Lemma restrict_variable_nil (response : CpSolverResponse)
    (vs : list IntegerVariableProto) :
  imap (restrict_variable response []) vs = vs.
Proof.
  apply list_eq. intros i. rewrite list_lookup_imap.
  by destruct (vs !! i).
Qed.

Lemma add_hint_step (response : CpSolverResponse) (var : Z)
    (hint : option PartialVariableAssignment) :
  0 <= var < size (solution response) ->
  add_hint response hint var
  = Ok (Some {| vars := vars (hint_of hint) ++ [var];
                values := values (hint_of hint)
                          ++ [solution_at response (Z.to_nat var)] |}).
Proof.
  intros Hvar. unfold add_hint.
  destruct (at_defined (solution response) var Hvar) as (s & -> & Hs).
  cbn [bind vars values]. unfold solution_at. rewrite Hs.
  by destruct hint.
Qed.

Lemma add_hint_fold (response : CpSolverResponse) (l : list Z)
    (hint : option PartialVariableAssignment) :
  Forall (fun var => 0 <= var < size (solution response)) l ->
  foldM (add_hint response) l hint
  = Ok (if bool_decide (l = []) then hint
        else Some {| vars := vars (hint_of hint) ++ l;
                     values := values (hint_of hint)
                               ++ map (fun var => solution_at response (Z.to_nat var)) l |}).
Proof.
  intros Hall. revert hint.
  induction Hall as [|var l Hvar _ IH]; intros hint; [reflexivity|].
  cbn [foldM]. rewrite add_hint_step by done. cbn [bind]. rewrite IH.
  rewrite (bool_decide_eq_false_2 (var :: l = [])) by discriminate.
  f_equal. destruct (bool_decide (l = [])) eqn:El.
  - apply bool_decide_eq_true in El. by subst l.
  - cbn [hint_of vars values map]. by rewrite <- !app_assoc.
Qed.

Lemma solution_values (response : CpSolverResponse) :
  map (fun var => solution_at response (Z.to_nat var))
      (seqZ 0 (size (solution response)))
  = solution response.
Proof.
  apply list_eq. intros i. rewrite list_lookup_fmap.
  destruct (solution response !! i) as [s|] eqn:Hs.
  - assert (Hi : (i < length (solution response))%nat)
      by (eapply lookup_lt_Some; eauto).
    rewrite (lookup_seqZ_lt 0 (size (solution response)) i)
      by (unfold size; lia).
    cbn. unfold solution_at. rewrite Z.add_0_l, Nat2Z.id. by rewrite Hs.
  - apply lookup_ge_None in Hs.
    rewrite lookup_seqZ_ge by (unfold size; lia). done.
Qed.

(** [FixGivenPosition] in closed form. *)
Lemma FixGivenPosition_Ok (response : CpSolverResponse) (to_fix : list Z)
    (model_proto : CpModelProto) :
  size (solution response) = size (variables model_proto) ->
  Forall (fun var => 0 <= var < size (variables model_proto)) to_fix ->
  FixGivenPosition response to_fix model_proto
  = Ok (restricted_model response to_fix model_proto).
Proof.
  intros Hsz Hall. unfold FixGivenPosition.
  rewrite Hsz, Z.eqb_refl. cbn [check bind].
  rewrite <- (restrict_variable_nil response (variables model_proto)) at 1.
  rewrite fix_variables_fold by done. cbn [bind app].
  rewrite add_hint_fold.
  2:{ apply Forall_forall. intros v Hv. apply elem_of_seqZ in Hv.
      unfold size in *. rewrite length_imap in Hv. lia. }
  cbn [bind]. unfold restricted_model, full_hint. do 2 f_equal.
  assert (Hsz' : size (imap (restrict_variable response to_fix)
                         (variables model_proto))
                 = size (solution response)).
  { unfold size in *. rewrite length_imap. lia. }
  rewrite Hsz'.
  destruct (solution response) as [|s sol] eqn:Esol; [reflexivity|].
  rewrite <- Esol.
  rewrite (bool_decide_eq_false_2 (seqZ _ _ = [])).
  2:{ intros E. apply (f_equal length) in E. rewrite length_seqZ in E.
      rewrite Esol in E. unfold size in E. cbn [length] in E. lia. }
  rewrite (bool_decide_eq_false_2 (solution response = [])) by (by rewrite Esol).
  cbn [hint_of vars values app]. by rewrite solution_values.
Qed.

(** Without the size precondition the call aborts. *)
Lemma FixGivenPosition_size_mismatch (response : CpSolverResponse)
    (to_fix : list Z) (model_proto : CpModelProto) :
  size (solution response) <> size (variables model_proto) ->
  FixGivenPosition response to_fix model_proto = Fail CheckFailure.
Proof.
  intros Hne. unfold FixGivenPosition.
  by rewrite (proj2 (Z.eqb_neq _ _) Hne).
Qed.

(** An index to fix that is not a variable index is an access outside the
    variable list. *)
Lemma fix_variables_index_outside (response : CpSolverResponse)
    (to_fix : list Z) (vs : list IntegerVariableProto) :
  size (solution response) = size vs ->
  Exists (fun var => ~ 0 <= var < size vs) to_fix ->
  foldM (fix_variable response) to_fix vs = Fail UndefinedBehavior.
Proof.
  intros Hsz Hex. revert vs Hsz Hex.
  induction to_fix as [|var to_fix IH]; intros vs Hsz Hex.
  - by apply Exists_nil in Hex.
  - cbn [foldM]. destruct (decide (0 <= var < size vs)) as [Hin|Hout].
    + apply Exists_cons in Hex as [Hex|Hex]; [done|].
      unfold fix_variable at 1.
      destruct (at_defined vs var Hin) as (x & -> & _).
      destruct (at_defined (solution response) var) as (s & -> & _); [lia|].
      cbn [bind]. rewrite set_at_defined by done. cbn [bind].
      apply IH; [by rewrite size_insert|].
      eapply Exists_impl; [exact Hex|].
      intros v Hv. by rewrite size_insert.
    + assert (in_range vs var = false) as Hrange.
      { apply not_true_iff_false. by rewrite in_range_true. }
      unfold fix_variable at 1, at_. by rewrite Hrange.
Qed.

Lemma FixGivenPosition_index_outside (response : CpSolverResponse)
    (to_fix : list Z) (model_proto : CpModelProto) :
  size (solution response) = size (variables model_proto) ->
  Exists (fun var => ~ 0 <= var < size (variables model_proto)) to_fix ->
  FixGivenPosition response to_fix model_proto = Fail UndefinedBehavior.
Proof.
  intros Hsz Hex. unfold FixGivenPosition.
  rewrite Hsz, Z.eqb_refl. cbn [check bind].
  by rewrite fix_variables_index_outside.
Qed.

End FixGivenPositionFacts.

(** ** The outcomes of FixGivenPosition *)

Section FixGivenPositionOutcomes.
Context `{CM : ConstraintModel}.

(** A call that returns had matching sizes and indices of variables, and
    returned the restricted model. *)
Lemma FixGivenPosition_inv (response : CpSolverResponse) (to_fix : list Z)
    (model_proto restricted : CpModelProto) :
  FixGivenPosition response to_fix model_proto = Ok restricted ->
  size (solution response) = size (variables model_proto) /\
  Forall (fun var => 0 <= var < size (variables model_proto)) to_fix /\
  restricted = restricted_model response to_fix model_proto.
Proof.
  intros H.
  destruct (decide (size (solution response) = size (variables model_proto)))
    as [Hsz|Hsz].
  2:{ rewrite FixGivenPosition_size_mismatch in H by done. discriminate. }
  destruct (decide (Forall (fun var => 0 <= var < size (variables model_proto))
                           to_fix)) as [Hall|Hall].
  - rewrite FixGivenPosition_Ok in H by done. by injection H as <-.
  - apply not_Forall_Exists in Hall; [|apply _].
    rewrite FixGivenPosition_index_outside in H; [discriminate|done|].
    eapply Exists_impl; [exact Hall|]. by intros var Hvar.
Qed.

Lemma restrict_variable_name (response : CpSolverResponse) (fixed : list Z)
    (i : nat) (v : IntegerVariableProto) :
  name (restrict_variable response fixed i v) = name v.
Proof. unfold restrict_variable. by destruct (bool_decide _). Qed.

(** The restricted model depends on the set of the fixed indices only. *)
Lemma restricted_model_ext (response : CpSolverResponse) (l1 l2 : list Z)
    (model_proto : CpModelProto) :
  (forall var, var ∈ l1 <-> var ∈ l2) ->
  restricted_model response l1 model_proto
  = restricted_model response l2 model_proto.
Proof.
  intros Hsame. unfold restricted_model. f_equal.
  apply imap_ext. intros i v _. unfold restrict_variable.
  by rewrite (bool_decide_ext _ _ (Hsame (Z.of_nat i))).
Qed.

(** Restricting twice on one incumbent is restricting once. *)
Lemma restricted_model_app (response : CpSolverResponse) (l1 l2 : list Z)
    (model_proto : CpModelProto) :
  restricted_model response l2 (restricted_model response l1 model_proto)
  = restricted_model response (l1 ++ l2) model_proto.
Proof.
  unfold restricted_model. cbn [variables constraints search_strategy].
  f_equal. apply list_eq. intros i. rewrite !list_lookup_imap.
  destruct (variables model_proto !! i) as [v|]; [|reflexivity].
  cbn [fmap option_fmap option_map]. f_equal.
  unfold restrict_variable at 1 3.
  destruct (decide (Z.of_nat i ∈ l2)) as [Hin|Hnin].
  - rewrite !bool_decide_eq_true_2; [|apply elem_of_app; by right|done].
    by rewrite restrict_variable_name.
  - rewrite (bool_decide_eq_false_2 _ Hnin). unfold restrict_variable.
    rewrite (bool_decide_ext (Z.of_nat i ∈ l1 ++ l2) (Z.of_nat i ∈ l1));
      [done|]. rewrite elem_of_app. tauto.
Qed.

Lemma restricted_model_variables_length (response : CpSolverResponse)
    (fixed : list Z) (model_proto : CpModelProto) :
  length (variables (restricted_model response fixed model_proto))
  = length (variables model_proto).
Proof. unfold restricted_model. cbn [variables]. by rewrite length_imap. Qed.

(** A variable of the restricted model keeps its name, and its domain is the
    one it had or the single value of the incumbent. *)
Lemma restricted_model_variable (response : CpSolverResponse)
    (fixed : list Z) (model_proto : CpModelProto) (i : nat)
    (v v' : IntegerVariableProto) :
  size (solution response) = size (variables model_proto) ->
  variables model_proto !! i = Some v ->
  variables (restricted_model response fixed model_proto) !! i = Some v' ->
  name v' = name v /\
  (domain v' = domain v \/
   exists s, solution response !! i = Some s /\ domain v' = [s; s]).
Proof.
  intros Hsz Hv Hv'. unfold restricted_model in Hv'. cbn [variables] in Hv'.
  rewrite list_lookup_imap, Hv in Hv'. injection Hv' as <-.
  split; [apply restrict_variable_name|].
  unfold restrict_variable. destruct (bool_decide _); [|by left].
  right. cbn [domain]. unfold solution_at.
  destruct (lookup_lt_is_Some_2 (solution response) i) as [s Hs].
  { apply lookup_lt_Some in Hv. unfold size in Hsz. lia. }
  exists s. by rewrite Hs.
Qed.

End FixGivenPositionOutcomes.

(** ** What the constructor builds *)

Section ConstructorFacts.
Context `{CM : ConstraintModel}.

Lemma add_constraint_variable_Ok (num_vars k var : Z)
    (v2c c2v v2c' c2v' : list (list Z)) :
  add_constraint_variable num_vars k (v2c, c2v) var = Ok (v2c', c2v') ->
  0 <= var < num_vars /\ 0 <= var < size v2c /\
  exists cts old,
    v2c !! Z.to_nat var = Some cts /\
    v2c' = <[Z.to_nat var := cts ++ [k]]> v2c /\
    0 <= k < size c2v /\
    c2v !! Z.to_nat k = Some old /\
    c2v' = <[Z.to_nat k := old ++ [var]]> c2v.
Proof.
  unfold add_constraint_variable. intros H.
  inv_bind H as cts [Hv Hcts]%at_Ok.
  inv_bind H as v2c1 [_ ->]%set_at_Ok.
  inv_bind H as old [Hk Hold]%at_Ok.
  inv_bind H as c2v1 [_ ->]%set_at_Ok.
  inv_bind H as u1 Hge%check_Ok%Z.leb_le.
  inv_bind H as u2 Hlt%check_Ok%Z.ltb_lt.
  injection H as <- <-. eauto 12.
Qed.

Lemma add_constraint_Ok (num_vars k : Z) (used : list Z)
    (v2c c2v v2c' c2v' : list (list Z)) :
  foldM (add_constraint_variable num_vars k) used (v2c, c2v) = Ok (v2c', c2v') ->
  0 <= k < size c2v ->
  Forall (fun var => 0 <= var < num_vars) used /\
  length v2c' = length v2c /\
  (forall v ct, lists_constraint v2c' v ct <->
                lists_constraint v2c v ct \/
                (ct = k /\ Z.of_nat v ∈ used /\ (v < length v2c)%nat)) /\
  exists old, c2v !! Z.to_nat k = Some old /\
              c2v' = <[Z.to_nat k := old ++ used]> c2v.
Proof.
  revert v2c c2v. induction used as [|var used IH]; intros v2c c2v Hfold Hk.
  - cbn in Hfold. injection Hfold as <- <-.
    split; [constructor|]. split; [done|]. split.
    + intros v ct. split; [tauto|]. intros [H|(_ & H & _)]; [done|].
      by apply elem_of_nil in H.
    + destruct (lookup_lt_is_Some_2 c2v (Z.to_nat k)) as [old Hold];
        [by apply in_range_lt|].
      exists old. split; [done|]. rewrite app_nil_r.
      by rewrite list_insert_id.
  - cbn [foldM] in Hfold. inv_bind Hfold as [v2c1 c2v1] Hfold0.
    apply add_constraint_variable_Ok in Hfold0
      as (Hvar & Hvar' & cts & old & Hcts & -> & _ & Hold & ->).
    apply IH in Hfold as (Hall & Hlen & Hv2c & old' & Hold' & ->);
      [|by rewrite size_insert].
    split; [by constructor|].
    split; [by rewrite Hlen, length_insert|].
    split.
    + intros v ct. rewrite Hv2c, length_insert. unfold lists_constraint.
      destruct (decide (v = Z.to_nat var)) as [->|Hne].
      * rewrite list_lookup_insert_eq by (by apply in_range_lt).
        split.
        -- intros [(cts' & [= <-] & Hin)|(-> & Hin & Hlt)].
           ++ apply elem_of_app in Hin as [Hin|Hin]; [left; eauto|].
              apply list_elem_of_singleton in Hin as ->. right.
              repeat split; [|by apply in_range_lt].
              rewrite Z2Nat.id by lia. apply list_elem_of_here.
           ++ right. repeat split; [|done]. by apply list_elem_of_further.
        -- intros [(cts' & Hcts' & Hin)|(-> & Hin & Hlt)].
           ++ left. exists (cts ++ [k]). split; [done|].
              apply elem_of_app. left. congruence.
           ++ left. exists (cts ++ [k]). split; [done|].
              apply elem_of_app. right. apply list_elem_of_here.
      * rewrite list_lookup_insert_ne by done.
        split.
        -- intros [H|(-> & Hin & Hlt)]; [by left|].
           right. repeat split; [|done]. by apply list_elem_of_further.
        -- intros [H|(-> & Hin & Hlt)]; [by left|].
           right. repeat split; [|done].
           apply elem_of_cons in Hin as [Hin|Hin]; [lia|done].
    + exists old. split; [done|].
      rewrite list_lookup_insert_eq in Hold' by (by apply in_range_lt).
      injection Hold' as <-.
      rewrite list_insert_insert_eq. by rewrite <- app_assoc.
Qed.

Lemma add_constraints_Ok (num_vars : Z) (cs : list ConstraintProto) (k : Z)
    (v2c c2v v2c' c2v' : list (list Z)) :
  foldM (add_constraint num_vars) (zip (seqZ k (size cs)) cs) (v2c, c2v)
  = Ok (v2c', c2v') ->
  0 <= k -> k + size cs <= size c2v ->
  (forall j, Z.to_nat k <= j < Z.to_nat k + length cs -> c2v !! j = Some [])%nat ->
  Forall (fun ct => Forall (fun var => 0 <= var < num_vars) (UsedVariables ct)) cs /\
  length v2c' = length v2c /\
  (forall v ct, lists_constraint v2c' v ct <->
                lists_constraint v2c v ct \/
                (k <= ct /\ (v < length v2c)%nat /\
                 exists c, cs !! Z.to_nat (ct - k) = Some c /\
                           Z.of_nat v ∈ UsedVariables c)) /\
  length c2v' = length c2v /\
  (forall j, c2v' !! j =
             if bool_decide (Z.to_nat k <= j < Z.to_nat k + length cs)%nat
             then UsedVariables <$> cs !! (j - Z.to_nat k)%nat
             else c2v !! j).
Proof.
  revert k v2c c2v. induction cs as [|c cs IH]; intros k v2c c2v Hfold Hk0 Hk Hnil.
  - cbn in Hfold. injection Hfold as <- <-.
    split; [constructor|]. split; [done|]. split.
    + intros v ct. split; [tauto|].
      intros [H|(_ & _ & c & Hc & _)]; [done|]. by rewrite lookup_nil in Hc.
    + split; [done|]. intros j. rewrite bool_decide_eq_false_2; [done|].
      cbn [length]. lia.
  - unfold size in Hk, Hfold. cbn [length] in Hk, Hfold, Hnil.
    rewrite Nat2Z.inj_succ, seqZ_cons in Hfold by lia.
    replace (Z.pred (Z.succ (Z.of_nat (length cs)))) with (size cs) in Hfold
      by (unfold size; lia).
    cbn [zip zip_with foldM] in Hfold. inv_bind Hfold as [v2c1 c2v1] Hfold0.
    unfold add_constraint in Hfold0.
    cbn [fst snd] in Hfold0.
    apply add_constraint_Ok in Hfold0
      as (Hall & Hlen1 & Hv2c1 & old & Hold & ->); [|unfold size in *; lia].
    rewrite Hnil in Hold by lia. injection Hold as <-. cbn [app] in *.
    apply IH in Hfold as (Hall' & Hlen & Hv2c & Hlen' & Hc2v).
    2: lia.
    2:{ rewrite size_insert. unfold size in *. lia. }
    2:{ intros j Hj. rewrite list_lookup_insert_ne by lia. apply Hnil. lia. }
    split; [by constructor|].
    split; [lia|].
    split.
    + intros v ct. rewrite Hv2c, Hv2c1, Hlen1. split.
      * intros [[H|(-> & Hin & Hlt)]|(Hct & Hlt & c' & Hc' & Hin)].
        -- by left.
        -- right. repeat split; [lia|done|]. exists c.
           by rewrite Z.sub_diag.
        -- right. repeat split; [lia|done|]. exists c'. split; [|done].
           replace (Z.to_nat (ct - k)) with (S (Z.to_nat (ct - Z.succ k))) by lia.
           done.
      * intros [H|(Hct & Hlt & c' & Hc' & Hin)]; [by left; left|].
        destruct (decide (ct = k)) as [->|Hne].
        -- left. right. rewrite Z.sub_diag in Hc'. cbn in Hc'.
           injection Hc' as <-. done.
        -- right. repeat split; [lia|done|]. exists c'. split; [|done].
           replace (Z.to_nat (ct - k)) with (S (Z.to_nat (ct - Z.succ k)))
             in Hc' by lia.
           done.
    + split; [by rewrite Hlen', length_insert|].
      intros j. rewrite Hc2v. cbn [length].
      replace (Z.to_nat (Z.succ k)) with (S (Z.to_nat k)) by lia.
      destruct (decide (j = Z.to_nat k)) as [->|Hne].
      * rewrite bool_decide_eq_false_2 by lia.
        rewrite bool_decide_eq_true_2 by lia.
        rewrite list_lookup_insert_eq by (unfold size in *; lia).
        by rewrite Nat.sub_diag.
      * rewrite list_lookup_insert_ne by done.
        destruct (decide (S (Z.to_nat k) <= j < S (Z.to_nat k) + length cs)%nat).
        -- rewrite !bool_decide_eq_true_2 by lia.
           by replace (j - Z.to_nat k)%nat with (S (j - S (Z.to_nat k))) by lia.
        -- by rewrite !bool_decide_eq_false_2 by lia.
Qed.

Lemma add_decision_variable_invariant (len : nat) (st st' : list Z * list bool)
    (var : Z) :
  decision_invariant len st -> add_decision_variable st var = Ok st' ->
  decision_invariant len st' /\ var ∈ fst st' /\
  (forall v, v ∈ fst st' <-> v ∈ fst st \/ v = var).
Proof.
  destruct st as [dvars dset]. intros (Hlen & Hnd & Hmem) H.
  unfold add_decision_variable in H. cbn [fst snd] in *.
  inv_bind H as seen [Hvar Hseen]%at_Ok.
  destruct seen; cbn [negb] in H.
  - injection H as <-. cbn [fst snd].
    assert (Hin : var ∈ dvars) by (apply Hmem; split; [lia|done]).
    split; [by split|]. split; [done|].
    intros v. split; [tauto|]. by intros [?| ->].
  - inv_bind H as dset' [_ ->]%set_at_Ok. injection H as <-.
    cbn [fst snd].
    assert (Hnin : var ∉ dvars).
    { intros Hin. apply Hmem in Hin as [_ Hin]. congruence. }
    unfold decision_invariant. cbn [fst snd].
    split; [|split].
    + split; [by rewrite length_insert|]. split.
      * apply NoDup_app. split; [done|]. split; [|apply NoDup_singleton].
        intros x Hx Hx'. apply list_elem_of_singleton in Hx' as ->. done.
      * intros v. rewrite elem_of_app, list_elem_of_singleton, Hmem.
        destruct (decide (v = var)) as [->|Hne].
        -- rewrite list_lookup_insert_eq by (by apply in_range_lt).
           split; [|tauto]. intros _. split; [lia|done].
        -- destruct (decide (0 <= v)) as [Hv|Hv]; [|lia].
           rewrite list_lookup_insert_ne by lia. tauto.
    + apply elem_of_app. right. apply list_elem_of_here.
    + intros v. by rewrite elem_of_app, list_elem_of_singleton.
Qed.

Lemma add_search_strategy_invariant (len : nat) (st st' : list Z * list bool)
    (s : DecisionStrategyProto) :
  decision_invariant len st -> add_search_strategy st s = Ok st' ->
  decision_invariant len st'.
Proof.
  unfold add_search_strategy.
  intros Hinv H.
  eapply (foldM_invariant (decision_invariant len) (fun _ => True));
    [| |exact Hinv|exact H].
  - intros a x a' Ha _ Hf.
    by destruct (add_decision_variable_invariant len a a' x Ha Hf).
  - by apply Forall_forall.
Qed.

Lemma new_NeighborhoodGenerator_ok (model : CpModelProto) (focus : bool)
    (g : NeighborhoodGenerator) :
  new_NeighborhoodGenerator model focus = Ok g ->
  generator_ok g /\ model_proto_ g = model /\
  focus_on_decision_variables_ g
  = focus && negb (bool_decide (decision_variables_ g = [])).
Proof.
  unfold new_NeighborhoodGenerator. intros H.
  inv_bind H as [v2c c2v] Htabs. inv_bind H as [dvars dset] Hdec.
  injection H as <-. cbn [fst snd] in *.
  apply add_constraints_Ok in Htabs
    as (Hall & Hlen & Hv2c & Hlen' & Hc2v);
    [|lia|by rewrite size_replicate; unfold size
     |by intros j Hj; apply lookup_replicate_2; cbn in Hj; lia].
  rewrite length_replicate in Hlen, Hlen'.
  assert (Hinv : decision_invariant
                   (length (if 0 <? size (search_strategy model)
                            then replicate (length (variables model)) false
                            else [])) (dvars, dset)).
  { eapply (foldM_invariant (decision_invariant _) (fun _ => True));
      [| |
       |exact Hdec].
    - intros a x a' Ha _ Hf. by eapply add_search_strategy_invariant.
    - by apply Forall_forall.
    - split; [done|]. split; [apply NoDup_nil_2|]. cbn [fst snd].
      intros var. split; [by intros ?%elem_of_nil|]. intros [_ Hl].
      destruct (0 <? size (search_strategy model)).
      + apply lookup_replicate in Hl as [? _]. done.
      + by rewrite lookup_nil in Hl. }
  destruct Hinv as (Hdlen & Hnd & Hmem). cbn [fst snd] in *.
  split; [split; cbn|split; cbn].
  - done.
  - apply list_eq. intros j. rewrite Hc2v, list_lookup_fmap.
    change (Z.to_nat 0) with 0%nat. rewrite Nat.sub_0_r.
    destruct (decide (j < length (constraints model))%nat).
    + by rewrite bool_decide_eq_true_2 by lia.
    + rewrite bool_decide_eq_false_2 by lia.
      rewrite (proj1 (lookup_replicate_None _ _ _)) by lia.
      by rewrite lookup_ge_None_2 by lia.
  - done.
  - intros v ct. rewrite Hv2c. rewrite Z.sub_0_r, length_replicate.
    unfold lists_constraint. split.
    + intros [(cts & Hcts & Hin)|(Hct & Hlt & c & Hc & Hin)].
      * apply lookup_replicate in Hcts as [-> _]. by apply elem_of_nil in Hin.
      * eauto.
    + intros (Hct & c & Hc & Hin). right. split; [done|]. split; [|eauto].
      apply list_elem_of_lookup_2 in Hc.
      rewrite Forall_forall in Hall. specialize (Hall c Hc).
      rewrite Forall_forall in Hall. specialize (Hall _ Hin). lia.
  - done.
  - done.
  - rewrite Hdlen. destruct (0 <? size (search_strategy model)).
    + right. by rewrite length_replicate.
    + left. by apply nil_length_inv.
  - destruct (bool_decide (dvars = [])) eqn:E; [discriminate|].
    intros _. by apply bool_decide_eq_false in E.
  - done.
  - destruct (bool_decide (dvars = [])), focus; reflexivity.
Qed.

(** The constructor returns on every model whose constraints and search
    strategies mention variable indices only. *)
Lemma new_NeighborhoodGenerator_defined (model : CpModelProto) (focus : bool) :
  Forall (fun ct => Forall (fun var => 0 <= var < size (variables model))
                           (UsedVariables ct)) (constraints model) ->
  Forall (fun s => Forall (fun var => 0 <= var < size (variables model))
                          (strategy_variables s)) (search_strategy model) ->
  exists g, new_NeighborhoodGenerator model focus = Ok g.
Proof.
  intros Hcts Hstrat. unfold new_NeighborhoodGenerator.
  set (tabs_ok := fun tabs : list (list Z) * list (list Z) =>
                    length tabs.1 = length (variables model) /\
                    length tabs.2 = length (constraints model)).
  destruct (foldM_defined tabs_ok
              (fun kc : Z * ConstraintProto =>
                 0 <= kc.1 < size (constraints model) /\
                 Forall (fun var => 0 <= var < size (variables model))
                        (UsedVariables kc.2))
              (add_constraint (Z.of_nat (length (variables model))))
              (enumerate (constraints model))
              (replicate (length (variables model)) [],
               replicate (length (constraints model)) []))
    as (tabs & -> & _).
  - intros tabs [k c] Htabs [Hk Hused]. cbn [fst snd] in *.
    unfold add_constraint. cbn [fst snd].
    apply (foldM_defined tabs_ok
             (fun var => 0 <= var < size (variables model))); [|done|done].
    intros [v2c c2v] var [Hl1 Hl2] Hvar. cbn [fst snd] in *.
    unfold add_constraint_variable.
    destruct (at_defined v2c var) as (cts & -> & _); [unfold size in *; lia|].
    cbn [bind]. rewrite set_at_defined by (unfold size in *; lia).
    cbn [bind].
    destruct (at_defined c2v k) as (old & -> & _); [unfold size in *; lia|].
    cbn [bind]. rewrite set_at_defined by (unfold size in *; lia).
    cbn [bind].
    rewrite (proj2 (Z.leb_le 0 var)) by lia.
    rewrite (proj2 (Z.ltb_lt var _)) by (unfold size in *; lia).
    cbn [check bind]. eexists. split; [reflexivity|].
    split; cbn [fst snd]; by rewrite length_insert.
  - apply Forall_forall. intros [k c] Hin. cbn [fst snd]. split.
    + apply elem_of_zip_l, elem_of_seqZ in Hin. lia.
    + apply elem_of_zip_r in Hin. rewrite Forall_forall in Hcts. by apply Hcts.
  - split; cbn [fst snd]; by rewrite length_replicate.
  - cbn [bind].
    destruct (search_strategy model) as [|s0 strategies] eqn:Es.
    { cbn. by eexists. }
    rewrite <- Es in *.
    replace (0 <? size (search_strategy model)) with true
      by (rewrite Es; reflexivity).
    destruct (foldM_defined
                (fun st : list Z * list bool =>
                   length st.2 = length (variables model))
                (fun s => Forall (fun var => 0 <= var < size (variables model))
                                 (strategy_variables s))
                add_search_strategy (search_strategy model)
                ([], replicate (length (variables model)) false))
      as (dec & -> & _).
    + intros st s Hst Hs. unfold add_search_strategy.
      apply (foldM_defined
               (fun st : list Z * list bool =>
                  length st.2 = length (variables model))
               (fun var => 0 <= var < size (variables model))); [|done|done].
      intros [dvars dset] var Hlen Hvar. cbn [fst snd] in *.
      unfold add_decision_variable.
      destruct (at_defined dset var) as (seen & -> & _);
        [unfold size in *; lia|].
      cbn [bind]. destruct seen; cbn [negb].
      * by eexists.
      * rewrite set_at_defined by (unfold size in *; lia). cbn [bind].
        eexists. split; [reflexivity|]. cbn [snd]. by rewrite length_insert.
    + done.
    + cbn [snd]. by rewrite length_replicate.
    + cbn [bind]. by eexists.
Qed.

Section GeneratorOk.
Variable g : NeighborhoodGenerator.
Hypothesis Hok : generator_ok g.

Lemma decision_variable_in_range (var : Z) :
  var ∈ decision_variables_ g ->
  0 <= var < size (variables (model_proto_ g)) /\
  0 <= var < size (decision_variables_set_ g).
Proof.
  intros Hin. apply (ok_decision_set g Hok) in Hin as [Hvar Hset].
  pose proof (lookup_lt_Some _ _ _ Hset) as Hlt.
  destruct (ok_decision_set_length g Hok) as [E|E].
  - rewrite E in Hlt. cbn in Hlt. lia.
  - unfold size. lia.
Qed.

Lemma decision_variables_set_length :
  focus_on_decision_variables_ g = true ->
  length (decision_variables_set_ g) = length (variables (model_proto_ g)).
Proof.
  intros Hf. apply (ok_focus g Hok) in Hf.
  destruct (decision_variables_ g) as [|var l] eqn:E; [done|].
  destruct (decision_variable_in_range var) as [_ Hr].
  { rewrite E. apply list_elem_of_here. }
  destruct (ok_decision_set_length g Hok) as [E'|E']; [|done].
  rewrite E' in Hr. unfold size in Hr. cbn in Hr. lia.
Qed.

Lemma constraint_to_var_length :
  length (constraint_to_var_ g) = length (constraints (model_proto_ g)).
Proof. by rewrite (ok_constraint_to_var g Hok), length_fmap. Qed.

(** Entries of [constraint_to_var_] are variable indices. *)
Lemma constraint_to_var_in_range (ct : nat) (ct_vars : list Z) (var : Z) :
  constraint_to_var_ g !! ct = Some ct_vars -> var ∈ ct_vars ->
  0 <= var < size (variables (model_proto_ g)).
Proof.
  rewrite (ok_constraint_to_var g Hok), list_lookup_fmap.
  intros Hl Hin. destruct (constraints (model_proto_ g) !! ct) as [c|] eqn:Hc;
    [|discriminate].
  injection Hl as <-.
  pose proof (ok_used_in_range g Hok) as Hall.
  rewrite Forall_forall in Hall.
  specialize (Hall c (list_elem_of_lookup_2 _ _ _ Hc)).
  rewrite Forall_forall in Hall. by apply Hall.
Qed.

(** Entries of [var_to_constraint_] are constraint indices. *)
Lemma var_to_constraint_in_range (v : nat) (cts : list Z) (ct : Z) :
  var_to_constraint_ g !! v = Some cts -> ct ∈ cts ->
  0 <= ct < size (constraint_to_var_ g).
Proof.
  intros Hl Hin.
  assert (H : lists_constraint (var_to_constraint_ g) v ct) by (exists cts; done).
  apply (ok_var_to_constraint g Hok) in H as (Hct & c & Hc & _).
  apply lookup_lt_Some in Hc. unfold size. rewrite constraint_to_var_length. lia.
Qed.

End GeneratorOk.

End ConstructorFacts.

(** ** The decision variables that the constructor collects *)

Section ConstructorOutcomes.
Context `{CM : ConstraintModel}.

(** The decision variables after one more strategy. *)
Lemma add_search_strategy_elements (len : nat) (st st' : list Z * list bool)
    (s : DecisionStrategyProto) :
  decision_invariant len st -> add_search_strategy st s = Ok st' ->
  forall v, v ∈ st'.1 <-> v ∈ st.1 \/ v ∈ strategy_variables s.
Proof.
  unfold add_search_strategy. generalize (strategy_variables s) as l.
  intros l. revert st. induction l as [|var l IH]; intros st Hinv H v.
  - injection H as <-. rewrite elem_of_nil. tauto.
  - cbn [foldM] in H. inv_bind H as st1 Hst1.
    destruct (add_decision_variable_invariant len st st1 var Hinv Hst1)
      as (Hinv1 & _ & Hmem).
    rewrite (IH st1 Hinv1 H), Hmem, elem_of_cons. tauto.
Qed.

Lemma add_search_strategies_elements (len : nat) (st st' : list Z * list bool)
    (strategies : list DecisionStrategyProto) :
  decision_invariant len st -> foldM add_search_strategy strategies st = Ok st' ->
  forall v, v ∈ st'.1 <->
            v ∈ st.1 \/ exists s, s ∈ strategies /\ v ∈ strategy_variables s.
Proof.
  revert st. induction strategies as [|s strategies IH]; intros st Hinv H v.
  - injection H as <-. split; [tauto|].
    intros [?|(s & Hs%elem_of_nil & _)]; done.
  - cbn [foldM] in H. inv_bind H as st1 Hst1.
    pose proof (add_search_strategy_invariant len st st1 s Hinv Hst1) as Hinv1.
    rewrite (IH st1 Hinv1 H), (add_search_strategy_elements len st st1 s Hinv Hst1).
    split.
    + intros [[?|?]|(s' & Hs' & Hv)]; [tauto| |].
      * right. exists s. split; [apply list_elem_of_here|done].
      * right. exists s'. split; [by apply list_elem_of_further|done].
    + intros [?|(s' & Hs' & Hv)]; [tauto|].
      apply elem_of_cons in Hs' as [->|Hs']; [tauto|]. right. eauto.
Qed.

(** The decision variables of a built generator are the variables that the
    search strategies of the model list. *)
Lemma new_NeighborhoodGenerator_decision_variables (model : CpModelProto)
    (focus : bool) (g : NeighborhoodGenerator) :
  new_NeighborhoodGenerator model focus = Ok g ->
  forall var, var ∈ decision_variables_ g <->
              exists s, s ∈ search_strategy model /\
                        var ∈ strategy_variables s.
Proof.
  unfold new_NeighborhoodGenerator. intros H var.
  inv_bind H as tabs Htabs. inv_bind H as dec Hdec.
  injection H as <-. cbn [decision_variables_].
  assert (decision_invariant
            (length (if 0 <? size (search_strategy model)
                     then replicate (length (variables model)) false
                     else []))
            ([], if 0 <? size (search_strategy model)
                 then replicate (length (variables model)) false
                 else [])) as Hinv.
  { split; [done|]. split; [apply NoDup_nil_2|]. cbn [fst snd].
    intros v. split; [by intros ?%elem_of_nil|]. intros [_ Hl].
    destruct (0 <? size (search_strategy model)).
    - apply lookup_replicate in Hl as [? _]. done.
    - by rewrite lookup_nil in Hl. }
  rewrite (add_search_strategies_elements _ _ _ _ Hinv Hdec).
  cbn [fst]. rewrite elem_of_nil. tauto.
Qed.

End ConstructorOutcomes.

(** ** Active variables and RelaxGivenVariables *)

Section RelaxFacts.
Context `{CM : ConstraintModel} `{RE : RandomEngine}.
Variable g : NeighborhoodGenerator.
Hypothesis Hok : generator_ok g.

Lemma IsActive_Ok (var : Z) :
  0 <= var < size (variables (model_proto_ g)) ->
  IsActive g var = Ok (bool_decide (active g var)).
Proof.
  intros Hvar. unfold IsActive, active.
  destruct (focus_on_decision_variables_ g) eqn:Hf; cbn [negb].
  - pose proof (decision_variables_set_length g Hok Hf) as Hlen.
    destruct (at_defined (decision_variables_set_ g) var) as (b & -> & Hb);
      [unfold size in *; lia|].
    f_equal. destruct b.
    + symmetry. apply bool_decide_eq_true. right.
      apply (ok_decision_set g Hok). split; [lia|done].
    + symmetry. apply bool_decide_eq_false. intros [|Hin]; [done|].
      apply (ok_decision_set g Hok) in Hin as [_ Hin]. congruence.
  - by rewrite bool_decide_eq_true_2 by (by left).
Qed.

Lemma elem_of_active_pool (var : Z) :
  var ∈ active_pool g <->
  0 <= var < size (variables (model_proto_ g)) /\ active g var.
Proof.
  unfold active_pool, active.
  destruct (focus_on_decision_variables_ g) eqn:Hf.
  - split.
    + intros Hin. split; [|by right].
      by apply (decision_variable_in_range g Hok).
    + by intros [_ [|]].
  - rewrite elem_of_seqZ. split; [intros; split; [lia|by left]|lia].
Qed.

Lemma NoDup_active_pool : NoDup (active_pool g).
Proof.
  unfold active_pool. destruct (focus_on_decision_variables_ g).
  - apply (ok_decision_NoDup g Hok).
  - apply NoDup_seqZ.
Qed.

Lemma num_active_vars_pool : num_active_vars g = size (active_pool g).
Proof.
  unfold num_active_vars, active_pool.
  destruct (focus_on_decision_variables_ g); [done|].
  unfold size. rewrite length_seqZ. lia.
Qed.

Lemma add_if_not_relaxed_step (mask : list bool) (acc : list Z) (var : Z) :
  0 <= var < size mask ->
  add_if_not_relaxed mask acc var
  = Ok (if decide (marked mask var) then acc else acc ++ [var]).
Proof.
  intros Hvar. unfold add_if_not_relaxed, marked.
  destruct (at_defined mask var Hvar) as (r & -> & Hr). cbn [bind].
  destruct r; cbn [negb].
  - rewrite decide_True; [done|]. split; [lia|done].
  - rewrite decide_False; [done|]. intros [_ Hn]. congruence.
Qed.

Lemma add_if_not_relaxed_fold (mask : list bool) (pool acc : list Z) :
  Forall (fun var => 0 <= var < size mask) pool ->
  foldM (add_if_not_relaxed mask) pool acc
  = Ok (acc ++ filter (fun var => ~ marked mask var) pool).
Proof.
  intros Hall. revert acc.
  induction Hall as [|var pool Hvar _ IH]; intros acc.
  - cbn. by rewrite app_nil_r.
  - cbn [foldM]. rewrite add_if_not_relaxed_step by done. cbn [bind].
    rewrite IH, filter_cons.
    destruct (decide (marked mask var)) as [Hr|Hr].
    + by rewrite decide_False by tauto.
    + by rewrite decide_True, <- app_assoc by done.
Qed.

(** The fixed variables are the active ones that the mask leaves out. *)
Lemma fixed_variables_of_Ok (mask : list bool) :
  length mask = length (variables (model_proto_ g)) ->
  fixed_variables_of g mask
  = Ok (filter (fun var => ~ marked mask var) (active_pool g)).
Proof.
  intros Hlen.
  assert (E : fixed_variables_of g mask
              = foldM (add_if_not_relaxed mask) (active_pool g) []).
  { unfold fixed_variables_of, active_pool.
    by destruct (focus_on_decision_variables_ g). }
  rewrite E, add_if_not_relaxed_fold; [done|].
  apply Forall_forall. intros var Hin.
  apply elem_of_active_pool in Hin as [Hvar _]. unfold size in *. lia.
Qed.

Lemma RelaxGivenVariables_Ok (initial_solution : CpSolverResponse)
    (mask : list bool) :
  length mask = length (variables (model_proto_ g)) ->
  size (solution initial_solution) = size (variables (model_proto_ g)) ->
  RelaxGivenVariables g initial_solution mask
  = Ok (restricted_model initial_solution
          (filter (fun var => ~ marked mask var) (active_pool g))
          (model_proto_ g)).
Proof.
  intros Hlen Hsz. unfold RelaxGivenVariables.
  rewrite fixed_variables_of_Ok by done. cbn [bind].
  apply FixGivenPosition_Ok; [done|].
  apply Forall_forall. intros var [_ Hin]%list_elem_of_filter.
  by apply elem_of_active_pool in Hin as [Hvar _].
Qed.

(** [mask_of] marks exactly the listed variables. *)
Lemma mark_fold (l : list Z) (mask : list bool) :
  Forall (fun var => 0 <= var < size mask) l ->
  exists mask', foldM mark l mask = Ok mask' /\
    length mask' = length mask /\
    forall var, marked mask' var <-> marked mask var \/ var ∈ l.
Proof.
  intros Hall. revert mask Hall.
  induction l as [|x l IH]; intros mask Hall.
  - exists mask. split; [done|]. split; [done|]. intros var.
    split; [tauto|]. intros [|[]%elem_of_nil]. done.
  - apply Forall_cons in Hall as [Hx Hall]. cbn [foldM].
    unfold mark at 1. rewrite set_at_defined by done. cbn [bind].
    destruct (IH (<[Z.to_nat x := true]> mask)) as (mask' & E & Hlen & Hrel).
    { by rewrite size_insert. }
    exists mask'. split; [done|]. split; [by rewrite Hlen, length_insert|].
    intros var. rewrite Hrel, elem_of_cons. unfold marked.
    destruct (decide (var = x)) as [->|Hne].
    + rewrite list_lookup_insert_eq by (by apply in_range_lt).
      split; [tauto|]. intros _. left. split; [lia|done].
    + destruct (decide (0 <= var)); [|tauto].
      rewrite list_lookup_insert_ne by lia. tauto.
Qed.

Lemma mask_of_Ok (l : list Z) :
  Forall (fun var => 0 <= var < size (variables (model_proto_ g))) l ->
  exists mask, mask_of g l = Ok mask /\
    length mask = length (variables (model_proto_ g)) /\
    forall var, marked mask var <-> var ∈ l.
Proof.
  intros Hall. unfold mask_of, num_model_vars.
  destruct (mark_fold l (replicate (Z.to_nat (size (variables (model_proto_ g)))) false))
    as (mask & E & Hlen & Hrel).
  { rewrite size_replicate. unfold size in *. by rewrite Nat2Z.id. }
  exists mask. split; [done|].
  rewrite length_replicate in Hlen. unfold size in Hlen. rewrite Nat2Z.id in Hlen.
  split; [done|]. intros var. rewrite Hrel. split; [|tauto].
  intros [[_ H]|H]; [|done]. by apply lookup_replicate in H as [? _].
Qed.

End RelaxFacts.

(** ** The walk of the variable-graph generator *)

Section VariableWalk.
Context `{CM : ConstraintModel} `{RE : RandomEngine}
        {REL : RandomEngineLaws RE}.
Variable g : NeighborhoodGenerator.
Hypothesis Hok : generator_ok g.

Local Abbreviation num_vars := (size (variables (model_proto_ g))).

Lemma collect_variable_spec (used0 : list bool) (cur var : Z)
    (st : list bool * list Z * Z) :
  length used0 = length (variables (model_proto_ g)) ->
  collect_inv g used0 cur st ->
  0 <= var < num_vars /\ shares_constraint g cur var ->
  exists st', collect_variable g st var = Ok st' /\ collect_inv g used0 cur st'.
Proof.
  destruct st as [[used rv] act].
  intros Hlen0 (Hlen & Hnd & Hrv & Hmark & Hact) [Hvar Hshare].
  cbn [fst snd] in *. unfold collect_variable.
  destruct (at_defined used var) as (u & -> & Hu); [unfold size in *; lia|].
  cbn [bind]. destruct u.
  - eexists. split; [reflexivity|]. unfold collect_inv. cbn [fst snd]. tauto.
  - rewrite set_at_defined by (unfold size in *; lia).
    rewrite (IsActive_Ok g Hok var Hvar). cbn [bind].
    eexists. split; [reflexivity|].
    assert (Hnm : ~ marked used var) by (intros [_ H]; congruence).
    assert (Hnin : var ∉ rv) by (intros Hin; apply Hnm, Hmark; by right).
    unfold collect_inv. cbn [fst snd].
    split; [by rewrite length_insert|]. split; [|split; [|split]].
    + apply NoDup_app. split; [done|]. split; [|apply NoDup_singleton].
      intros x Hx Hx'%list_elem_of_singleton. by subst x.
    + intros v [Hv|Hv%list_elem_of_singleton]%elem_of_app; [by apply Hrv|].
      subst v. split; [done|]. split; [|done]. intros Hm. apply Hnm, Hmark. by left.
    + intros v. rewrite elem_of_app, list_elem_of_singleton. unfold marked at 1.
      destruct (decide (v = var)) as [->|Hne].
      * rewrite list_lookup_insert_eq by (unfold size in *; lia).
        split; [tauto|]. intros _. split; [lia|done].
      * destruct (decide (0 <= v)) as [Hv|Hv].
        -- rewrite list_lookup_insert_ne by lia.
           fold (marked used v). rewrite Hmark. tauto.
        -- split; [lia|]. intros [[? _]|[Hin|?]]; [lia| |done].
           apply Hrv in Hin. lia.
    + rewrite filter_app, size_app, <- Hact. rewrite filter_cons, filter_nil.
      destruct (decide (active g var)) as [Ha|Ha].
      * by rewrite bool_decide_eq_true_2.
      * rewrite bool_decide_eq_false_2 by done. unfold size. cbn. lia.
Qed.

Lemma collect_constraint_spec (used0 : list bool) (cur ct : Z)
    (st : list bool * list Z * Z) :
  length used0 = length (variables (model_proto_ g)) ->
  collect_inv g used0 cur st ->
  0 <= cur ->
  lists_constraint (var_to_constraint_ g) (Z.to_nat cur) ct ->
  exists st', collect_constraint g st ct = Ok st' /\ collect_inv g used0 cur st'.
Proof.
  intros Hlen0 Hinv Hcur Hct. unfold collect_constraint.
  pose proof Hct as (cts & Hcts & Hin).
  pose proof (var_to_constraint_in_range g Hok _ _ _ Hcts Hin) as Hr.
  destruct (at_defined (constraint_to_var_ g) ct Hr) as (ct_vars & -> & Hvars).
  cbn [bind].
  apply (foldM_defined (collect_inv g used0 cur)
           (fun var => 0 <= var < num_vars /\ shares_constraint g cur var));
    [|
     |exact Hinv].
  - intros a x Ha Hx. by apply collect_variable_spec.
  - apply Forall_forall. intros var Hvar.
    split; [by eapply constraint_to_var_in_range|].
    apply (ok_var_to_constraint g Hok) in Hct as (_ & c & Hc & Hcur_in).
    rewrite Z2Nat.id in Hcur_in by done.
    rewrite (ok_constraint_to_var g Hok), list_lookup_fmap, Hc in Hvars.
    injection Hvars as <-.
    exists c. split; [by eapply list_elem_of_lookup_2|done].
Qed.

(** The appending loop stops after some prefix of the shuffled batch. *)
Lemma add_random_variables_spec (target : Z) (rv visited relaxed : list Z) :
  Forall (fun var => 0 <= var < num_vars) rv ->
  exists k,
    add_random_variables g target rv visited relaxed
    = Ok (visited ++ take k rv, relaxed ++ filter (active g) (take k rv)) /\
    size (relaxed ++ filter (active g) (take k rv))
    <= Z.max (size relaxed + 1) target /\
    (size relaxed < target ->
     size (relaxed ++ filter (active g) (take k rv)) <= target).
Proof.
  intros Hall. revert visited relaxed.
  induction Hall as [|var rv Hvar _ IH]; intros visited relaxed.
  - exists 0%nat. cbn. rewrite !app_nil_r. split; [done|]. lia.
  - cbn [add_random_variables]. rewrite (IsActive_Ok g Hok var Hvar).
    cbn [bind].
    set (relaxed1 := if bool_decide (active g var) then relaxed ++ [var]
                     else relaxed).
    assert (E1 : relaxed1 = relaxed ++ filter (active g) [var]).
    { unfold relaxed1. rewrite filter_cons, filter_nil.
      destruct (decide (active g var)).
      - by rewrite bool_decide_eq_true_2.
      - by rewrite bool_decide_eq_false_2, app_nil_r. }
    assert (Hs1 : size relaxed <= size relaxed1 <= size relaxed + 1).
    { unfold relaxed1. destruct (bool_decide _); rewrite ?size_app;
        unfold size; cbn [length]; lia. }
    destruct (size relaxed1 >=? target) eqn:Hge.
    + exists 1%nat. change (take 1 (var :: rv)) with [var]. rewrite <- E1.
      split; [done|]. apply Z.geb_le in Hge. lia.
    + destruct (IH (visited ++ [var]) relaxed1) as (k & -> & Hb1 & Hb2).
      exists (S k). change (take (S k) (var :: rv)) with (var :: take k rv).
      rewrite filter_cons.
      assert (Hlt : size relaxed1 < target).
      { destruct (Z.geb_spec (size relaxed1) target); [discriminate|lia]. }
      assert (E2 : relaxed1 ++ filter (active g) (take k rv)
                   = relaxed ++ (if decide (active g var)
                                 then var :: filter (active g) (take k rv)
                                 else filter (active g) (take k rv))).
      { rewrite E1, filter_cons, filter_nil.
        destruct (decide (active g var)); by rewrite <- app_assoc. }
      rewrite <- E2, <- app_assoc. cbn [app].
      split; [done|]. specialize (Hb2 Hlt). lia.
Qed.

Lemma walk_inv_visited_size (first : Z) (st : variable_walk_state) :
  walk_inv g first st -> size (visited_variables st) <= num_vars.
Proof.
  intros (_ & Hnd & _ & Hv & _).
  assert (H : visited_variables st ⊆+ seqZ 0 num_vars).
  { apply NoDup_submseteq; [done|]. intros v Hin. apply elem_of_seqZ.
    apply Hv in Hin. lia. }
  apply submseteq_length in H. rewrite length_seqZ in H. unfold size in *. lia.
Qed.

Lemma variable_walk_spec (first target : Z) (fuel : nat) (i : Z)
    (st : variable_walk_state) :
  walk_inv g first st ->
  0 <= i <= size (visited_variables st) ->
  num_vars + 1 <= Z.of_nat fuel + i ->
  (i = 0 /\ size (relaxed_variables st) = 1 \/
   size (relaxed_variables st) < target) ->
  exists st',
    variable_walk g fuel target i st = Ok st' /\ walk_inv g first st' /\
    size (relaxed_variables st') <= Z.max 2 target.
Proof.
  revert i st. induction fuel as [|fuel IH]; intros i st Hinv Hi Hfuel Hsz.
  { pose proof (walk_inv_visited_size first st Hinv). lia. }
  cbn [variable_walk].
  destruct (Z.ltb_spec i (size (visited_variables st))) as [Hlt|Hge].
  2:{ exists st. split; [done|]. split; [done|]. lia. }
  pose proof Hinv as (Hlen & Hnd & Hhd & Hvis & Hrel).
  destruct (at_defined (visited_variables st) i) as (cur & -> & Hcur); [lia|].
  cbn [bind].
  destruct (Hvis cur (list_elem_of_lookup_2 _ _ _ Hcur)) as (Hcr & Hcm & Hreach).
  destruct (at_defined (var_to_constraint_ g) cur) as (cts & -> & Hcts).
  { unfold size in *. rewrite (ok_var_to_constraint_length g Hok). lia. }
  cbn [bind].
  destruct (foldM_defined (collect_inv g (used_variables st) cur)
              (fun ct => lists_constraint (var_to_constraint_ g) (Z.to_nat cur) ct)
              (collect_constraint g) cts (used_variables st, [], 0))
    as ([[used rv] act] & -> & Hcol).
  { intros a x Ha Hx. apply collect_constraint_spec; [done|done|lia|done]. }
  { apply Forall_forall. intros ct Hct. by exists cts. }
  { unfold collect_inv. cbn [fst snd]. split; [done|].
    split; [apply NoDup_nil_2|]. split; [by intros v ?%elem_of_nil|].
    split; [|done]. intros v. split; [tauto|]. by intros [|?%elem_of_nil]. }
  cbn [bind]. destruct Hcol as (Hlen' & Hnd' & Hrv & Hmark & _).
  cbn [fst snd] in *.
  set (sh := if act + size (relaxed_variables st) >=? target
             then shuffle rv (random st) else (rv, random st)).
  assert (Hperm : Permutation rv sh.1).
  { unfold sh. destruct (_ >=? _); [apply shuffle_Permutation|done]. }
  destruct sh as [rv' rnd]. cbn [fst] in Hperm.
  destruct (add_random_variables_spec target rv' (visited_variables st)
              (relaxed_variables st)) as (k & -> & Hb1 & Hb2).
  { apply Forall_forall. intros v Hv. rewrite <- Hperm in Hv. by apply Hrv. }
  cbn [bind fst snd relaxed_variables].
  set (st' := {| used_variables := used;
                 visited_variables := visited_variables st ++ take k rv';
                 relaxed_variables := relaxed_variables st
                                      ++ filter (active g) (take k rv');
                 random := rnd |}).
  assert (Hinv' : walk_inv g first st').
  { unfold walk_inv, st'. cbn [used_variables visited_variables relaxed_variables].
    assert (Htake : forall v, v ∈ take k rv' -> v ∈ rv).
    { intros v Hv. rewrite Hperm. by apply (subseteq_take k rv'). }
    split; [lia|]. split; [|split; [|split]].
    - apply NoDup_app. split; [done|]. split.
      + intros v Hv Hv'. apply Htake, Hrv in Hv' as (_ & Hnm & _).
        by apply Hnm, Hvis.
      + apply (sublist_NoDup (take k rv') rv'); [|apply sublist_take].
        by rewrite <- Hperm.
    - destruct (visited_variables st); [discriminate|done].
    - intros v [Hv|Hv]%elem_of_app.
      + destruct (Hvis v Hv) as (? & ? & ?). split; [done|].
        split; [|done]. apply Hmark. by left.
      + apply Htake in Hv. destruct (Hrv v Hv) as (? & _ & Hsh).
        split; [done|]. split; [apply Hmark; by right|].
        eapply rtc_r; eauto.
    - by rewrite filter_app, Hrel. }
  destruct (Z.geb_spec (size (relaxed_variables st ++ filter (active g) (take k rv')))
              target) as [Hbreak|Hcont].
  - exists st'. split; [done|]. split; [done|].
    unfold st'. cbn [relaxed_variables]. lia.
  - apply (IH (i + 1) st'); [done| | |].
    + unfold st'. cbn [visited_variables]. rewrite size_app. unfold size in *. lia.
    + lia.
    + right. unfold st'. cbn [relaxed_variables]. lia.
Qed.

(** The walk returns, and what it returns. *)
Lemma VariableGraph_walk_spec (seed target : Z) :
  1 <= num_active_vars g ->
  exists st first,
    VariableGraph_walk g seed target = Ok st /\
    first ∈ active_pool g /\
    walk_inv g first st /\
    first ∈ relaxed_variables st /\
    size (relaxed_variables st) <= Z.max 2 target.
Proof.
  intros Hact. unfold VariableGraph_walk, uniform_int_distribution.
  rewrite (proj2 (Z.leb_le 0 (num_active_vars g - 1))) by lia. cbn [bind].
  pose proof (uniform_int_range 0 (num_active_vars g - 1) (seed_engine seed)
                ltac:(lia)) as Hr.
  destruct (uniform_int 0 (num_active_vars g - 1) (seed_engine seed)) as [r rnd].
  cbn [fst] in Hr.
  assert (Hfirst : exists first,
             (if focus_on_decision_variables_ g
              then at_ (decision_variables_ g) r else Ok r) = Ok first /\
             first ∈ active_pool g).
  { unfold active_pool, num_active_vars in *.
    destruct (focus_on_decision_variables_ g).
    - destruct (at_defined (decision_variables_ g) r) as (first & -> & Hf);
        [lia|].
      exists first. split; [done|]. by eapply list_elem_of_lookup_2.
    - exists r. split; [done|]. apply elem_of_seqZ. lia. }
  destruct Hfirst as (first & -> & Hpool). cbn [bind].
  pose proof Hpool as [Hrange Hactive]%(elem_of_active_pool g Hok).
  unfold num_model_vars.
  rewrite set_at_defined
    by (rewrite size_replicate; unfold size in *; lia).
  cbn [bind].
  edestruct (variable_walk_spec first target
               (S (Z.to_nat num_vars)) 0) as (st & E & Hinv & Hsz);
    [| | | |exists st, first; split; [exact E|]].
  - unfold walk_inv. cbn [used_variables visited_variables relaxed_variables].
    split.
    { rewrite length_insert, length_replicate. unfold size. lia. }
    split; [apply NoDup_singleton|]. split; [done|]. split.
    + intros v Hv%list_elem_of_singleton. subst v.
      split; [done|]. split; [|done].
      split; [lia|]. apply list_lookup_insert_eq.
      rewrite length_replicate. unfold size in *. lia.
    + rewrite filter_cons, filter_nil. by rewrite decide_True.
  - cbn [visited_variables]. unfold size. cbn. lia.
  - unfold size in *. lia.
  - left. cbn [relaxed_variables]. done.
  - split; [done|]. split; [done|]. split; [|done].
    destruct Hinv as (_ & _ & Hhd & _ & ->).
    apply list_elem_of_filter. split; [done|].
    destruct (visited_variables st) as [|x l]; [discriminate|].
    injection Hhd as ->. apply list_elem_of_here.
Qed.

End VariableWalk.

(** ** The walk of the constraint-graph generator *)

Section ConstraintWalk.
Context `{CM : ConstraintModel} `{RE : RandomEngine}
        {REL : RandomEngineLaws RE}.
Variable g : NeighborhoodGenerator.
Hypothesis Hok : generator_ok g.

Local Abbreviation num_vars := (size (variables (model_proto_ g))).

Lemma uses_in_range (ct v : Z) :
  uses g ct v -> 0 <= v < num_vars /\ 0 <= ct < size (constraint_to_var_ g).
Proof.
  intros (Hct & c & Hc & Hv). split.
  - pose proof (ok_used_in_range g Hok) as Hall.
    rewrite Forall_forall in Hall.
    specialize (Hall c (list_elem_of_lookup_2 _ _ _ Hc)).
    rewrite Forall_forall in Hall. by apply Hall.
  - apply lookup_lt_Some in Hc. unfold size.
    rewrite (constraint_to_var_length g Hok). lia.
Qed.

Lemma unmarked_insert (l : list bool) (i : nat) :
  l !! i = Some false -> S (unmarked (<[i := true]> l)) = unmarked l.
Proof.
  unfold unmarked. revert i. induction l as [|b l IH]; intros i Hi.
  - by rewrite lookup_nil in Hi.
  - destruct i as [|i]; cbn in Hi.
    + injection Hi as ->.
      change (<[0%nat:=true]> (false :: l)) with (true :: l).
      rewrite !filter_cons.
      rewrite decide_False by done. by rewrite decide_True by done.
    + change (<[S i:=true]> (b :: l)) with (b :: <[i:=true]> l).
      rewrite !filter_cons. specialize (IH i Hi).
      destruct (decide (b = false)); cbn [length]; lia.
Qed.

Lemma unmarked_replicate (n : nat) : unmarked (replicate n false) = n.
Proof.
  unfold unmarked. induction n as [|n IH]; [done|].
  cbn [replicate]. rewrite filter_cons, decide_True by done. cbn. by rewrite IH.
Qed.

Section Walk.
Variable start : Z.

Lemma enqueue_constraint_spec (k : nat) (q : list bool * list Z) (ct : Z) :
  queue_inv g start k q ->
  0 <= ct < size (constraint_to_var_ g) /\ rtc (shares_variable g) start ct ->
  exists q', enqueue_constraint q ct = Ok q' /\ queue_inv g start k q'.
Proof.
  destruct q as [added next]. intros (Hlen & Hpot & Hnext) [Hct Hreach].
  cbn [fst snd] in *. unfold enqueue_constraint.
  destruct (at_defined added ct) as (a & -> & Ha); [unfold size in *; lia|].
  cbn [bind]. destruct a.
  - eexists. split; [reflexivity|]. by split.
  - rewrite set_at_defined by (unfold size in *; lia). cbn [bind].
    eexists. split; [reflexivity|]. unfold queue_inv. cbn [fst snd].
    split; [by rewrite length_insert|]. split.
    + unfold potential in *. rewrite length_app. cbn [length].
      pose proof (unmarked_insert added (Z.to_nat ct) Ha). lia.
    + intros ct' [Hin|Hin%list_elem_of_singleton]%elem_of_app; [by apply Hnext|].
      by subst ct'.
Qed.

Lemma visit_variables_spec (target cidx : Z) (rv : list Z)
    (st : constraint_walk_state) :
  cwalk_inv g start st -> rtc (shares_variable g) start cidx ->
  Forall (uses g cidx) rv ->
  num_relaxed_variables st < target ->
  exists st',
    visit_variables g target rv st = Ok st' /\ cwalk_inv g start st' /\
    num_relaxed_variables st' <= target /\
    state_potential st' = state_potential st.
Proof.
  intros Hinv Hreach Hall. revert st Hinv.
  induction Hall as [|var rv Hvar _ IH]; intros st Hinv Hnum.
  { exists st. split; [done|]. split; [done|]. split; [lia|done]. }
  cbn [visit_variables].
  pose proof Hinv as (Hlen & (k & Hq) & Hvis & vis & Hnd & Hmark & Hcount).
  destruct (uses_in_range cidx var Hvar) as [Hvr _].
  destruct (at_defined (visited st) var) as (seen & -> & Hseen);
    [unfold size in *; lia|].
  cbn [bind]. destruct seen; [by apply IH|].
  rewrite set_at_defined by (unfold size in *; lia).
  rewrite (IsActive_Ok g Hok var Hvr). cbn [bind].
  set (n := if bool_decide (active g var) then num_relaxed_variables st + 1
            else num_relaxed_variables st).
  assert (Hnm : ~ marked (visited st) var) by (intros [_ H]; congruence).
  assert (Hvisited' :
    length (<[Z.to_nat var := true]> (visited st))
    = length (variables (model_proto_ g)) /\
    (forall v, marked (<[Z.to_nat var := true]> (visited st)) v ->
               exists ct, rtc (shares_variable g) start ct /\ uses g ct v) /\
    exists vis', NoDup vis' /\
      (forall v, marked (<[Z.to_nat var := true]> (visited st)) v <-> v ∈ vis') /\
      n = size (filter (active g) vis')).
  { assert (Hm' : forall v, marked (<[Z.to_nat var := true]> (visited st)) v
                            <-> marked (visited st) v \/ v = var).
    { intros v. unfold marked. destruct (decide (v = var)) as [->|Hne].
      - rewrite list_lookup_insert_eq by (unfold size in *; lia).
        split; [tauto|]. intros _. split; [lia|done].
      - destruct (decide (0 <= v)); [|split; [lia|intros [[]|]; [lia|done]]].
        rewrite list_lookup_insert_ne by lia. tauto. }
    split; [by rewrite length_insert|]. split.
    - intros v [Hv| ->]%Hm'; [by apply Hvis|]. by exists cidx.
    - exists (vis ++ [var]). split; [|split].
      + apply NoDup_app. split; [done|]. split; [|apply NoDup_singleton].
        intros x Hx Hx'%list_elem_of_singleton. subst x. by apply Hnm, Hmark.
      + intros v. rewrite Hm', elem_of_app, list_elem_of_singleton, Hmark. done.
      + unfold n. rewrite filter_app, size_app, <- Hcount, filter_cons, filter_nil.
        destruct (decide (active g var)).
        * by rewrite bool_decide_eq_true_2.
        * rewrite bool_decide_eq_false_2 by done. unfold size. cbn. lia. }
  assert (Hn : n <= num_relaxed_variables st + 1)
    by (unfold n; destruct (bool_decide _); lia).
  destruct (Z.eqb_spec n target) as [Heq|Hne].
  - eexists. split; [reflexivity|]. split; [|split; [cbn; lia|done]].
    unfold cwalk_inv. cbn [visited added_constraints next_constraints
                             num_relaxed_variables].
    destruct Hvisited' as (? & ? & ?). eauto.
  - destruct (at_defined (var_to_constraint_ g) var) as (cts & -> & Hcts).
    { unfold size in *. rewrite (ok_var_to_constraint_length g Hok). lia. }
    cbn [bind].
    destruct (foldM_defined (queue_inv g start k)
                (fun ct => 0 <= ct < size (constraint_to_var_ g) /\
                           rtc (shares_variable g) start ct)
                enqueue_constraint cts
                (added_constraints st, next_constraints st))
      as ([added' next'] & -> & Hq').
    { intros a x Ha Hx. by apply enqueue_constraint_spec. }
    { apply Forall_forall. intros ct Hct.
      assert (Huse : uses g ct var).
      { assert (H : lists_constraint (var_to_constraint_ g) (Z.to_nat var) ct)
          by (by exists cts).
        apply (ok_var_to_constraint g Hok) in H.
        rewrite Z2Nat.id in H by lia. exact H. }
      split; [by apply (uses_in_range ct var)|].
      eapply rtc_r; [exact Hreach|]. by exists var. }
    { done. }
    cbn [bind fst snd].
    edestruct IH as (st' & E & Hinv' & Hnum' & Hpot');
      [| |exists st'; split; [exact E|split; [exact Hinv'|split; [exact Hnum'|]]]].
    + unfold cwalk_inv. cbn [visited added_constraints next_constraints
                               num_relaxed_variables].
      destruct Hvisited' as (? & ? & ?). eauto.
    + cbn [num_relaxed_variables]. lia.
    + rewrite Hpot'. unfold state_potential.
      cbn [added_constraints next_constraints].
      destruct Hq as (_ & Hk & _), Hq' as (_ & Hk' & _). cbn [fst snd] in *.
      lia.
Qed.

Lemma swap_remove_spec (next : list Z) (i : Z) :
  0 <= i < size next ->
  exists x next',
    swap_remove next i = Ok (x, next') /\ x ∈ next /\
    S (length next') = length next /\
    forall y, y ∈ next' -> y ∈ next.
Proof.
  intros Hi. unfold swap_remove.
  destruct (at_defined next i Hi) as (x & -> & Hx). cbn [bind].
  destruct (at_defined next (size next - 1)) as (b & -> & Hb); [lia|].
  cbn [bind]. rewrite set_at_defined by done. cbn [bind].
  rewrite set_at_defined by (rewrite size_insert; lia). cbn [bind].
  exists x. eexists. split; [reflexivity|].
  split; [by eapply list_elem_of_lookup_2|].
  rewrite removelast_firstn_len, !length_insert.
  change firstn with (@take Z).
  rewrite take_insert_ge by (unfold size; lia).
  split.
  - rewrite length_take, length_insert. unfold size in *. lia.
  - intros y [j [Hj _]]%elem_of_take.
    destruct (decide (j = Z.to_nat i)) as [->|Hne].
    + rewrite list_lookup_insert_eq in Hj by (by apply in_range_lt).
      injection Hj as <-. by eapply list_elem_of_lookup_2.
    + rewrite list_lookup_insert_ne in Hj by done.
      by eapply list_elem_of_lookup_2.
Qed.

Lemma constraint_walk_spec (target : Z) (fuel : nat)
    (st : constraint_walk_state) (rnd : random_engine_t) :
  cwalk_inv g start st -> (state_potential st < fuel)%nat ->
  num_relaxed_variables st <= Z.max 0 target ->
  exists st',
    constraint_walk g fuel target st rnd = Ok st' /\ cwalk_inv g start st' /\
    num_relaxed_variables st' <= Z.max 0 target.
Proof.
  revert st rnd. induction fuel as [|fuel IH]; intros st rnd Hinv Hfuel Hnum;
    [lia|].
  cbn [constraint_walk].
  destruct (Z.ltb_spec (num_relaxed_variables st) target) as [Hlt|Hge];
    [|by exists st].
  destruct (decide (next_constraints st = [])) as [Hnil|Hnn].
  { rewrite bool_decide_eq_true_2 by done. by exists st. }
  rewrite bool_decide_eq_false_2 by done.
  assert (Hsz : 1 <= size (next_constraints st)).
  { unfold size. destruct (next_constraints st); [done|cbn; lia]. }
  unfold uniform_int_distribution.
  rewrite (proj2 (Z.leb_le 0 (size (next_constraints st) - 1))) by lia.
  cbn [bind].
  pose proof (uniform_int_range 0 (size (next_constraints st) - 1) rnd
                ltac:(lia)) as Hr.
  destruct (uniform_int 0 (size (next_constraints st) - 1) rnd) as [i rnd1].
  cbn [fst] in Hr.
  destruct (swap_remove_spec (next_constraints st) i)
    as (cidx & next' & -> & Hin & Hlen' & Hsub); [lia|].
  cbn [bind].
  pose proof Hinv as (Hlen & (k & Hql & Hqp & Hqn) & Hvis & Hghost).
  cbn [fst snd] in *.
  destruct (Hqn cidx Hin) as [Hcr Hreach].
  rewrite (proj2 (in_range_true (constraint_to_var_ g) cidx)) by done.
  cbn [check bind].
  destruct (at_defined (constraint_to_var_ g) cidx Hcr) as (rv0 & -> & Hrv0).
  cbn [bind].
  pose proof (shuffle_Permutation rv0 rnd1) as Hperm.
  destruct (shuffle rv0 rnd1) as [rv rnd2]. cbn [fst] in Hperm.
  set (st1 := {| visited := visited st;
                 added_constraints := added_constraints st;
                 next_constraints := next';
                 num_relaxed_variables := num_relaxed_variables st |}).
  destruct (visit_variables_spec target cidx rv st1)
    as (st2 & -> & Hinv2 & Hnum2 & Hpot2).
  - unfold cwalk_inv, st1. cbn [visited added_constraints next_constraints
                                  num_relaxed_variables].
    split; [done|]. split; [|by split].
    exists (potential (added_constraints st) next'). split; [done|].
    split; [done|]. cbn [snd]. intros ct Hct. by apply Hqn, Hsub.
  - done.
  - apply Forall_forall. intros v Hv. rewrite <- Hperm in Hv.
    rewrite (ok_constraint_to_var g Hok), list_lookup_fmap in Hrv0.
    destruct (constraints (model_proto_ g) !! Z.to_nat cidx) as [c|] eqn:Hc;
      [|discriminate].
    injection Hrv0 as <-. split; [lia|]. by exists c.
  - done.
  - cbn [bind]. apply IH; [done| |lia].
    rewrite Hpot2. unfold state_potential, st1, potential in *.
    cbn [added_constraints next_constraints]. lia.
Qed.

End Walk.

(** With at least one constraint the walk returns. *)
Lemma ConstraintGraph_walk_spec (seed target : Z) :
  constraints (model_proto_ g) <> [] ->
  exists st start,
    ConstraintGraph_walk g seed target = Ok st /\
    0 <= start < size (constraint_to_var_ g) /\
    cwalk_inv g start st /\
    num_relaxed_variables st <= Z.max 0 target.
Proof.
  intros Hne. unfold ConstraintGraph_walk, uniform_int_distribution.
  assert (Hm : 1 <= size (constraint_to_var_ g)).
  { unfold size. rewrite (constraint_to_var_length g Hok).
    destruct (constraints (model_proto_ g)); [done|cbn; lia]. }
  rewrite (proj2 (Z.leb_le 0 (size (constraint_to_var_ g) - 1))) by lia.
  cbn [bind].
  pose proof (uniform_int_range 0 (size (constraint_to_var_ g) - 1)
                (seed_engine seed) ltac:(lia)) as Hr.
  destruct (uniform_int 0 (size (constraint_to_var_ g) - 1) (seed_engine seed))
    as [start rnd].
  cbn [fst] in Hr.
  rewrite set_at_defined by (rewrite size_replicate; unfold size in *; lia).
  cbn [bind].
  edestruct (constraint_walk_spec start target
               (S (length (constraint_to_var_ g)))) as (st & E & Hinv & Hnum);
    [| | |exists st, start; split; [exact E|split; [lia|by split]]].
  - unfold cwalk_inv. cbn [visited added_constraints next_constraints
                             num_relaxed_variables].
    split; [|split; [|split]].
    + rewrite length_replicate. unfold num_model_vars, size. lia.
    + eexists. split; [|split; [reflexivity|]]; cbn [fst snd].
      * by rewrite length_insert, length_replicate.
      * intros ct Hct%list_elem_of_singleton. subst ct. split; [lia|done].
    + intros v [_ Hv]. by apply lookup_replicate in Hv as [? _].
    + exists []. split; [apply NoDup_nil_2|]. split; [|done].
      intros v. split; [|by intros ?%elem_of_nil].
      intros [_ Hv]. by apply lookup_replicate in Hv as [? _].
  - unfold state_potential, potential.
    cbn [added_constraints next_constraints length].
    pose proof (unmarked_insert (replicate (length (constraint_to_var_ g)) false)
                  (Z.to_nat start)) as Hu.
    rewrite unmarked_replicate in Hu.
    specialize (Hu ltac:(apply lookup_replicate_2; unfold size in *; lia)).
    lia.
  - cbn [num_relaxed_variables]. lia.
Qed.

(** Without constraints the start constraint cannot be drawn. *)
Lemma ConstraintGraph_walk_no_constraint (seed target : Z) :
  constraints (model_proto_ g) = [] ->
  ConstraintGraph_walk g seed target = Fail UndefinedBehavior.
Proof.
  intros Hnil. unfold ConstraintGraph_walk, uniform_int_distribution.
  assert (Hm : size (constraint_to_var_ g) = 0).
  { unfold size. by rewrite (constraint_to_var_length g Hok), Hnil. }
  by rewrite Hm.
Qed.

End ConstraintWalk.

(** ** A walk that stops short has exhausted its component *)

Lemma marked_insert (mask : list bool) (var v : Z) :
  0 <= var < size mask ->
  marked (<[Z.to_nat var := true]> mask) v <-> marked mask v \/ v = var.
Proof.
  intros Hvar. unfold marked. destruct (decide (v = var)) as [->|Hne].
  - rewrite list_lookup_insert_eq by (unfold size in *; lia).
    split; [tauto|]. intros _. split; [lia|done].
  - destruct (decide (0 <= v)); [|split; [lia|intros [[]|]; [lia|done]]].
    rewrite list_lookup_insert_ne by lia. tauto.
Qed.

Section VariableWalkComplete.
Context `{CM : ConstraintModel} `{RE : RandomEngine}
        {REL : RandomEngineLaws RE}.
Variable g : NeighborhoodGenerator.
Hypothesis Hok : generator_ok g.

Local Abbreviation num_vars := (size (variables (model_proto_ g))).

Lemma collect_variable_marks (st st' : list bool * list Z * Z) (var : Z) :
  collect_variable g st var = Ok st' ->
  marked st'.1.1 var /\ forall v, marked st.1.1 v -> marked st'.1.1 v.
Proof.
  destruct st as [[used rv] act]. unfold collect_variable. intros H.
  inv_bind H as u [Hvar Hu]%at_Ok. destruct u.
  - injection H as <-. cbn [fst]. split; [by split; [lia|]|done].
  - inv_bind H as used' [_ ->]%set_at_Ok. inv_bind H as a Ha.
    injection H as <-. cbn [fst].
    split; [apply marked_insert; [done|by right]|].
    intros v Hv. apply marked_insert; [done|by left].
Qed.

Lemma collect_variables_mark (vars : list Z) (st st' : list bool * list Z * Z) :
  foldM (collect_variable g) vars st = Ok st' ->
  (forall v, v ∈ vars -> marked st'.1.1 v) /\
  (forall v, marked st.1.1 v -> marked st'.1.1 v).
Proof.
  revert st. induction vars as [|var vars IH]; intros st H.
  - injection H as <-. split; [by intros v ?%elem_of_nil|done].
  - cbn [foldM] in H. inv_bind H as st1 Hst1.
    destruct (collect_variable_marks _ _ _ Hst1) as [Hvar Hmono1].
    destruct (IH st1 H) as [Hall Hmono].
    split; [|by eauto].
    intros v [->|Hv]%elem_of_cons; [by apply Hmono|by apply Hall].
Qed.

Lemma collect_constraints_mark (cts : list Z)
    (st st' : list bool * list Z * Z) :
  foldM (collect_constraint g) cts st = Ok st' ->
  (forall ct ct_vars v,
     ct ∈ cts -> constraint_to_var_ g !! Z.to_nat ct = Some ct_vars ->
     v ∈ ct_vars -> marked st'.1.1 v) /\
  (forall v, marked st.1.1 v -> marked st'.1.1 v).
Proof.
  revert st. induction cts as [|ct cts IH]; intros st H.
  - injection H as <-. split; [by intros ct ct_vars v ?%elem_of_nil|done].
  - cbn [foldM] in H. inv_bind H as st1 Hst1.
    unfold collect_constraint in Hst1.
    inv_bind Hst1 as ct_vars [_ Hvars]%at_Ok.
    destruct (collect_variables_mark _ _ _ Hst1) as [Hall1 Hmono1].
    destruct (IH st1 H) as [Hall Hmono].
    split; [|by eauto].
    intros ct' ct_vars' v [->|Hct]%elem_of_cons Hl Hv; [|by eauto].
    apply Hmono, Hall1. by simplify_eq.
Qed.

(** Every variable that shares a constraint with [cur] is marked once the
    constraints of [cur] have been collected. *)
Lemma collect_neighbours (cur : Z) (cts : list Z)
    (st st' : list bool * list Z * Z) (v : Z) :
  0 <= cur -> var_to_constraint_ g !! Z.to_nat cur = Some cts ->
  foldM (collect_constraint g) cts st = Ok st' ->
  shares_constraint g cur v -> marked st'.1.1 v.
Proof.
  intros Hcur Hcts H (c & Hc & Hcur_in & Hv).
  apply list_elem_of_lookup_1 in Hc as [idx Hc].
  destruct (collect_constraints_mark _ _ _ H) as [Hall _].
  apply (Hall (Z.of_nat idx) (UsedVariables c) v); [|
    by rewrite (ok_constraint_to_var g Hok), list_lookup_fmap, Nat2Z.id, Hc|done].
  assert (lists_constraint (var_to_constraint_ g) (Z.to_nat cur) (Z.of_nat idx))
    as (cts' & Hcts' & Hin).
  { apply (ok_var_to_constraint g Hok). split; [lia|]. exists c.
    rewrite Nat2Z.id, Z2Nat.id by lia. done. }
  by simplify_eq.
Qed.

(** The appending loop that does not reach the target appends the whole
    batch. *)
Lemma add_random_variables_all (target : Z) (rv visited relaxed : list Z)
    (visited' relaxed' : list Z) :
  add_random_variables g target rv visited relaxed = Ok (visited', relaxed') ->
  size relaxed' < target -> visited' = visited ++ rv.
Proof.
  revert visited relaxed. induction rv as [|var rv IH]; intros visited relaxed H Hlt.
  - injection H as <- <-. by rewrite app_nil_r.
  - cbn [add_random_variables] in H. inv_bind H as a Ha.
    destruct (size _ >=? target) eqn:Hge.
    + injection H as <- <-. apply Z.geb_le in Hge. lia.
    + rewrite (IH _ _ H Hlt), <- app_assoc. done.
Qed.

Lemma variable_walk_complete (first target : Z) (fuel : nat) (i : Z)
    (st st_end : variable_walk_state) :
  walk_inv g first st -> walk_closed g i st ->
  0 <= i <= size (visited_variables st) ->
  variable_walk g fuel target i st = Ok st_end ->
  size (relaxed_variables st_end) < target ->
  walk_closed g (size (visited_variables st_end)) st_end.
Proof.
  revert i st. induction fuel as [|fuel IH];
    intros i st Hinv Hclosed Hi H Hshort; [discriminate|].
  cbn [variable_walk] in H.
  destruct (Z.ltb_spec i (size (visited_variables st))) as [Hlt|Hge].
  2:{ injection H as <-. by replace (size (visited_variables st)) with i by lia. }
  pose proof Hinv as (Hlen & Hnd & Hhd & Hvis & Hrel).
  inv_bind H as cur [_ Hcur]%at_Ok.
  destruct (Hvis cur (list_elem_of_lookup_2 _ _ _ Hcur)) as (Hcr & Hcm & Hreach).
  inv_bind H as cts [_ Hcts]%at_Ok.
  inv_bind H as col Hfold.
  destruct (foldM_defined (collect_inv g (used_variables st) cur)
              (fun ct => lists_constraint (var_to_constraint_ g) (Z.to_nat cur) ct)
              (collect_constraint g) cts (used_variables st, [], 0))
    as (col' & Hfold' & Hcol).
  { intros a x Ha Hx.
    apply (collect_constraint_spec g Hok); [done|done|lia|done]. }
  { apply Forall_forall. intros ct Hct. by exists cts. }
  { unfold collect_inv. cbn [fst snd]. split; [done|].
    split; [apply NoDup_nil_2|]. split; [by intros v ?%elem_of_nil|].
    split; [|done]. intros v. split; [tauto|]. by intros [|?%elem_of_nil]. }
  assert (col' = col) as -> by congruence. clear Hfold'.
  pose proof (fun v => collect_neighbours cur cts _ _ v ltac:(lia) Hcts Hfold)
    as Hneigh.
  destruct col as [[used rv] act].
  destruct Hcol as (Hlen' & Hnd' & Hrv & Hmark & _). cbn [fst snd] in *.
  set (sh := if act + size (relaxed_variables st) >=? target
             then shuffle rv (random st) else (rv, random st)) in H.
  assert (Hperm : Permutation rv sh.1).
  { unfold sh. destruct (_ >=? _); [apply shuffle_Permutation|done]. }
  destruct sh as [rv' rnd]. cbn [fst] in Hperm.
  inv_bind H as added Hadd. destruct added as [visited' relaxed'].
  cbn [fst snd] in H.
  destruct (add_random_variables_spec g Hok target rv' (visited_variables st)
              (relaxed_variables st)) as (k & Hadd' & _).
  { apply Forall_forall. intros v Hv. rewrite <- Hperm in Hv. by apply Hrv. }
  rewrite Hadd in Hadd'. injection Hadd' as -> ->.
  set (st' := {| used_variables := used;
                 visited_variables := visited_variables st ++ take k rv';
                 relaxed_variables := relaxed_variables st
                                      ++ filter (active g) (take k rv');
                 random := rnd |}) in *.
  cbn [relaxed_variables] in H.
  destruct (Z.geb_spec (size (relaxed_variables st')) target) as [Hbreak|Hcont].
  { injection H as <-. lia. }
  unfold st' in Hcont. cbn [relaxed_variables] in Hcont.
  pose proof (add_random_variables_all _ _ _ _ _ _ Hadd Hcont) as Hall.
  apply app_inv_head in Hall.
  assert (Htake : forall v, v ∈ take k rv' <-> v ∈ rv).
  { intros v. by rewrite Hall, Hperm. }
  assert (Hinv' : walk_inv g first st').
  { unfold walk_inv, st'. cbn [used_variables visited_variables relaxed_variables].
    split; [lia|]. split; [|split; [|split]].
    - apply NoDup_app. split; [done|]. split.
      + intros v Hv Hv'. apply Htake, Hrv in Hv' as (_ & Hnm & _).
        by apply Hnm, Hvis.
      + rewrite Hall. by rewrite <- Hperm.
    - destruct (visited_variables st); [discriminate|done].
    - intros v [Hv|Hv]%elem_of_app.
      + destruct (Hvis v Hv) as (? & ? & ?). split; [done|].
        split; [|done]. apply Hmark. by left.
      + apply Htake in Hv. destruct (Hrv v Hv) as (? & _ & Hsh).
        split; [done|]. split; [apply Hmark; by right|].
        eapply rtc_r; eauto.
    - by rewrite filter_app, Hrel. }
  apply (IH (i + 1) st'); [done| | |done|done].
  - destruct Hclosed as [Hused Hnb]. unfold walk_closed, st'.
    cbn [used_variables visited_variables].
    assert (Hused' : forall v, marked used v ->
                       v ∈ visited_variables st ++ take k rv').
    { intros v [Hv|Hv]%Hmark; apply elem_of_app; [left; by apply Hused|].
      right. by apply Htake. }
    split; [exact Hused'|].
    intros j u v Hj Hu Hshare.
    destruct (decide (Z.of_nat j < i)) as [Hlt'|Hge'].
    + apply elem_of_app. left. apply (Hnb j u v); [done| |done].
      rewrite lookup_app_l in Hu; [done|]. unfold size in *. lia.
    + assert (j = Z.to_nat i) as -> by lia.
      rewrite lookup_app_l in Hu by (unfold size in *; lia).
      assert (u = cur) as -> by congruence.
      by apply Hused', Hneigh.
  - unfold st'. cbn [visited_variables]. rewrite size_app.
    unfold size in *. lia.
Qed.

(** The variable walk that returns fewer relaxed variables than the target
    has relaxed every active variable that its first variable reaches. *)
Lemma VariableGraph_walk_complete (seed target : Z)
    (st : variable_walk_state) :
  VariableGraph_walk g seed target = Ok st ->
  size (relaxed_variables st) < target ->
  exists first,
    head (relaxed_variables st) = Some first /\
    forall var, var ∈ relaxed_variables st <->
                active g var /\ rtc (shares_constraint g) first var.
Proof.
  intros H Hshort. unfold VariableGraph_walk, uniform_int_distribution in H.
  destruct (Z.leb_spec 0 (num_active_vars g - 1)) as [Hact|]; [|discriminate].
  cbn [bind] in H.
  pose proof (uniform_int_range 0 (num_active_vars g - 1) (seed_engine seed)
                ltac:(lia)) as Hr.
  destruct (uniform_int 0 (num_active_vars g - 1) (seed_engine seed)) as [r rnd].
  cbn [fst] in Hr.
  inv_bind H as first Hfirst.
  assert (Hpool : first ∈ active_pool g).
  { unfold active_pool, num_active_vars in *.
    destruct (focus_on_decision_variables_ g).
    - apply at_Ok in Hfirst as [_ Hf]. by eapply list_elem_of_lookup_2.
    - injection Hfirst as <-. apply elem_of_seqZ. lia. }
  pose proof Hpool as [Hrange Hactive]%(elem_of_active_pool g Hok).
  inv_bind H as used [_ ->]%set_at_Ok.
  set (st0 := {| used_variables :=
                   <[Z.to_nat first := true]>
                     (replicate (Z.to_nat (num_model_vars g)) false);
                 visited_variables := [first];
                 relaxed_variables := [first];
                 random := rnd |}) in H.
  assert (Hinv0 : walk_inv g first st0).
  { unfold walk_inv, st0.
    cbn [used_variables visited_variables relaxed_variables].
    split.
    { rewrite length_insert, length_replicate.
      unfold num_model_vars, size. lia. }
    split; [apply NoDup_singleton|]. split; [done|]. split.
    - intros v Hv%list_elem_of_singleton. subst v.
      split; [done|]. split; [|done].
      split; [lia|]. apply list_lookup_insert_eq.
      rewrite length_replicate. unfold num_model_vars, size in *. lia.
    - rewrite filter_cons, filter_nil. by rewrite decide_True. }
  assert (Hclosed0 : walk_closed g 0 st0).
  { unfold walk_closed, st0. cbn [used_variables visited_variables]. split.
    - intros v Hv. apply marked_insert in Hv.
      + destruct Hv as [[_ Hv]| ->]; [|apply list_elem_of_here].
        by apply lookup_replicate in Hv as [? _].
      + rewrite size_replicate. unfold num_model_vars. lia.
    - intros j u v Hj. lia. }
  destruct (variable_walk_spec g Hok first target
              (S (Z.to_nat (num_model_vars g))) 0 st0 Hinv0)
    as (st' & Hst' & Hinv & _).
  { cbn [visited_variables]. unfold size. cbn. lia. }
  { unfold num_model_vars, size in *. lia. }
  { left. cbn [relaxed_variables]. done. }
  assert (st' = st) as -> by congruence.
  pose proof (variable_walk_complete first target _ 0 st0 st Hinv0 Hclosed0
                ltac:(cbn; unfold size; cbn; lia) H Hshort) as [_ Hnb].
  destruct Hinv as (_ & _ & Hhd & Hvis & Hrel).
  assert (Hfirst_in : first ∈ visited_variables st).
  { destruct (visited_variables st); [discriminate|].
    injection Hhd as ->. apply list_elem_of_here. }
  exists first. split.
  - rewrite Hrel. destruct (visited_variables st) as [|x l]; [discriminate|].
    injection Hhd as ->. rewrite filter_cons. by rewrite decide_True.
  - intros var. rewrite Hrel, list_elem_of_filter. split.
    + intros [Ha Hin]. split; [done|]. by destruct (Hvis var Hin) as (_ & _ & ?).
    + intros [Ha Hreach]. split; [done|].
      clear Ha. revert var Hreach.
      apply (rtc_ind_r (fun z => z ∈ visited_variables st)); [exact Hfirst_in|].
      intros u z _ Hstep IHr.
      apply list_elem_of_lookup_1 in IHr as [j Hj].
      apply (Hnb j u z); [|done|done].
      apply lookup_lt_Some in Hj. unfold size. lia.
Qed.

(** With target size [1] and the focus off, the walk appends the first
    neighbour of its first variable before it compares the size of the
    relaxed list with the target. *)
Lemma VariableGraph_walk_target_one (seed : Z) (st : variable_walk_state) :
  focus_on_decision_variables_ g = false ->
  VariableGraph_walk g seed 1 = Ok st ->
  exists first,
    head (relaxed_variables st) = Some first /\
    ((exists v, v <> first /\ shares_constraint g first v) ->
     exists v, v <> first /\ shares_constraint g first v /\
               relaxed_variables st = [first; v]) /\
    (~ (exists v, v <> first /\ shares_constraint g first v) ->
     relaxed_variables st = [first]).
Proof.
  intros Hfocus H. unfold VariableGraph_walk, uniform_int_distribution in H.
  destruct (Z.leb_spec 0 (num_active_vars g - 1)) as [Hact|]; [|discriminate].
  cbn [bind] in H.
  pose proof (uniform_int_range 0 (num_active_vars g - 1) (seed_engine seed)
                ltac:(lia)) as Hr.
  destruct (uniform_int 0 (num_active_vars g - 1) (seed_engine seed)) as [r rnd].
  cbn [fst] in Hr. rewrite Hfocus in H. cbn [bind] in H.
  unfold num_active_vars in Hr. rewrite Hfocus in Hr.
  inv_bind H as used0 [_ ->]%set_at_Ok.
  set (mask0 := <[Z.to_nat r := true]>
                  (replicate (Z.to_nat (num_model_vars g)) false)) in H.
  assert (Hmask0 : forall v, marked mask0 v <-> v = r).
  { intros v. unfold mask0. rewrite marked_insert
      by (rewrite size_replicate; unfold num_model_vars; lia).
    split; [|by right]. intros [[_ Hv]|?]; [|done].
    by apply lookup_replicate in Hv as [? _]. }
  cbn [variable_walk visited_variables used_variables relaxed_variables random]
    in H.
  change (0 <? size [r]) with true in H. cbn [at_ in_range] in H.
  change (at_ [r] 0) with (Ok r) in H. cbn [bind] in H.
  inv_bind H as cts [_ Hcts]%at_Ok. inv_bind H as col Hfold.
  destruct (foldM_defined (collect_inv g mask0 r)
              (fun ct => lists_constraint (var_to_constraint_ g) (Z.to_nat r) ct)
              (collect_constraint g) cts (mask0, [], 0))
    as (col' & Hfold' & Hcol).
  { intros a x Ha Hx. apply (collect_constraint_spec g Hok); [|done|lia|done].
    unfold mask0. rewrite length_insert, length_replicate.
    unfold num_model_vars, size. lia. }
  { apply Forall_forall. intros ct Hct. by exists cts. }
  { unfold collect_inv. cbn [fst snd]. split; [done|].
    split; [apply NoDup_nil_2|]. split; [by intros v ?%elem_of_nil|].
    split; [|done]. intros v. split; [tauto|]. by intros [|?%elem_of_nil]. }
  assert (col' = col) as -> by congruence. clear Hfold'.
  pose proof (fun v => collect_neighbours r cts _ _ v ltac:(lia) Hcts Hfold)
    as Hneigh.
  destruct col as [[used rv] act].
  destruct Hcol as (_ & _ & Hrv & Hmark & _). cbn [fst snd] in *.
  assert (Hnb : forall v, v ∈ rv <-> v <> r /\ shares_constraint g r v).
  { intros v. split.
    - intros Hv. destruct (Hrv v Hv) as (_ & Hnm & Hsh).
      split; [|done]. intros ->. by apply Hnm, Hmask0.
    - intros [Hne Hsh]. apply Hneigh, Hmark in Hsh as [Hm|Hin]; [|done].
      by apply Hmask0 in Hm. }
  set (sh := if act + size [r] >=? 1 then shuffle rv rnd else (rv, rnd)) in H.
  assert (Hperm : Permutation rv sh.1).
  { unfold sh. destruct (_ >=? _); [apply shuffle_Permutation|done]. }
  destruct sh as [rv' rnd']. cbn [fst] in Hperm.
  exists r. destruct rv' as [|x rest].
  - apply Permutation_nil_r in Hperm. subst rv.
    cbn [add_random_variables bind fst snd relaxed_variables] in H.
    change (size [r] >=? 1) with true in H. injection H as <-.
    cbn [relaxed_variables]. split; [done|]. split; [|done].
    intros (v & Hv). apply Hnb in Hv. by apply elem_of_nil in Hv.
  - cbn [add_random_variables] in H. unfold IsActive in H at 1.
    rewrite Hfocus in H. cbn [negb bind fst snd relaxed_variables] in H.
    change (size ([r] ++ [x]) >=? 1) with true in H.
    cbn [bind fst snd relaxed_variables] in H.
    change (size ([r] ++ [x]) >=? 1) with true in H. injection H as <-.
    cbn [relaxed_variables].
    assert (x <> r /\ shares_constraint g r x) as [Hx1 Hx2].
    { apply Hnb. rewrite Hperm. apply list_elem_of_here. }
    split; [done|]. split; [|intros Hno; destruct Hno; eauto].
    intros _. exists x. done.
Qed.

End VariableWalkComplete.

(** ** A constraint walk that stops short has emptied its queue *)

Section ConstraintWalkComplete.
Context `{CM : ConstraintModel} `{RE : RandomEngine}
        {REL : RandomEngineLaws RE}.
Variable g : NeighborhoodGenerator.
Hypothesis Hok : generator_ok g.

Lemma enqueue_constraint_marks (q q' : list bool * list Z) (ct : Z) :
  enqueue_constraint q ct = Ok q' ->
  marked q'.1 ct /\
  (forall c, marked q.1 c -> marked q'.1 c) /\
  (forall c, marked q'.1 c -> marked q.1 c \/ c ∈ q'.2) /\
  (forall c, c ∈ q.2 -> c ∈ q'.2).
Proof.
  destruct q as [added next]. unfold enqueue_constraint. intros H.
  inv_bind H as a [Hct Ha]%at_Ok. destruct a.
  - injection H as <-. cbn [fst snd].
    split; [by split; [lia|]|]. split; [done|]. split; [by left|done].
  - inv_bind H as added' [_ ->]%set_at_Ok. injection H as <-. cbn [fst snd].
    split; [apply marked_insert; [done|by right]|].
    split; [intros c Hc; apply marked_insert; [done|by left]|].
    split.
    + intros c [Hc| ->]%marked_insert; [by left| |done].
      right. apply elem_of_app. right. apply list_elem_of_here.
    + intros c Hc. apply elem_of_app. by left.
Qed.

Lemma enqueue_constraints_mark (cts : list Z) (q q' : list bool * list Z) :
  foldM enqueue_constraint cts q = Ok q' ->
  (forall c, c ∈ cts -> marked q'.1 c) /\
  (forall c, marked q.1 c -> marked q'.1 c) /\
  (forall c, marked q'.1 c -> marked q.1 c \/ c ∈ q'.2) /\
  (forall c, c ∈ q.2 -> c ∈ q'.2).
Proof.
  revert q. induction cts as [|ct cts IH]; intros q H.
  - injection H as <-. split; [by intros c ?%elem_of_nil|].
    split; [done|]. split; [by left|done].
  - cbn [foldM] in H. inv_bind H as q1 Hq1.
    destruct (enqueue_constraint_marks _ _ _ Hq1) as (Hct & Hmono1 & Hnew1 & Hq).
    destruct (IH q1 H) as (Hall & Hmono & Hnew & Hq2).
    split; [|split; [by eauto|split; [|by eauto]]].
    + intros c [->|Hc]%elem_of_cons; [by apply Hmono|by apply Hall].
    + intros c [Hc|Hc]%Hnew; [|by right].
      apply Hnew1 in Hc as [Hc|Hc]; [by left|]. right. by apply Hq2.
Qed.

(** The entries of the queue are the removed one and the remaining ones. *)
Lemma swap_remove_elements (next next' : list Z) (i x : Z) :
  swap_remove next i = Ok (x, next') ->
  forall y, y ∈ next -> y = x \/ y ∈ next'.
Proof.
  unfold swap_remove. intros H.
  inv_bind H as x' [Hi Hx]%at_Ok.
  inv_bind H as b [Hlast Hb]%at_Ok.
  inv_bind H as next1 [_ ->]%set_at_Ok.
  inv_bind H as next2 [_ ->]%set_at_Ok.
  injection H as <- <-.
  rewrite removelast_firstn_len, !length_insert.
  change firstn with (@take Z).
  rewrite take_insert_ge by (unfold size; lia).
  intros y [j Hj]%list_elem_of_lookup_1.
  destruct (decide (j = Z.to_nat i)) as [->|Hne]; [left; congruence|].
  right. pose proof (lookup_lt_Some _ _ _ Hj) as Hjlt.
  destruct (decide (j = Nat.pred (length next))) as [->|Hnl].
  - assert (y = b) as ->.
    { replace (Z.to_nat (size next - 1)) with (Nat.pred (length next)) in Hb
        by (unfold size; lia). congruence. }
    apply (list_elem_of_lookup_2 _ (Z.to_nat i)).
    rewrite lookup_take_lt by (unfold size in *; lia).
    apply list_lookup_insert_eq. unfold size in *. lia.
  - apply (list_elem_of_lookup_2 _ j).
    rewrite lookup_take_lt by lia.
    by rewrite list_lookup_insert_ne.
Qed.

Lemma visit_variables_closed (target cidx : Z) (rv : list Z)
    (st st' : constraint_walk_state) :
  visit_variables g target rv st = Ok st' ->
  num_relaxed_variables st' < target ->
  queue_closed g (Some cidx) st ->
  queue_closed g (Some cidx) st' /\
  (forall v, v ∈ rv -> marked (visited st') v) /\
  (forall v, marked (visited st) v -> marked (visited st') v) /\
  (forall ct, marked (added_constraints st) ct ->
              marked (added_constraints st') ct).
Proof.
  revert st. induction rv as [|var rv IH]; intros st H Hshort Hclosed.
  { injection H as <-. split; [done|]. split; [by intros v ?%elem_of_nil|done]. }
  cbn [visit_variables] in H.
  inv_bind H as seen [Hvar Hseen]%at_Ok. destruct seen.
  { destruct (IH st H Hshort Hclosed) as (Hc & Hall & Hmono & Hadded).
    split; [done|]. split; [|done].
    intros v [->|Hv]%elem_of_cons; [|by apply Hall].
    apply Hmono. split; [lia|done]. }
  inv_bind H as visited' [_ ->]%set_at_Ok. inv_bind H as a Ha.
  set (n := if a then num_relaxed_variables st + 1
            else num_relaxed_variables st) in H.
  destruct (Z.eqb_spec n target) as [Heq|Hne].
  { injection H as <-. cbn [num_relaxed_variables] in Hshort. lia. }
  inv_bind H as cts [_ Hcts]%at_Ok. inv_bind H as q Hq.
  destruct (enqueue_constraints_mark _ _ _ Hq) as (Hall & Hmono & Hnew & Hnext).
  cbn [fst snd] in Hmono, Hnew, Hnext.
  destruct Hclosed as [HA HB].
  set (st1 := {| visited := <[Z.to_nat var := true]> (visited st);
                 added_constraints := q.1;
                 next_constraints := q.2;
                 num_relaxed_variables := n |}) in H.
  assert (Hvis1 : forall v, marked (visited st) v -> marked (visited st1) v).
  { intros v Hv. unfold st1. cbn [visited]. apply marked_insert; [done|by left]. }
  assert (Hclosed1 : queue_closed g (Some cidx) st1).
  { unfold queue_closed, st1.
    cbn [visited added_constraints next_constraints]. split.
    - intros ct [Hct|Hct]%Hnew; [|by left].
      destruct (HA ct Hct) as [Hin|[Hskip|Hproc]];
        [left; by apply Hnext|by right; left|].
      right. right. intros v Hv. by apply Hvis1, Hproc.
    - intros v ct [Hv| ->]%marked_insert Huse; [by eapply Hmono, HB| |done].
      apply Hall.
      assert (lists_constraint (var_to_constraint_ g) (Z.to_nat var) ct)
        as (cts' & Hcts' & Hin).
      { apply (ok_var_to_constraint g Hok). by rewrite Z2Nat.id by lia. }
      by simplify_eq. }
  destruct (IH st1 H Hshort Hclosed1) as (Hc & Hall' & Hmono' & Hadded').
  split; [done|]. split; [|split].
  - intros v [->|Hv]%elem_of_cons; [|by apply Hall'].
    apply Hmono'. unfold st1. cbn [visited].
    apply marked_insert; [done|by right].
  - intros v Hv. by apply Hmono', Hvis1.
  - intros ct Hct. by apply Hadded', Hmono.
Qed.

Lemma constraint_walk_at_target (fuel : nat) (target : Z)
    (st st' : constraint_walk_state) (rnd : random_engine_t) :
  constraint_walk g fuel target st rnd = Ok st' ->
  ~ num_relaxed_variables st < target -> st' = st.
Proof.
  destruct fuel as [|fuel]; [discriminate|]. cbn [constraint_walk].
  intros H Hge.
  destruct (Z.ltb_spec (num_relaxed_variables st) target); [lia|].
  by injection H.
Qed.

Lemma constraint_walk_complete (target : Z) (fuel : nat)
    (st st' : constraint_walk_state) (rnd : random_engine_t) :
  constraint_walk g fuel target st rnd = Ok st' ->
  num_relaxed_variables st' < target ->
  queue_closed g None st ->
  queue_closed g None st' /\ next_constraints st' = [] /\
  (forall ct, marked (added_constraints st) ct ->
              marked (added_constraints st') ct).
Proof.
  revert st rnd. induction fuel as [|fuel IH];
    intros st rnd H Hshort Hclosed; [discriminate|].
  cbn [constraint_walk] in H.
  destruct (Z.ltb_spec (num_relaxed_variables st) target) as [Hlt|Hge].
  2:{ injection H as <-. lia. }
  destruct (decide (next_constraints st = [])) as [Hnil|Hnn].
  { rewrite bool_decide_eq_true_2 in H by done. by injection H as <-. }
  rewrite bool_decide_eq_false_2 in H by done.
  inv_bind H as draw Hdraw. destruct draw as [i rnd1].
  inv_bind H as picked Hpick. destruct picked as [cidx next1].
  inv_bind H as u Hcheck. inv_bind H as rv0 [Hcr Hrv0]%at_Ok.
  pose proof (shuffle_Permutation rv0 rnd1) as Hperm.
  destruct (shuffle rv0 rnd1) as [rv rnd2]. cbn [fst] in Hperm.
  inv_bind H as st2 Hvisit.
  destruct (decide (num_relaxed_variables st2 < target)) as [Hlt2|Hge2].
  2:{ apply constraint_walk_at_target in H; [|done]. subst st'. lia. }
  destruct Hclosed as [HA HB].
  destruct (visit_variables_closed target cidx rv _ st2 Hvisit Hlt2)
    as ([HA2 HB2] & Hall & Hmono & Hadded).
  { unfold queue_closed.
    cbn [visited added_constraints next_constraints]. split; [|done].
    intros ct Hct. destruct (HA ct Hct) as [Hin|[Hskip|Hproc]];
      [|done|by right; right].
    destruct (swap_remove_elements _ _ _ _ Hpick ct Hin) as [->|Hin'];
      [by right; left|by left]. }
  cbn [added_constraints] in Hadded.
  destruct (IH st2 rnd2 H Hshort) as (Hc & Hnext & Hadded').
  { split; [|done]. intros ct Hct.
    destruct (HA2 ct Hct) as [Hin|[Hskip|Hproc]]; [by left| |by right; right].
    injection Hskip as ->. right. right.
    intros v (_ & c & Hc & Hv). apply Hall. rewrite <- Hperm.
    rewrite (ok_constraint_to_var g Hok), list_lookup_fmap, Hc in Hrv0.
    by injection Hrv0 as <-. }
  split; [done|]. split; [done|]. intros ct Hct. by apply Hadded', Hadded.
Qed.

(** The constraint walk that counts fewer active variables than the target
    has visited the variables of every constraint that its first constraint
    reaches, and no other variable. *)
Lemma ConstraintGraph_walk_complete (seed target : Z)
    (st : constraint_walk_state) :
  ConstraintGraph_walk g seed target = Ok st ->
  num_relaxed_variables st < target ->
  exists start,
    0 <= start < size (constraints (model_proto_ g)) /\
    forall var, marked (visited st) var <->
                exists ct, rtc (shares_variable g) start ct /\ uses g ct var.
Proof.
  intros H Hshort. unfold ConstraintGraph_walk, uniform_int_distribution in H.
  destruct (Z.leb_spec 0 (size (constraint_to_var_ g) - 1)) as [Hm|];
    [|discriminate].
  cbn [bind] in H.
  pose proof (uniform_int_range 0 (size (constraint_to_var_ g) - 1)
                (seed_engine seed) ltac:(lia)) as Hr.
  destruct (uniform_int 0 (size (constraint_to_var_ g) - 1) (seed_engine seed))
    as [start rnd].
  cbn [fst] in Hr.
  inv_bind H as added [_ ->]%set_at_Ok.
  set (st0 := {| visited := replicate (Z.to_nat (num_model_vars g)) false;
                 added_constraints :=
                   <[Z.to_nat start := true]>
                     (replicate (length (constraint_to_var_ g)) false);
                 next_constraints := [start];
                 num_relaxed_variables := 0 |}) in H.
  assert (Hstart0 : marked (added_constraints st0) start).
  { unfold st0. cbn [added_constraints]. apply marked_insert; [|by right].
    rewrite size_replicate. unfold size in *. lia. }
  assert (Hclosed0 : queue_closed g None st0).
  { unfold queue_closed, st0.
    cbn [visited added_constraints next_constraints]. split.
    - intros ct Hct. left. apply marked_insert in Hct.
      + destruct Hct as [[_ Hct]| ->]; [|apply list_elem_of_here].
        by apply lookup_replicate in Hct as [? _].
      + rewrite size_replicate. unfold size in *. lia.
    - intros v ct [_ Hv]. by apply lookup_replicate in Hv as [? _]. }
  destruct (constraint_walk_complete _ _ _ _ _ H Hshort Hclosed0)
    as ([HA HB] & Hnext & Hadded).
  destruct (constraint_walk_spec g Hok start target
              (S (length (constraint_to_var_ g))) st0 rnd)
    as (st' & Hst' & (_ & _ & Hvis & _) & _).
  { unfold cwalk_inv, st0. cbn [visited added_constraints next_constraints
                                  num_relaxed_variables].
    split; [|split; [|split]].
    + rewrite length_replicate. unfold num_model_vars, size. lia.
    + eexists. split; [|split; [reflexivity|]]; cbn [fst snd].
      * by rewrite length_insert, length_replicate.
      * intros ct Hct%list_elem_of_singleton. subst ct. split; [lia|done].
    + intros v [_ Hv]. by apply lookup_replicate in Hv as [? _].
    + exists []. split; [apply NoDup_nil_2|]. split; [|done].
      intros v. split; [|by intros ?%elem_of_nil].
      intros [_ Hv]. by apply lookup_replicate in Hv as [? _]. }
  { unfold state_potential, potential, st0.
    cbn [added_constraints next_constraints length].
    pose proof (unmarked_insert (replicate (length (constraint_to_var_ g)) false)
                  (Z.to_nat start)) as Hu.
    rewrite unmarked_replicate in Hu.
    specialize (Hu ltac:(apply lookup_replicate_2; unfold size in *; lia)).
    lia. }
  { unfold st0. cbn [num_relaxed_variables]. lia. }
  assert (st' = st) as -> by congruence.
  exists start. split.
  { unfold size in *. rewrite (constraint_to_var_length g Hok) in Hr. lia. }
  assert (Hreach : forall ct, rtc (shares_variable g) start ct ->
                              marked (added_constraints st) ct).
  { apply (rtc_ind_r (fun ct => marked (added_constraints st) ct));
      [by apply Hadded|].
    intros ct ct2 _ (v & Hv & Hv2) Hct.
    apply (HB v ct2); [|done].
    destruct (HA ct Hct) as [Hin|[Hskip|Hproc]];
      [by rewrite Hnext in Hin; apply elem_of_nil in Hin|done|by apply Hproc]. }
  intros var. split; [by apply Hvis|].
  intros (ct & Hct & Huse).
  destruct (HA ct (Hreach ct Hct)) as [Hin|[Hskip|Hproc]];
    [by rewrite Hnext in Hin; apply elem_of_nil in Hin|done|by apply Hproc].
Qed.

End ConstraintWalkComplete.

(** ** The methods in memory and the methods as functions *)

Section MemoryFacts.
Context `{CM : ConstraintModel} `{RE : RandomEngine}.

Lemma at_of_nat {A : Type} (l : list A) (i : nat) (x : A) :
  l !! i = Some x -> at_ l (Z.of_nat i) = Ok x.
Proof.
  intros Hl. apply at_Ok. rewrite Nat2Z.id. split; [|done].
  apply lookup_lt_Some in Hl. unfold size. lia.
Qed.

Lemma set_at_of_nat {A : Type} (l : list A) (i : nat) (x : A) :
  (i < length l)%nat -> set_at l (Z.of_nat i) x = Ok (<[i := x]> l).
Proof.
  intros Hi. rewrite set_at_defined by (unfold size; lia).
  by rewrite Nat2Z.id.
Qed.

Lemma with_protos_id (mem : memory) : with_protos mem (protos mem) = mem.
Proof. by destruct mem. Qed.

Lemma with_variables_id (m : CpModelProto) : with_variables m (variables m) = m.
Proof. by destruct m. Qed.

Lemma with_solution_hint_id (m : CpModelProto) :
  with_solution_hint m (has_solution_hint m) = m.
Proof. by destruct m. Qed.

Lemma insert_at_end {A : Type} (l : list A) (x y : A) :
  <[length l := y]> (l ++ [x]) = l ++ [y].
Proof.
  rewrite insert_app_r_alt by lia. by rewrite Nat.sub_diag.
Qed.

Lemma lookup_at_end {A : Type} (l : list A) (x : A) :
  (l ++ [x]) !! length l = Some x.
Proof. rewrite lookup_app_r by lia. by rewrite Nat.sub_diag. Qed.

(** The first loop of [FixGivenPosition] on an object. *)
Lemma fix_variables_in_place (response : CpSolverResponse) (l : nat)
    (to_fix : list Z) (mem : memory) (m : CpModelProto) :
  protos mem !! l = Some m ->
  foldM (fix_variable_in_place response (proto_object l)) to_fix mem
  = do vs <- foldM (fix_variable response) to_fix (variables m);
    Ok (with_protos mem (<[l := with_variables m vs]> (protos mem))).
Proof.
  revert mem m. induction to_fix as [|var to_fix IH]; intros mem m Hl.
  - cbn [foldM bind]. by rewrite with_variables_id, list_insert_id, with_protos_id.
  - cbn [foldM]. unfold fix_variable_in_place at 1.
    cbn [read_proto write_proto]. rewrite (at_of_nat _ _ _ Hl). cbn [bind].
    destruct (fix_variable response (variables m) var) as [vs1|e];
      [|reflexivity].
    cbn [bind].
    rewrite set_at_of_nat by (by eapply lookup_lt_Some). cbn [bind].
    rewrite (IH _ (with_variables m vs1)).
    2:{ cbn [with_protos protos]. apply list_lookup_insert_eq.
        by eapply lookup_lt_Some. }
    cbn [with_variables variables].
    destruct (foldM (fix_variable response) to_fix vs1) as [vs|e];
      [|reflexivity].
    cbn [bind with_protos protos this_ vectors constraints search_strategy
         has_solution_hint]. by rewrite list_insert_insert_eq.
Qed.

(** The second loop of [FixGivenPosition] on an object. *)
Lemma add_hints_in_place (response : CpSolverResponse) (l : nat)
    (indices : list Z) (mem : memory) (m : CpModelProto) :
  protos mem !! l = Some m ->
  foldM (add_hint_in_place response (proto_object l)) indices mem
  = do hint <- foldM (add_hint response) indices (has_solution_hint m);
    Ok (with_protos mem (<[l := with_solution_hint m hint]> (protos mem))).
Proof.
  revert mem m. induction indices as [|var indices IH]; intros mem m Hl.
  - cbn [foldM bind].
    by rewrite with_solution_hint_id, list_insert_id, with_protos_id.
  - cbn [foldM]. unfold add_hint_in_place at 1.
    cbn [read_proto write_proto]. rewrite (at_of_nat _ _ _ Hl). cbn [bind].
    destruct (add_hint response (has_solution_hint m) var) as [h1|e];
      [|reflexivity].
    cbn [bind].
    rewrite set_at_of_nat by (by eapply lookup_lt_Some). cbn [bind].
    rewrite (IH _ (with_solution_hint m h1)).
    2:{ cbn [with_protos protos]. apply list_lookup_insert_eq.
        by eapply lookup_lt_Some. }
    cbn [with_solution_hint has_solution_hint].
    destruct (foldM (add_hint response) indices h1) as [h|e]; [|reflexivity].
    cbn [bind with_protos protos this_ vectors variables constraints
         search_strategy]. by rewrite list_insert_insert_eq.
Qed.

(** The body of [FixGivenPosition] changes its parameter object into the
    model that the function returns, and nothing else. *)
Lemma FixGivenPosition_in_place_object (response : CpSolverResponse)
    (to_fix : list Z) (l : nat) (mem : memory) (m : CpModelProto) :
  protos mem !! l = Some m ->
  FixGivenPosition_in_place response to_fix (proto_object l) mem
  = do restricted <- FixGivenPosition response to_fix m;
    Ok (with_protos mem (<[l := restricted]> (protos mem))).
Proof.
  intros Hl. pose proof (lookup_lt_Some _ _ _ Hl) as Hlt.
  unfold FixGivenPosition_in_place, FixGivenPosition.
  cbn [read_proto]. rewrite (at_of_nat _ _ _ Hl). cbn [bind].
  destruct (check (size (solution response) =? size (variables m)));
    [|reflexivity].
  cbn [bind]. rewrite (fix_variables_in_place response l to_fix mem m Hl).
  destruct (foldM (fix_variable response) to_fix (variables m)) as [vs|e];
    [|reflexivity].
  cbn [bind with_protos protos].
  rewrite (at_of_nat _ _ (with_variables m vs))
    by (by apply list_lookup_insert_eq).
  cbn [bind write_proto with_protos protos].
  rewrite set_at_of_nat by (by rewrite length_insert).
  cbn [bind with_protos protos]. rewrite list_insert_insert_eq.
  rewrite (at_of_nat _ _ (with_solution_hint (with_variables m vs) None))
    by (by apply list_lookup_insert_eq).
  cbn [bind with_solution_hint with_variables variables].
  rewrite (add_hints_in_place response l _ _
             (with_solution_hint (with_variables m vs) None))
    by (by apply list_lookup_insert_eq).
  cbn [with_solution_hint with_variables has_solution_hint variables
       constraints search_strategy].
  destruct (foldM (add_hint response) (seqZ 0 (size vs)) None) as [hint|e];
    [|reflexivity].
  cbn [bind with_protos protos this_ vectors].
  by rewrite list_insert_insert_eq.
Qed.

(** A call of [FixGivenPosition] adds one object, the returned model. *)
Lemma call_FixGivenPosition_spec (response : CpSolverResponse)
    (to_fix : list Z) (argument : proto_place) (mem : memory)
    (m : CpModelProto) :
  read_proto argument mem = Ok m ->
  call_FixGivenPosition response to_fix argument mem
  = do restricted <- FixGivenPosition response to_fix m;
    Ok (length (protos mem), with_protos mem (protos mem ++ [restricted])).
Proof.
  intros Hread. unfold call_FixGivenPosition, copy_proto.
  rewrite Hread. cbn [bind].
  rewrite (FixGivenPosition_in_place_object response to_fix _ _ m)
    by apply lookup_at_end.
  destruct (FixGivenPosition response to_fix m) as [restricted|e];
    [|reflexivity].
  cbn [bind with_protos protos this_ vectors]. by rewrite insert_at_end.
Qed.

Lemma RelaxGivenVariables_in_memory_spec (initial_solution : CpSolverResponse)
    (relaxed_variables : list bool) (mem : memory) :
  RelaxGivenVariables_in_memory initial_solution relaxed_variables mem
  = do restricted <- RelaxGivenVariables (this_ mem) initial_solution
                       relaxed_variables;
    Ok (length (protos mem), with_protos mem (protos mem ++ [restricted])).
Proof.
  unfold RelaxGivenVariables_in_memory, RelaxGivenVariables.
  destruct (fixed_variables_of (this_ mem) relaxed_variables) as [fixed|e];
    [|reflexivity].
  cbn [bind]. by apply call_FixGivenPosition_spec.
Qed.

Lemma Simple_in_memory_spec (initial_solution : CpSolverResponse) (seed : Z)
    (difficulty : double) (mem : memory) :
  SimpleNeighborhoodGenerator_Generate_in_memory initial_solution seed
    difficulty mem
  = do fixed_variables <- Simple_fixed_variables (this_ mem) seed difficulty;
    do restricted <- FixGivenPosition initial_solution fixed_variables
                       (model_proto_ (this_ mem));
    Ok (length (protos mem),
        {| this_ := this_ mem;
           protos := protos mem ++ [restricted];
           vectors := vectors mem ++ [fixed_variables] |}).
Proof.
  unfold SimpleNeighborhoodGenerator_Generate_in_memory, Simple_fixed_variables,
    new_vector.
  set (pool := if focus_on_decision_variables_ (this_ mem)
               then decision_variables_ (this_ mem)
               else seqZ 0 (size (variables (model_proto_ (this_ mem))))).
  set (mem1 := with_vectors mem (vectors mem ++ [[]])).
  assert ((if focus_on_decision_variables_ (this_ mem1)
           then assign_vector (vector_object (length (vectors mem)))
                  this_decision_variables mem1
           else write_vector (vector_object (length (vectors mem)))
                  (seqZ 0 (size (variables (model_proto_ (this_ mem1))))) mem1)
          = Ok (with_vectors mem (vectors mem ++ [pool]))) as ->.
  { unfold pool, mem1, assign_vector.
    cbn [this_ with_vectors read_vector write_vector vectors bind].
    destruct (focus_on_decision_variables_ (this_ mem));
      rewrite set_at_of_nat by (rewrite length_app; cbn; lia);
      by rewrite insert_at_end. }
  cbn [bind]. unfold shuffle_in_place.
  cbn [read_vector with_vectors vectors].
  rewrite (at_of_nat _ _ pool) by apply lookup_at_end. cbn [bind].
  destruct (shuffle pool (seed_engine seed)) as [shuffled random].
  cbn [write_vector with_vectors vectors this_ protos].
  rewrite set_at_of_nat by (rewrite length_app; cbn; lia).
  rewrite insert_at_end. cbn [bind read_vector with_vectors vectors].
  rewrite (at_of_nat _ _ shuffled) by apply lookup_at_end. cbn [bind].
  destruct (ceil_to_int _) as [target|e]; [|reflexivity].
  cbn [bind]. unfold resize_in_place.
  cbn [read_vector with_vectors vectors].
  rewrite (at_of_nat _ _ shuffled) by apply lookup_at_end. cbn [bind].
  destruct (resize shuffled target) as [fixed|e]; [|reflexivity].
  cbn [bind write_vector with_vectors vectors this_ protos].
  rewrite set_at_of_nat by (rewrite length_app; cbn; lia).
  rewrite insert_at_end. cbn [bind read_vector with_vectors vectors].
  rewrite (at_of_nat _ _ fixed) by apply lookup_at_end. cbn [bind].
  rewrite (call_FixGivenPosition_spec _ _ _ _ (model_proto_ (this_ mem)))
    by reflexivity.
  by destruct (FixGivenPosition initial_solution fixed (model_proto_ (this_ mem))).
Qed.

Lemma VariableGraph_in_memory_spec (initial_solution : CpSolverResponse)
    (seed : Z) (difficulty : double) (mem : memory) :
  VariableGraphNeighborhoodGenerator_Generate_in_memory initial_solution seed
    difficulty mem
  = do restricted <- VariableGraphNeighborhoodGenerator_Generate (this_ mem)
                       initial_solution seed difficulty;
    Ok (length (protos mem), with_protos mem (protos mem ++ [restricted])).
Proof.
  unfold VariableGraphNeighborhoodGenerator_Generate_in_memory,
    VariableGraphNeighborhoodGenerator_Generate.
  destruct (target_size (this_ mem) difficulty) as [target|e]; [|reflexivity].
  cbn [bind]. destruct (target =? num_active_vars (this_ mem)); [reflexivity|].
  destruct (check (target >? 0)); [|reflexivity]. cbn [bind].
  destruct (VariableGraph_walk (this_ mem) seed target) as [st|e];
    [|reflexivity].
  cbn [bind].
  destruct (mask_of (this_ mem) (relaxed_variables st)) as [mask|e];
    [|reflexivity].
  cbn [bind]. apply RelaxGivenVariables_in_memory_spec.
Qed.

(** The loop of the constraint-graph generator changes its own vector
    [random_variables] and nothing else. *)
Lemma constraint_walk_in_memory_spec (fuel : nat) (target : Z)
    (st : constraint_walk_state) (rnd : random_engine_t) (rv : nat)
    (mem : memory) :
  (rv < length (vectors mem))%nat ->
  match constraint_walk (this_ mem) fuel target st rnd with
  | Ok st' =>
      exists elements,
        constraint_walk_in_memory fuel target st rnd rv mem
        = Ok (st', with_vectors mem (<[rv := elements]> (vectors mem)))
  | Fail e => constraint_walk_in_memory fuel target st rnd rv mem = Fail e
  end.
Proof.
  assert (Hstay : forall mem0 : memory,
             (rv < length (vectors mem0))%nat ->
             exists elements,
               mem0 = with_vectors mem0 (<[rv := elements]> (vectors mem0))).
  { intros mem0 Hlt. destruct (lookup_lt_is_Some_2 _ _ Hlt) as [v0 Hv0].
    exists v0. rewrite list_insert_id by done. by destruct mem0. }
  revert st rnd mem. induction fuel as [|fuel IH]; intros st rnd mem Hrv;
    [reflexivity|].
  cbn [constraint_walk constraint_walk_in_memory].
  destruct (num_relaxed_variables st <? target).
  2:{ destruct (Hstay mem Hrv) as [v Hv]. exists v. by rewrite <- Hv. }
  destruct (bool_decide (next_constraints st = [])).
  { destruct (Hstay mem Hrv) as [v Hv]. exists v. by rewrite <- Hv. }
  destruct (uniform_int_distribution 0 (size (next_constraints st) - 1) rnd)
    as [[i rnd1]|e]; [|reflexivity].
  cbn [bind].
  destruct (swap_remove (next_constraints st) i) as [[cidx next]|e];
    [|reflexivity].
  cbn [bind].
  destruct (check (in_range (constraint_to_var_ (this_ mem)) cidx));
    [|reflexivity].
  cbn [bind]. unfold assign_vector. cbn [read_vector].
  destruct (at_ (constraint_to_var_ (this_ mem)) cidx) as [row|e];
    [|reflexivity].
  cbn [bind write_vector]. rewrite set_at_of_nat by done. cbn [bind].
  unfold shuffle_in_place. cbn [read_vector with_vectors vectors].
  rewrite (at_of_nat _ _ row) by (by apply list_lookup_insert_eq).
  cbn [bind]. destruct (shuffle row rnd1) as [shuffled rnd2].
  cbn [write_vector with_vectors vectors this_ protos].
  rewrite set_at_of_nat by (by rewrite length_insert).
  rewrite list_insert_insert_eq. cbn [bind read_vector with_vectors vectors].
  rewrite (at_of_nat _ _ shuffled) by (by apply list_lookup_insert_eq).
  cbn [bind this_ with_vectors protos vectors].
  destruct (visit_variables (this_ mem) target shuffled _) as [st1|e];
    [|reflexivity].
  cbn [bind].
  specialize (IH st1 rnd2 {| this_ := this_ mem; protos := protos mem;
                             vectors := <[rv := shuffled]> (vectors mem) |}).
  cbn [this_ vectors] in IH. specialize (IH ltac:(by rewrite length_insert)).
  destruct (constraint_walk (this_ mem) fuel target st1 rnd2) as [st'|e];
    [|unfold with_vectors; cbn [this_ protos vectors]; exact IH].
  destruct IH as [v Hv]. exists v.
  unfold with_vectors in Hv |- *. cbn [this_ protos vectors] in Hv |- *.
  rewrite Hv. by rewrite list_insert_insert_eq.
Qed.

Lemma ConstraintGraph_in_memory_spec (initial_solution : CpSolverResponse)
    (seed : Z) (difficulty : double) (mem : memory) :
  match ConstraintGraphNeighborhoodGenerator_Generate (this_ mem)
          initial_solution seed difficulty with
  | Ok restricted =>
      exists new_vectors,
        ConstraintGraphNeighborhoodGenerator_Generate_in_memory
          initial_solution seed difficulty mem
        = Ok (length (protos mem),
              {| this_ := this_ mem;
                 protos := protos mem ++ [restricted];
                 vectors := vectors mem ++ new_vectors |})
  | Fail e =>
      ConstraintGraphNeighborhoodGenerator_Generate_in_memory
        initial_solution seed difficulty mem = Fail e
  end.
Proof.
  unfold ConstraintGraphNeighborhoodGenerator_Generate_in_memory,
    ConstraintGraphNeighborhoodGenerator_Generate.
  destruct (target_size (this_ mem) difficulty) as [target|e]; [|reflexivity].
  cbn [bind]. destruct (target =? num_active_vars (this_ mem)).
  { exists []. unfold copy_proto. cbn [read_proto bind with_protos].
    by rewrite app_nil_r. }
  destruct (check (target >? 0)); [|reflexivity]. cbn [bind].
  unfold ConstraintGraph_walk_in_memory, ConstraintGraph_walk, new_vector.
  destruct (uniform_int_distribution 0
              (size (constraint_to_var_ (this_ mem)) - 1) (seed_engine seed))
    as [[start rnd]|e]; [|reflexivity].
  cbn [bind].
  destruct (set_at (replicate (length (constraint_to_var_ (this_ mem))) false)
              start true) as [added|e]; [|reflexivity].
  cbn [bind this_ with_vectors].
  pose proof (constraint_walk_in_memory_spec
                (S (length (constraint_to_var_ (this_ mem)))) target
                {| visited := replicate (Z.to_nat (num_model_vars (this_ mem)))
                                false;
                   added_constraints := added;
                   next_constraints := [start];
                   num_relaxed_variables := 0 |} rnd (length (vectors mem))
                {| this_ := this_ mem; protos := protos mem;
                   vectors := vectors mem ++ [[]] |}) as Hwalk.
  cbn [this_ vectors] in Hwalk.
  specialize (Hwalk ltac:(rewrite length_app; cbn; lia)).
  unfold with_vectors in Hwalk |- *. cbn [this_ protos vectors] in Hwalk |- *.
  destruct (constraint_walk (this_ mem) _ target _ rnd) as [st|e];
    [|by rewrite Hwalk].
  destruct Hwalk as [elements ->]. cbn [bind].
  rewrite RelaxGivenVariables_in_memory_spec.
  cbn [this_ with_vectors protos vectors].
  destruct (RelaxGivenVariables (this_ mem) initial_solution (visited st))
    as [restricted|e]; [|reflexivity].
  cbn [bind]. exists [elements]. unfold with_protos.
  cbn [this_ protos vectors]. by rewrite insert_at_end.
Qed.

(** Every [Generate] in memory returns, in a new object, the model that
    [Generate] returns as a function, adds the vectors it has created, and
    leaves everything else as it is. *)
Lemma Generate_in_memory_spec (class : generator_class)
    (initial_solution : CpSolverResponse) (seed : Z) (difficulty : double)
    (mem : memory) :
  match Generate class (this_ mem) initial_solution seed difficulty with
  | Ok restricted =>
      exists new_vectors,
        Generate_in_memory class initial_solution seed difficulty mem
        = Ok (length (protos mem),
              {| this_ := this_ mem;
                 protos := protos mem ++ [restricted];
                 vectors := vectors mem ++ new_vectors |})
  | Fail e =>
      Generate_in_memory class initial_solution seed difficulty mem = Fail e
  end.
Proof.
  destruct class; cbn [Generate Generate_in_memory].
  - rewrite Simple_in_memory_spec.
    unfold SimpleNeighborhoodGenerator_Generate.
    destruct (Simple_fixed_variables (this_ mem) seed difficulty)
      as [fixed|e]; [|reflexivity].
    cbn [bind].
    destruct (FixGivenPosition initial_solution fixed (model_proto_ (this_ mem)))
      as [restricted|e]; [|reflexivity].
    by exists [fixed].
  - rewrite VariableGraph_in_memory_spec.
    destruct (VariableGraphNeighborhoodGenerator_Generate (this_ mem)
                initial_solution seed difficulty) as [restricted|e];
      [|reflexivity].
    exists []. cbn [bind]. unfold with_protos. by rewrite app_nil_r.
  - apply ConstraintGraph_in_memory_spec.
Qed.

Lemma unchanged_extended (mem : memory) (new_protos : list CpModelProto)
    (new_vectors : list (list Z)) :
  unchanged mem {| this_ := this_ mem;
                   protos := protos mem ++ new_protos;
                   vectors := vectors mem ++ new_vectors |}.
Proof.
  split; [done|]. cbn [protos vectors].
  split; intros l x Hl; by apply lookup_app_l_Some.
Qed.

End MemoryFacts.

(** ** Properties of the generators *)

Section Claims.
Context `{CM : ConstraintModel} `{RE : RandomEngine}
        {REL : RandomEngineLaws RE}.

(** C3. On an incumbent with one value per variable and a list of variable
    indices to fix, [FixGivenPosition] returns a model in which the domain of
    each fixed variable is the single interval [[s, s]] for its incumbent
    value [s], the solution hint lists the indices [0 .. n-1] with the
    incumbent values whatever the hint of the input model was, every other
    variable is the one of the input model, and the constraints are those of
    the input model. *)
Theorem FixGivenPosition_restricts (response : CpSolverResponse)
    (variables_to_fix : list Z) (model_proto : CpModelProto) :
  size (solution response) = size (variables model_proto) ->
  (forall var, var ∈ variables_to_fix ->
               0 <= var < size (variables model_proto)) ->
  exists restricted,
    FixGivenPosition response variables_to_fix model_proto = Ok restricted /\
    length (variables restricted) = length (variables model_proto) /\
    (forall var, var ∈ variables_to_fix ->
       exists x s, variables restricted !! Z.to_nat var = Some x /\
                   solution response !! Z.to_nat var = Some s /\
                   domain x = [s; s]) /\
    vars (solution_hint restricted) = seqZ 0 (size (variables model_proto)) /\
    values (solution_hint restricted) = solution response /\
    (forall i, Z.of_nat i ∉ variables_to_fix ->
               variables restricted !! i = variables model_proto !! i) /\
    constraints restricted = constraints model_proto.
Proof.
  intros Hsz Hfix. exists (restricted_model response variables_to_fix model_proto).
  split; [apply FixGivenPosition_Ok; [done|by apply Forall_forall]|].
  unfold restricted_model. cbn [variables constraints].
  split; [by rewrite length_imap|]. split; [|split; [|split; [|split]]].
  - intros var Hin. specialize (Hfix var Hin).
    destruct (at_defined (variables model_proto) var Hfix) as (x & _ & Hx).
    destruct (at_defined (solution response) var) as (s & _ & Hs); [lia|].
    eexists _, s. rewrite list_lookup_imap, Hx. cbn.
    split; [reflexivity|]. split; [done|].
    unfold restrict_variable.
    rewrite bool_decide_eq_true_2 by (by rewrite Z2Nat.id by lia).
    cbn. unfold solution_at. by rewrite Hs.
  - unfold solution_hint, full_hint. cbn [has_solution_hint].
    destruct (solution response) as [|s l] eqn:E.
    + cbn. rewrite <- Hsz. unfold size. by cbn.
    + rewrite bool_decide_eq_false_2 by done. cbn [vars]. by rewrite Hsz.
  - unfold solution_hint, full_hint. cbn [has_solution_hint].
    destruct (solution response) as [|s l] eqn:E; [done|].
    by rewrite bool_decide_eq_false_2 by done.
  - intros i Hi. rewrite list_lookup_imap.
    destruct (variables model_proto !! i) as [x|]; [|done]. cbn.
    unfold restrict_variable. by rewrite bool_decide_eq_false_2.
  - done.
Qed.

Section Generator.
Variable model : CpModelProto.
Variable focus_on_decision_variables : bool.
Variable g : NeighborhoodGenerator.
Hypothesis Hnew :
  new_NeighborhoodGenerator model focus_on_decision_variables = Ok g.

Lemma built_generator_ok : generator_ok g.
Proof. by destruct (new_NeighborhoodGenerator_ok _ _ _ Hnew). Qed.

Lemma built_generator_model : model_proto_ g = model.
Proof.
  by destruct (new_NeighborhoodGenerator_ok _ _ _ Hnew) as (_ & ? & _).
Qed.

Local Abbreviation Hok := built_generator_ok.
Local Abbreviation Hmodel := built_generator_model.

Lemma size_active_pool_le :
  size (active_pool g) <= size (variables model).
Proof.
  assert (H : active_pool g ⊆+ seqZ 0 (size (variables model))).
  { apply NoDup_submseteq; [apply (NoDup_active_pool g Hok)|].
    intros v Hin. apply elem_of_seqZ.
    apply (elem_of_active_pool g Hok) in Hin as [Hin _].
    rewrite Hmodel in Hin. lia. }
  apply submseteq_length in H. rewrite length_seqZ in H. unfold size in *. lia.
Qed.

(** For a difficulty in [[0, 1]] the target size of the graph generators is
    defined and lies between [0] and the number of active variables. *)
Lemma target_size_in_range (difficulty : double) :
  size (variables model) <= INT_MAX ->
  in_unit_interval difficulty ->
  exists target,
    target_size g difficulty = Ok target /\
    0 <= target <= num_active_vars g.
Proof.
  intros Hmax Hd. unfold target_size. apply ceil_mul; [done|].
  pose proof size_active_pool_le.
  rewrite (num_active_vars_pool g). unfold size in *. lia.
Qed.

(** C4. When the computed target size equals the number of active variables,
    the variable-graph and the constraint-graph generators return the input
    model itself. *)
Theorem graph_generators_return_model_when_target_is_all
    (initial_solution : CpSolverResponse) (seed : Z) (difficulty : double) :
  target_size g difficulty = Ok (num_active_vars g) ->
  VariableGraphNeighborhoodGenerator_Generate g initial_solution seed difficulty
  = Ok model /\
  ConstraintGraphNeighborhoodGenerator_Generate g initial_solution seed difficulty
  = Ok model.
Proof.
  intros Ht.
  unfold VariableGraphNeighborhoodGenerator_Generate,
    ConstraintGraphNeighborhoodGenerator_Generate.
  rewrite Ht. cbn [bind]. rewrite Z.eqb_refl. by rewrite Hmodel.
Qed.

(** C2, as the code has it.  With a non-empty active pool and difficulty 0
    the target size is 0, which differs from the number of active variables
    and fails [CHECK_GT(target_size, 0)]: both graph generators abort. *)
Theorem graph_generators_abort_on_difficulty_zero
    (initial_solution : CpSolverResponse) (seed : Z) (sign : bool) :
  0 < num_active_vars g ->
  size (variables model) <= INT_MAX ->
  VariableGraphNeighborhoodGenerator_Generate g initial_solution seed
    (S754_zero sign) = Fail CheckFailure /\
  ConstraintGraphNeighborhoodGenerator_Generate g initial_solution seed
    (S754_zero sign) = Fail CheckFailure.
Proof.
  intros Hpos Hmax.
  assert (Ht : target_size g (S754_zero sign) = Ok 0).
  { unfold target_size. apply ceil_zero_mul.
    pose proof size_active_pool_le.
    rewrite (num_active_vars_pool g) in *. unfold INT_MAX in *. lia. }
  unfold VariableGraphNeighborhoodGenerator_Generate,
    ConstraintGraphNeighborhoodGenerator_Generate.
  rewrite Ht. cbn [bind].
  rewrite (proj2 (Z.eqb_neq 0 (num_active_vars g))) by lia. done.
Qed.

(** What the simple generator fixes: a prefix of the shuffled pool. *)
Lemma Simple_fixed_variables_spec (seed : Z) (difficulty : double) :
  size (variables model) <= INT_MAX ->
  in_unit_interval difficulty ->
  exists target fixed_variables,
    ceil_to_int (double_mul (double_sub double_one difficulty)
                            (double_of_int (size (active_pool g))))
    = Ok target /\
    Simple_fixed_variables g seed difficulty = Ok fixed_variables /\
    size fixed_variables = target /\
    NoDup fixed_variables /\
    (forall var, var ∈ fixed_variables -> var ∈ active_pool g).
Proof.
  intros Hmax Hd.
  pose proof size_active_pool_le as Hle.
  destruct (ceil_one_minus_mul difficulty (size (active_pool g)) Hd)
    as (target & Ht & Hrange); [unfold size in *; lia|].
  unfold Simple_fixed_variables. fold (active_pool g).
  pose proof (shuffle_Permutation (active_pool g) (seed_engine seed)) as Hperm.
  destruct (shuffle (active_pool g) (seed_engine seed)) as [shuffled rnd].
  cbn [fst] in Hperm.
  assert (Hlen : size shuffled = size (active_pool g)).
  { unfold size. by rewrite <- Hperm. }
  rewrite Hlen, Ht. cbn [bind]. unfold resize.
  rewrite (proj2 (Z.ltb_ge target 0)) by lia.
  replace (Z.to_nat target - length shuffled)%nat with 0%nat
    by (unfold size in *; lia).
  cbn [replicate]. rewrite app_nil_r.
  exists target, (take (Z.to_nat target) shuffled).
  split; [done|]. split; [done|]. split; [|split].
  - unfold size in *. rewrite length_take. lia.
  - apply (sublist_NoDup _ shuffled); [|apply sublist_take].
    rewrite <- Hperm. apply (NoDup_active_pool g Hok).
  - intros var Hvar. rewrite Hperm.
    by apply (subseteq_take (Z.to_nat target) shuffled).
Qed.


Lemma elem_of_relaxed_set (mask : list bool) (var : Z) :
  var ∈ relaxed_set mask <-> marked mask var.
Proof.
  unfold relaxed_set. rewrite list_elem_of_filter, elem_of_seqZ.
  split; [tauto|]. intros Hm. split; [done|].
  destruct Hm as [H0 Hl]. apply lookup_lt_Some in Hl. unfold size. lia.
Qed.

Lemma mask_of_length (l : list Z) (mask : list bool) :
  mask_of g l = Ok mask -> length mask = length (variables model).
Proof.
  unfold mask_of. intros H.
  apply (foldM_invariant
           (fun m : list bool => length m = length (variables model))
           (fun _ => True) mark l _ mask) in H; [done| | |].
  - intros a x a' Ha _ [_ ->]%set_at_Ok. by rewrite length_insert.
  - by apply Forall_forall.
  - rewrite length_replicate. unfold num_model_vars, size.
    rewrite Hmodel. lia.
Qed.

(** C1, as the code has it.  [RelaxGivenVariables] fixes exactly the active
    variables that the mask does not mark, so the relaxed and the fixed
    variables are disjoint in both focus modes; the relaxed and the fixed
    active variables together are the active pool, and the sizes of the two
    sets sum to the number of variables when the focus is off (with the
    focus on, a variable that is neither relaxed nor a decision variable is
    in neither set).  The
    masks of the two graph generators have one entry per variable.  The
    simple generator fixes pairwise distinct variables, which together with
    the remaining variables are all the variables, in both focus modes. *)
Theorem relaxed_and_fixed_variables_partition :
  (forall mask,
     length mask = length (variables model) ->
     exists fixed,
       fixed_variables_of g mask = Ok fixed /\ NoDup fixed /\
       (forall var, var ∈ fixed <->
                    var ∈ active_pool g /\ var ∉ relaxed_set mask) /\
       (length (filter (fun var => var ∈ relaxed_set mask) (active_pool g))
        + length fixed)%nat = length (active_pool g) /\
       (focus_on_decision_variables_ g = false ->
        (length (relaxed_set mask) + length fixed)%nat
        = length (variables model))) /\
  (forall seed target st mask,
     VariableGraph_walk g seed target = Ok st ->
     mask_of g (relaxed_variables st) = Ok mask ->
     length mask = length (variables model)) /\
  (forall seed target st,
     ConstraintGraph_walk g seed target = Ok st ->
     length (visited st) = length (variables model)) /\
  (forall seed difficulty fixed,
     size (variables model) <= INT_MAX -> in_unit_interval difficulty ->
     Simple_fixed_variables g seed difficulty = Ok fixed ->
     NoDup fixed /\
     (length (filter (fun var => var ∉ fixed) (seqZ 0 (size (variables model))))
      + length fixed)%nat = length (variables model)).
Proof.
  split; [|split; [|split]].
  - intros mask Hlen. rewrite <- Hmodel in Hlen.
    exists (filter (fun var => ~ marked mask var) (active_pool g)).
    split; [by apply fixed_variables_of_Ok; [apply Hok|]|].
    split; [apply NoDup_filter, (NoDup_active_pool g Hok)|].
    split; [|split].
    + intros var. rewrite list_elem_of_filter, elem_of_relaxed_set. tauto.
    + rewrite (list_filter_iff (fun var => var ∈ relaxed_set mask)
                 (marked mask)) by (intros var; apply elem_of_relaxed_set).
      rewrite <- length_app.
      by rewrite (filter_app_complement (marked mask)).
    + intros Hf. unfold relaxed_set, active_pool. rewrite Hf.
      unfold size. rewrite Hlen, <- length_app.
      rewrite (filter_app_complement (marked mask)), length_seqZ.
      rewrite Hmodel. lia.
  - intros seed target st mask _ Hmask. by eapply mask_of_length.
  - intros seed target st Hwalk.
    destruct (decide (constraints (model_proto_ g) = [])) as [Hnil|Hne].
    + by rewrite (ConstraintGraph_walk_no_constraint g Hok) in Hwalk.
    + destruct (ConstraintGraph_walk_spec g Hok seed target Hne)
        as (st' & start & E & _ & (Hlen & _) & _).
      rewrite E in Hwalk. injection Hwalk as <-. by rewrite <- Hmodel.
  - intros seed difficulty fixed Hmax Hd Hfix.
    destruct (Simple_fixed_variables_spec seed difficulty Hmax Hd)
      as (t & fixed' & _ & E & _ & Hnd & Hin).
    rewrite E in Hfix. injection Hfix as <-. split; [done|].
    assert (Hperm : filter (fun var => var ∈ fixed')
                      (seqZ 0 (size (variables model))) ≡ₚ fixed').
    { apply NoDup_Permutation; [apply NoDup_filter, NoDup_seqZ|done|].
      intros var. rewrite list_elem_of_filter, elem_of_seqZ.
      split; [tauto|]. intros Hvar. split; [done|].
      apply Hin, (elem_of_active_pool g Hok) in Hvar as [Hvar _].
      rewrite Hmodel in Hvar. lia. }
    rewrite <- (Permutation_length Hperm).
    rewrite Nat.add_comm, <- length_app.
    rewrite (filter_app_complement (fun var => var ∈ fixed')), length_seqZ.
    unfold size. lia.
Qed.

(** C9. Every variable of the relaxed sequence of the variable-graph
    generator is active; with the focus on, the relaxed variables are
    decision variables and the fixed variables are the decision variables
    that are not relaxed. *)
Theorem VariableGraph_relaxed_variables_are_active
    (initial_solution : CpSolverResponse) (seed : Z) (difficulty : double)
    (target : Z) :
  size (solution initial_solution) = size (variables model) ->
  target_size g difficulty = Ok target ->
  0 < target < num_active_vars g ->
  exists st mask,
    VariableGraph_walk g seed target = Ok st /\
    (forall var, var ∈ relaxed_variables st -> IsActive g var = Ok true) /\
    mask_of g (relaxed_variables st) = Ok mask /\
    (focus_on_decision_variables_ g = true ->
     (forall var, var ∈ relaxed_variables st -> var ∈ decision_variables_ g) /\
     fixed_variables_of g mask
     = Ok (filter (fun var => var ∉ relaxed_variables st)
                  (decision_variables_ g))) /\
    VariableGraphNeighborhoodGenerator_Generate g initial_solution seed
      difficulty
    = Ok (restricted_model initial_solution
            (filter (fun var => var ∉ relaxed_variables st) (active_pool g))
            model).
Proof.
  intros Hsz Ht Hrange.
  destruct (VariableGraph_walk_spec g Hok seed target)
    as (st & first & Hwalk & _ & (_ & _ & _ & Hvis & Hrel) & _ & _); [lia|].
  assert (Hact : forall var, var ∈ relaxed_variables st ->
                   0 <= var < size (variables (model_proto_ g)) /\
                   active g var).
  { intros var Hin. rewrite Hrel in Hin.
    apply list_elem_of_filter in Hin as [Ha Hin]. by destruct (Hvis var Hin). }
  destruct (mask_of_Ok g (relaxed_variables st)) as (mask & Hmask & Hlen & Hm).
  { apply Forall_forall. intros var Hin. by apply Hact. }
  assert (Hfixed : forall pool : list Z,
             filter (fun var => ~ marked mask var) pool
             = filter (fun var => var ∉ relaxed_variables st) pool).
  { intros pool. apply list_filter_iff. intros var. by rewrite Hm. }
  exists st, mask. split; [done|]. split; [|split; [done|split]].
  - intros var [Hr Ha]%Hact.
    by rewrite (IsActive_Ok g Hok var Hr), bool_decide_eq_true_2.
  - intros Hf. split.
    + intros var [_ [Ha|Ha]]%Hact; [congruence|done].
    + rewrite (fixed_variables_of_Ok g Hok mask Hlen), Hfixed.
      unfold active_pool. by rewrite Hf.
  - unfold VariableGraphNeighborhoodGenerator_Generate.
    rewrite Ht. cbn [bind].
    rewrite (proj2 (Z.eqb_neq target (num_active_vars g))) by lia.
    rewrite (proj2 (Z.gtb_gt target 0)) by lia.
    cbn [check bind]. rewrite Hwalk. cbn [bind]. rewrite Hmask. cbn [bind].
    rewrite (RelaxGivenVariables_Ok g Hok initial_solution mask Hlen)
      by (by rewrite Hmodel).
    by rewrite Hfixed, Hmodel.
Qed.

(** C10. With [0 < target_size < num_active_vars], the constraint-graph
    generator has no start constraint to draw on a model without constraints
    (the distribution ranges over [0 .. -1]); on a model with at least one
    constraint every access of the walk is inside its container and the
    generator returns the model restricted to the active variables that the
    walk did not visit. *)
Theorem ConstraintGraph_returns_iff_some_constraint
    (initial_solution : CpSolverResponse) (seed : Z) (difficulty : double)
    (target : Z) :
  size (solution initial_solution) = size (variables model) ->
  target_size g difficulty = Ok target ->
  0 < target < num_active_vars g ->
  (constraints model = [] ->
   ConstraintGraph_walk g seed target = Fail UndefinedBehavior /\
   ConstraintGraphNeighborhoodGenerator_Generate g initial_solution seed
     difficulty = Fail UndefinedBehavior) /\
  (constraints model <> [] ->
   exists st,
     ConstraintGraph_walk g seed target = Ok st /\
     ConstraintGraphNeighborhoodGenerator_Generate g initial_solution seed
       difficulty
     = Ok (restricted_model initial_solution
             (filter (fun var => ~ marked (visited st) var) (active_pool g))
             model)).
Proof.
  intros Hsz Ht Hrange.
  assert (Hgen : ConstraintGraphNeighborhoodGenerator_Generate g
                   initial_solution seed difficulty
                 = do st <- ConstraintGraph_walk g seed target;
                   RelaxGivenVariables g initial_solution (visited st)).
  { unfold ConstraintGraphNeighborhoodGenerator_Generate.
    rewrite Ht. cbn [bind].
    rewrite (proj2 (Z.eqb_neq target (num_active_vars g))) by lia.
    by rewrite (proj2 (Z.gtb_gt target 0)) by lia. }
  rewrite Hgen. rewrite <- Hmodel. split.
  - intros Hnil.
    by rewrite (ConstraintGraph_walk_no_constraint g Hok seed target Hnil).
  - intros Hne.
    destruct (ConstraintGraph_walk_spec g Hok seed target Hne)
      as (st & start & E & _ & (Hlen & _) & _).
    exists st. split; [done|]. rewrite E. cbn [bind].
    apply (RelaxGivenVariables_Ok g Hok); [done|by rewrite Hmodel].
Qed.

(** The bounds that the two walks keep: the variable walk relaxes at most
    [max 2 target] variables, all of them reachable from its first variable
    through variables that share a constraint; the constraint walk visits
    variables of constraints reachable from its first constraint and counts
    at most [target] active ones. *)
Lemma VariableGraph_walk_bounded (seed target : Z) :
  1 <= num_active_vars g ->
  exists st first,
    VariableGraph_walk g seed target = Ok st /\
    first ∈ active_pool g /\
    NoDup (relaxed_variables st) /\
    size (relaxed_variables st) <= Z.max 2 target /\
    forall var, var ∈ relaxed_variables st ->
                rtc (shares_constraint g) first var.
Proof.
  intros Hact.
  destruct (VariableGraph_walk_spec g Hok seed target Hact)
    as (st & first & Hwalk & Hfirst & (_ & Hnd & _ & Hvis & Hrel) & _ & Hsz).
  exists st, first. split; [done|]. split; [done|].
  rewrite Hrel in *. split; [by apply NoDup_filter|]. split; [done|].
  intros var [_ Hin]%list_elem_of_filter. by destruct (Hvis var Hin) as (_ & _ & ?).
Qed.

Lemma ConstraintGraph_walk_bounded (seed target : Z) :
  constraints model <> [] ->
  exists st start,
    ConstraintGraph_walk g seed target = Ok st /\
    0 <= start < size (constraints model) /\
    size (filter (active g) (relaxed_set (visited st))) <= Z.max 0 target /\
    forall var, var ∈ relaxed_set (visited st) ->
                exists ct, rtc (shares_variable g) start ct /\ uses g ct var.
Proof.
  intros Hne. rewrite <- Hmodel in Hne.
  destruct (ConstraintGraph_walk_spec g Hok seed target Hne)
    as (st & start & Hwalk & Hstart
        & (_ & _ & Hvis & vis & Hnd & Hmark & Hcount) & Hnum).
  exists st, start. split; [done|]. split.
  { unfold size in *. rewrite (constraint_to_var_length g Hok) in Hstart.
    by rewrite <- Hmodel. }
  split.
  - assert (Hperm : filter (active g) (relaxed_set (visited st))
                    ≡ₚ filter (active g) vis).
    { apply NoDup_Permutation.
      - apply NoDup_filter. unfold relaxed_set. apply NoDup_filter, NoDup_seqZ.
      - by apply NoDup_filter.
      - intros var. rewrite !list_elem_of_filter, elem_of_relaxed_set, Hmark.
        done. }
    unfold size in *. rewrite Hperm. lia.
  - intros var Hin%elem_of_relaxed_set. by apply Hvis.
Qed.


(** ** The generators over the whole range of difficulties *)

(** The two graph generators once the target size is strictly between [0]
    and the number of active variables: the walk returns and its result is
    handed to [RelaxGivenVariables]. *)
Lemma VariableGraph_Generate_walks (initial_solution : CpSolverResponse)
    (seed : Z) (difficulty : double) (target : Z) :
  target_size g difficulty = Ok target ->
  0 < target < num_active_vars g ->
  exists st mask,
    VariableGraph_walk g seed target = Ok st /\
    mask_of g (relaxed_variables st) = Ok mask /\
    length mask = length (variables (model_proto_ g)) /\
    VariableGraphNeighborhoodGenerator_Generate g initial_solution seed
      difficulty
    = RelaxGivenVariables g initial_solution mask.
Proof.
  intros Ht Hrange.
  destruct (VariableGraph_walk_spec g Hok seed target)
    as (st & first & Hwalk & _ & (_ & _ & _ & Hvis & Hrel) & _ & _); [lia|].
  destruct (mask_of_Ok g (relaxed_variables st)) as (mask & Hmask & Hlen & _).
  { apply Forall_forall. intros var Hin. rewrite Hrel in Hin.
    apply list_elem_of_filter in Hin as [_ Hin]. by destruct (Hvis var Hin). }
  exists st, mask. split; [done|]. split; [done|]. split; [done|].
  unfold VariableGraphNeighborhoodGenerator_Generate.
  rewrite Ht. cbn [bind].
  rewrite (proj2 (Z.eqb_neq target (num_active_vars g))) by lia.
  rewrite (proj2 (Z.gtb_gt target 0)) by lia.
  cbn [check bind]. rewrite Hwalk. cbn [bind]. by rewrite Hmask.
Qed.

Lemma ConstraintGraph_Generate_walks (initial_solution : CpSolverResponse)
    (seed : Z) (difficulty : double) (target : Z) :
  target_size g difficulty = Ok target ->
  0 < target < num_active_vars g ->
  constraints model <> [] ->
  exists st,
    ConstraintGraph_walk g seed target = Ok st /\
    length (visited st) = length (variables (model_proto_ g)) /\
    ConstraintGraphNeighborhoodGenerator_Generate g initial_solution seed
      difficulty
    = RelaxGivenVariables g initial_solution (visited st).
Proof.
  intros Ht Hrange Hne. rewrite <- Hmodel in Hne.
  destruct (ConstraintGraph_walk_spec g Hok seed target Hne)
    as (st & start & Hwalk & _ & (Hlen & _) & _).
  exists st. split; [done|]. split; [done|].
  unfold ConstraintGraphNeighborhoodGenerator_Generate.
  rewrite Ht. cbn [bind].
  rewrite (proj2 (Z.eqb_neq target (num_active_vars g))) by lia.
  rewrite (proj2 (Z.gtb_gt target 0)) by lia.
  cbn [check bind]. by rewrite Hwalk.
Qed.

Lemma RelaxGivenVariables_size_mismatch (initial_solution : CpSolverResponse)
    (mask : list bool) :
  length mask = length (variables (model_proto_ g)) ->
  size (solution initial_solution) <> size (variables model) ->
  RelaxGivenVariables g initial_solution mask = Fail CheckFailure.
Proof.
  intros Hlen Hsz. unfold RelaxGivenVariables.
  rewrite (fixed_variables_of_Ok g Hok mask Hlen). cbn [bind].
  apply FixGivenPosition_size_mismatch. by rewrite Hmodel.
Qed.

Lemma num_active_vars_range :
  0 <= num_active_vars g <= size (variables model) /\
  (num_active_vars g = 0 -> variables model = []).
Proof.
  pose proof size_active_pool_le as Hle.
  rewrite <- (num_active_vars_pool g) in Hle.
  split; [split; [|done]|].
  - rewrite (num_active_vars_pool g). unfold size. lia.
  - unfold num_active_vars. rewrite Hmodel.
    destruct (focus_on_decision_variables_ g) eqn:Hf.
    + intros H0. destruct (ok_focus g Hok Hf).
      apply nil_length_inv. unfold size in H0. lia.
    + intros H0. apply nil_length_inv. unfold size in H0. lia.
Qed.

(** X9. With a difficulty in [[0, 1]] other than zero, the target size of
    the graph generators is at least [1] on a non-empty pool, so
    [CHECK_GT(target_size, 0)] holds: on an incumbent with one value per
    variable the variable-graph generator returns a model, and so does the
    constraint-graph generator on a model with a constraint. *)
Theorem graph_generators_return_on_positive_difficulty
    (initial_solution : CpSolverResponse) (seed : Z) (difficulty : double) :
  size (solution initial_solution) = size (variables model) ->
  size (variables model) <= INT_MAX ->
  in_unit_interval difficulty ->
  (forall s, difficulty <> S754_zero s) ->
  (0 < num_active_vars g ->
   exists target, target_size g difficulty = Ok target /\
                  1 <= target <= num_active_vars g) /\
  (exists restricted,
     VariableGraphNeighborhoodGenerator_Generate g initial_solution seed
       difficulty = Ok restricted) /\
  (constraints model <> [] ->
   exists restricted,
     ConstraintGraphNeighborhoodGenerator_Generate g initial_solution seed
       difficulty = Ok restricted).
Proof.
  intros Hsz Hmax Hd Hnz.
  destruct num_active_vars_range as [Hrange _].
  assert (Hpos : 0 < num_active_vars g ->
                 exists target, target_size g difficulty = Ok target /\
                                1 <= target <= num_active_vars g).
  { intros Hact. unfold target_size. apply ceil_mul_positive; [done|done|lia]. }
  split; [exact Hpos|].
  destruct (target_size_in_range difficulty Hmax Hd) as (target & Ht & Htr).
  destruct (decide (target = num_active_vars g)) as [->|Hne].
  { split; [|intros _]; exists (model_proto_ g).
    - unfold VariableGraphNeighborhoodGenerator_Generate.
      rewrite Ht. cbn [bind]. by rewrite Z.eqb_refl.
    - unfold ConstraintGraphNeighborhoodGenerator_Generate.
      rewrite Ht. cbn [bind]. by rewrite Z.eqb_refl. }
  destruct Hpos as (target' & Ht' & Htr'); [lia|].
  assert (target' = target) as -> by congruence.
  split.
  - destruct (VariableGraph_Generate_walks initial_solution seed difficulty
                target Ht ltac:(lia)) as (st & mask & _ & _ & Hlen & ->).
    rewrite (RelaxGivenVariables_Ok g Hok initial_solution mask Hlen)
      by (by rewrite Hmodel).
    by eexists.
  - intros Hcts.
    destruct (ConstraintGraph_Generate_walks initial_solution seed difficulty
                target Ht ltac:(lia) Hcts) as (st & _ & Hlen & ->).
    rewrite (RelaxGivenVariables_Ok g Hok initial_solution (visited st) Hlen)
      by (by rewrite Hmodel).
    by eexists.
Qed.

(** X10. With difficulty [1.0] the target size is the number of active
    variables, so both graph generators return the model they were built
    on, as it is and without a solution hint of the incumbent, whatever the
    incumbent and the seed are. *)
Theorem graph_generators_return_model_on_difficulty_one
    (initial_solution : CpSolverResponse) (seed : Z) :
  size (variables model) <= INT_MAX ->
  target_size g double_one = Ok (num_active_vars g) /\
  VariableGraphNeighborhoodGenerator_Generate g initial_solution seed double_one
  = Ok model /\
  ConstraintGraphNeighborhoodGenerator_Generate g initial_solution seed
    double_one = Ok model.
Proof.
  intros Hmax. destruct num_active_vars_range as [Hrange _].
  assert (target_size g double_one = Ok (num_active_vars g)) as Ht.
  { unfold target_size. apply ceil_one_mul. lia. }
  split; [done|].
  unfold VariableGraphNeighborhoodGenerator_Generate,
    ConstraintGraphNeighborhoodGenerator_Generate.
  rewrite Ht. cbn [bind]. by rewrite Z.eqb_refl, Hmodel.
Qed.

(** X11. With difficulty [0] the simple generator fixes its whole pool: it
    returns the model restricted on every variable of the pool, and with
    the focus off every variable of the returned model has the single value
    of the incumbent as its domain. *)
Theorem Simple_fixes_the_pool_on_difficulty_zero
    (initial_solution : CpSolverResponse) (seed : Z) (sign : bool) :
  size (solution initial_solution) = size (variables model) ->
  size (variables model) <= INT_MAX ->
  SimpleNeighborhoodGenerator_Generate g initial_solution seed (S754_zero sign)
  = Ok (restricted_model initial_solution (active_pool g) model) /\
  (focus_on_decision_variables_ g = false ->
   forall i v s,
     variables (restricted_model initial_solution (active_pool g) model) !! i
     = Some v ->
     solution initial_solution !! i = Some s -> domain v = [s; s]).
Proof.
  intros Hsz Hmax. split.
  - unfold SimpleNeighborhoodGenerator_Generate, Simple_fixed_variables.
    fold (active_pool g).
    pose proof (shuffle_Permutation (active_pool g) (seed_engine seed)) as Hperm.
    destruct (shuffle (active_pool g) (seed_engine seed)) as [shuffled rnd].
    cbn [fst] in Hperm.
    assert (size shuffled = size (active_pool g)) as Hlen.
    { unfold size. by rewrite <- Hperm. }
    pose proof size_active_pool_le as Hle.
    rewrite double_sub_one_zero, Hlen, ceil_one_mul
      by (unfold size in *; lia).
    cbn [bind]. unfold resize.
    rewrite (proj2 (Z.ltb_ge _ 0)) by (unfold size; lia).
    rewrite <- Hlen. unfold size at 1 2. rewrite Nat2Z.id, Nat.sub_diag.
    rewrite firstn_all. cbn [replicate bind]. rewrite app_nil_r.
    assert (forall var, var ∈ shuffled <-> var ∈ active_pool g) as Hsame.
    { intros var. by rewrite Hperm. }
    assert (Forall (fun var => 0 <= var < size (variables (model_proto_ g)))
                   shuffled) as Hall.
    { apply Forall_forall. intros var Hin%Hsame.
      by apply (elem_of_active_pool g Hok) in Hin as [? _]. }
    rewrite FixGivenPosition_Ok; [|by rewrite Hmodel|done].
    rewrite Hmodel. f_equal. by apply restricted_model_ext.
  - intros Hfocus i v s Hv Hs. unfold restricted_model in Hv.
    cbn [variables] in Hv. rewrite list_lookup_imap in Hv.
    destruct (variables model !! i) as [v0|] eqn:Hv0; [|discriminate].
    injection Hv as <-. unfold restrict_variable.
    rewrite bool_decide_eq_true_2.
    + cbn [domain]. unfold solution_at. by rewrite Hs.
    + unfold active_pool. rewrite Hfocus, Hmodel. apply elem_of_seqZ.
      apply lookup_lt_Some in Hv0. unfold size. lia.
Qed.

(** X12. On an incumbent whose number of values is not the number of
    variables, the generators abort on the size check of
    [FixGivenPosition]: the simple generator for every difficulty in
    [[0, 1]], and the graph generators whenever the target size is
    strictly between [0] and the number of active variables, after their
    walk is over. *)
Theorem Generate_aborts_on_other_size
    (initial_solution : CpSolverResponse) (seed : Z) (difficulty : double) :
  size (solution initial_solution) <> size (variables model) ->
  size (variables model) <= INT_MAX ->
  in_unit_interval difficulty ->
  SimpleNeighborhoodGenerator_Generate g initial_solution seed difficulty
  = Fail CheckFailure /\
  forall target,
    target_size g difficulty = Ok target ->
    0 < target < num_active_vars g ->
    VariableGraphNeighborhoodGenerator_Generate g initial_solution seed
      difficulty = Fail CheckFailure /\
    (constraints model <> [] ->
     ConstraintGraphNeighborhoodGenerator_Generate g initial_solution seed
       difficulty = Fail CheckFailure).
Proof.
  intros Hsz Hmax Hd. split.
  - destruct (Simple_fixed_variables_spec seed difficulty Hmax Hd)
      as (t & fixed & _ & Hfixed & _).
    unfold SimpleNeighborhoodGenerator_Generate. rewrite Hfixed. cbn [bind].
    apply FixGivenPosition_size_mismatch. by rewrite Hmodel.
  - intros target Ht Hrange. split.
    + destruct (VariableGraph_Generate_walks initial_solution seed difficulty
                  target Ht Hrange) as (st & mask & _ & _ & Hlen & ->).
      by apply RelaxGivenVariables_size_mismatch.
    + intros Hcts.
      destruct (ConstraintGraph_Generate_walks initial_solution seed difficulty
                  target Ht Hrange Hcts) as (st & _ & Hlen & ->).
      by apply RelaxGivenVariables_size_mismatch.
Qed.

(** X13. On a model without variables every difficulty in [[0, 1]] gives the
    target size [0], which is the number of active variables: both graph
    generators return the model, whatever the incumbent and the seed. *)
Theorem graph_generators_return_model_without_variables
    (initial_solution : CpSolverResponse) (seed : Z) (difficulty : double) :
  variables model = [] ->
  in_unit_interval difficulty ->
  VariableGraphNeighborhoodGenerator_Generate g initial_solution seed difficulty
  = Ok model /\
  ConstraintGraphNeighborhoodGenerator_Generate g initial_solution seed
    difficulty = Ok model.
Proof.
  intros Hnil Hd. destruct num_active_vars_range as [Hrange _].
  rewrite Hnil in Hrange. change (size []) with 0 in Hrange.
  destruct (target_size_in_range difficulty) as (target & Ht & Htr);
    [by rewrite Hnil|done|].
  assert (target = num_active_vars g) as -> by lia.
  unfold VariableGraphNeighborhoodGenerator_Generate,
    ConstraintGraphNeighborhoodGenerator_Generate.
  rewrite Ht. cbn [bind]. by rewrite Z.eqb_refl, Hmodel.
Qed.

(** ** What the two walks relax *)

(** X14. On a non-empty pool the walk of the variable-graph generator
    returns for every target.  Its relaxed list starts with the first
    variable, which is drawn from the pool, lists no variable twice and has
    between [1] and [max 2 target] entries, so at most [target] of them for
    a target of [2] or more; each entry is a variable of the pool that the
    first variable reaches through variables that share a constraint. *)
Theorem VariableGraph_walk_bounds (seed target : Z) :
  1 <= num_active_vars g ->
  exists st first,
    VariableGraph_walk g seed target = Ok st /\
    first ∈ active_pool g /\
    head (relaxed_variables st) = Some first /\
    NoDup (relaxed_variables st) /\
    1 <= size (relaxed_variables st) <= Z.max 2 target /\
    forall var, var ∈ relaxed_variables st ->
                var ∈ active_pool g /\ rtc (shares_constraint g) first var.
Proof.
  intros Hact.
  destruct (VariableGraph_walk_spec g Hok seed target Hact)
    as (st & first & Hwalk & Hfirst & (_ & Hnd & Hhd & Hvis & Hrel) & _ & Hsz).
  pose proof Hfirst as [_ Hactive]%(elem_of_active_pool g Hok).
  assert (Hhead : head (relaxed_variables st) = Some first).
  { rewrite Hrel. destruct (visited_variables st) as [|x l]; [discriminate|].
    injection Hhd as ->. rewrite filter_cons. by rewrite decide_True. }
  exists st, first. split; [done|]. split; [done|]. split; [done|].
  split; [rewrite Hrel; by apply NoDup_filter|]. split.
  - split; [|done]. destruct (relaxed_variables st); [discriminate|].
    unfold size. cbn [length]. lia.
  - intros var Hin. rewrite Hrel in Hin.
    apply list_elem_of_filter in Hin as [Ha Hin].
    destruct (Hvis var Hin) as (Hr & _ & Hreach).
    split; [by apply (elem_of_active_pool g Hok)|done].
Qed.

(** X15. When the walk of the variable-graph generator returns fewer
    relaxed variables than the target, it has exhausted the component of
    its first variable: the relaxed variables are exactly the active
    variables that the first variable reaches through variables that share
    a constraint. *)
Theorem VariableGraph_walk_exhausts_component (seed target : Z)
    (st : variable_walk_state) :
  VariableGraph_walk g seed target = Ok st ->
  size (relaxed_variables st) < target ->
  exists first,
    head (relaxed_variables st) = Some first /\
    forall var, var ∈ relaxed_variables st <->
                active g var /\ rtc (shares_constraint g) first var.
Proof. apply (VariableGraph_walk_complete g Hok). Qed.

(** X16. On a model with a constraint the walk of the constraint-graph
    generator returns for every target.  Its counter of relaxed variables is
    the number of active variables that it has visited and never exceeds the
    target, and every visited variable is used by a constraint that the
    first constraint reaches through constraints that share a variable. *)
Theorem ConstraintGraph_walk_bounds (seed target : Z) :
  constraints model <> [] ->
  exists st start,
    ConstraintGraph_walk g seed target = Ok st /\
    0 <= start < size (constraints model) /\
    num_relaxed_variables st
    = size (filter (active g) (relaxed_set (visited st))) /\
    num_relaxed_variables st <= Z.max 0 target /\
    forall var, var ∈ relaxed_set (visited st) ->
                exists ct, rtc (shares_variable g) start ct /\ uses g ct var.
Proof.
  intros Hne. rewrite <- Hmodel in Hne.
  destruct (ConstraintGraph_walk_spec g Hok seed target Hne)
    as (st & start & Hwalk & Hstart
        & (_ & _ & Hvis & vis & Hnd & Hmark & Hcount) & Hnum).
  exists st, start. split; [done|]. split.
  { unfold size in *. rewrite (constraint_to_var_length g Hok) in Hstart.
    by rewrite <- Hmodel. }
  split; [|split; [done|]].
  - assert (Hperm : filter (active g) (relaxed_set (visited st))
                    ≡ₚ filter (active g) vis).
    { apply NoDup_Permutation.
      - apply NoDup_filter. unfold relaxed_set. apply NoDup_filter, NoDup_seqZ.
      - by apply NoDup_filter.
      - intros var. rewrite !list_elem_of_filter, elem_of_relaxed_set, Hmark.
        done. }
    unfold size in *. by rewrite Hperm.
  - intros var Hin%elem_of_relaxed_set. by apply Hvis.
Qed.

(** X17. When the walk of the constraint-graph generator ends with its
    counter below the target, its queue is empty and it has exhausted the
    component of its first constraint: the visited variables are exactly the
    variables used by the constraints that the first constraint reaches
    through constraints that share a variable. *)
Theorem ConstraintGraph_walk_exhausts_component (seed target : Z)
    (st : constraint_walk_state) :
  ConstraintGraph_walk g seed target = Ok st ->
  num_relaxed_variables st < target ->
  exists start,
    0 <= start < size (constraints model) /\
    forall var, var ∈ relaxed_set (visited st) <->
                exists ct, rtc (shares_variable g) start ct /\ uses g ct var.
Proof.
  intros Hwalk Hshort.
  destruct (ConstraintGraph_walk_complete g Hok seed target st Hwalk Hshort)
    as (start & Hstart & Hvis).
  exists start. split; [by rewrite <- Hmodel|].
  intros var. by rewrite elem_of_relaxed_set.
Qed.

Lemma filter_ext_elem_of {A : Type} (P Q : A -> Prop)
    `{forall x, Decision (P x)} `{forall x, Decision (Q x)} (l : list A) :
  (forall x, x ∈ l -> (P x <-> Q x)) -> filter P l = filter Q l.
Proof.
  induction l as [|x l IH]; intros Hext; [done|].
  rewrite !filter_cons.
  assert (filter P l = filter Q l) as ->.
  { apply IH. intros y Hy. apply Hext. by apply list_elem_of_further. }
  pose proof (Hext x (list_elem_of_here x l)) as Hx.
  destruct (decide (P x)), (decide (Q x)); tauto.
Qed.

(** X18. [RelaxGivenVariables] reads the entries of the mask of the active
    variables only: two masks with one entry per variable that agree on
    the active variables give the same outcome.  With the focus on the
    decision variables, the entries of the other variables are ignored. *)
Theorem RelaxGivenVariables_reads_the_active_entries
    (initial_solution : CpSolverResponse) (mask1 mask2 : list bool) :
  length mask1 = length (variables model) ->
  length mask2 = length (variables model) ->
  (forall var, var ∈ active_pool g ->
               mask1 !! Z.to_nat var = mask2 !! Z.to_nat var) ->
  RelaxGivenVariables g initial_solution mask1
  = RelaxGivenVariables g initial_solution mask2.
Proof.
  intros Hlen1 Hlen2 Hagree. unfold RelaxGivenVariables.
  rewrite !(fixed_variables_of_Ok g Hok) by (by rewrite Hmodel).
  cbn [bind]. f_equal. apply filter_ext_elem_of.
  intros var Hin. unfold marked. by rewrite (Hagree var Hin).
Qed.

(** The simple generator fixes a prefix of its shuffled pool. *)
Lemma Simple_fixed_variables_take (seed : Z) (difficulty : double)
    (fixed_variables : list Z) :
  size (variables model) <= INT_MAX ->
  in_unit_interval difficulty ->
  Simple_fixed_variables g seed difficulty = Ok fixed_variables ->
  fixed_variables
  = take (length fixed_variables)
         (shuffle (active_pool g) (seed_engine seed)).1.
Proof.
  intros Hmax Hd H. unfold Simple_fixed_variables in H.
  fold (active_pool g) in H.
  pose proof (shuffle_Permutation (active_pool g) (seed_engine seed)) as Hperm.
  destruct (shuffle (active_pool g) (seed_engine seed)) as [shuffled rnd].
  cbn [fst] in *.
  inv_bind H as target Ht.
  pose proof size_active_pool_le as Hle.
  assert (size shuffled = size (active_pool g)) as Hlen.
  { unfold size. by rewrite <- Hperm. }
  destruct (ceil_one_minus_mul difficulty (size shuffled) Hd)
    as (t & Ht' & Hrange); [unfold size in *; lia|].
  assert (t = target) as -> by congruence.
  unfold resize in H.
  rewrite (proj2 (Z.ltb_ge target 0)) in H by lia.
  injection H as <-.
  replace (Z.to_nat target - length shuffled)%nat with 0%nat
    by (unfold size in *; lia).
  change (replicate 0 0) with (@nil Z). rewrite app_nil_r, length_take.
  f_equal. unfold size in *. lia.
Qed.

(** X19. For one seed the simple generator shuffles its pool in one way,
    whatever the difficulty: of two calls with difficulties in [[0, 1]],
    the one that fixes fewer variables fixes a prefix of the list of the
    other, so every variable that the other relaxes it relaxes too. *)
Theorem Simple_neighborhoods_of_a_seed_are_nested (seed : Z)
    (difficulty1 difficulty2 : double) (fixed1 fixed2 : list Z) :
  size (variables model) <= INT_MAX ->
  in_unit_interval difficulty1 -> in_unit_interval difficulty2 ->
  Simple_fixed_variables g seed difficulty1 = Ok fixed1 ->
  Simple_fixed_variables g seed difficulty2 = Ok fixed2 ->
  (length fixed1 <= length fixed2)%nat ->
  exists rest, fixed2 = fixed1 ++ rest.
Proof.
  intros Hmax Hd1 Hd2 H1 H2 Hle.
  apply (Simple_fixed_variables_take seed difficulty1 fixed1 Hmax Hd1) in H1.
  apply (Simple_fixed_variables_take seed difficulty2 fixed2 Hmax Hd2) in H2.
  set (l := (shuffle (active_pool g) (seed_engine seed)).1) in *.
  set (n1 := length fixed1) in *. set (n2 := length fixed2) in *.
  clearbody n1 n2 l. subst fixed1 fixed2.
  exists (drop n1 (take n2 l)).
  rewrite <- (take_drop n1 (take n2 l)) at 1. f_equal.
  rewrite take_take. f_equal. lia.
Qed.

(** X21. With the focus off and target size [1], the variable-graph walk
    relaxes two variables whenever its first variable shares a constraint
    with another variable: the first variable and one of these neighbours,
    which is appended before the size of the relaxed list is compared with
    the target.  It relaxes the first variable alone exactly when no other
    variable shares a constraint with it. *)
Theorem VariableGraph_walk_overshoots_target_one (seed : Z)
    (st : variable_walk_state) :
  focus_on_decision_variables_ g = false ->
  VariableGraph_walk g seed 1 = Ok st ->
  exists first,
    head (relaxed_variables st) = Some first /\
    ((exists v, v <> first /\ shares_constraint g first v) ->
     exists v, v <> first /\ shares_constraint g first v /\
               relaxed_variables st = [first; v]) /\
    (~ (exists v, v <> first /\ shares_constraint g first v) ->
     relaxed_variables st = [first]).
Proof.
  intros Hfocus Hwalk.
  exact (VariableGraph_walk_target_one g Hok seed st Hfocus Hwalk).
Qed.
End Generator.

(** C8. In a memory that holds the generator object, a call of [Generate]
    of each of the three generators returns, in an object that did not exist
    before the call, the model that [Generate] computes as a function of the
    members of the generator, the incumbent, the seed and the difficulty,
    and fails as that function fails.  The call leaves the generator object
    with its model, its incidence tables and its decision variables, and
    every other object of the memory, as they are.  A call of
    [FixGivenPosition] does the same for its argument, which it copies into
    its by-value parameter: the argument keeps its value, also when it is
    the model of the generator.  Hence a second call of [Generate] with the
    same incumbent, seed and difficulty, on the memory that the first call
    has left, returns another object with the same model, and the object of
    the first call keeps its value. *)
Theorem Generate_is_pure (class : generator_class) (mem : memory)
    (initial_solution : CpSolverResponse) (seed : Z) (difficulty : double)
    (variables_to_fix : list Z) (argument : proto_place) :
  match Generate class (this_ mem) initial_solution seed difficulty with
  | Ok restricted =>
      exists l mem',
        Generate_in_memory class initial_solution seed difficulty mem
        = Ok (l, mem') /\
        protos mem !! l = None /\
        protos mem' !! l = Some restricted /\
        unchanged mem mem'
  | Fail e =>
      Generate_in_memory class initial_solution seed difficulty mem = Fail e
  end /\
  (forall model_proto,
     read_proto argument mem = Ok model_proto ->
     match FixGivenPosition initial_solution variables_to_fix model_proto with
     | Ok restricted =>
         exists l mem',
           call_FixGivenPosition initial_solution variables_to_fix argument mem
           = Ok (l, mem') /\
           protos mem !! l = None /\
           protos mem' !! l = Some restricted /\
           unchanged mem mem' /\
           read_proto argument mem' = Ok model_proto
     | Fail e =>
         call_FixGivenPosition initial_solution variables_to_fix argument mem
         = Fail e
     end) /\
  (forall l1 mem1 l2 mem2,
     Generate_in_memory class initial_solution seed difficulty mem
     = Ok (l1, mem1) ->
     Generate_in_memory class initial_solution seed difficulty mem1
     = Ok (l2, mem2) ->
     l1 <> l2 /\
     protos mem2 !! l2 = protos mem1 !! l1 /\
     protos mem2 !! l1 = protos mem1 !! l1).
Proof.
  split; [|split].
  - pose proof (Generate_in_memory_spec class initial_solution seed difficulty
                  mem) as Hspec.
    destruct (Generate class (this_ mem) initial_solution seed difficulty)
      as [restricted|e]; [|exact Hspec].
    destruct Hspec as [new_vectors Hrun]. eexists _, _.
    split; [exact Hrun|]. split; [by apply lookup_ge_None_2|].
    split; [apply lookup_at_end|apply unchanged_extended].
  - intros model_proto Hread.
    rewrite (call_FixGivenPosition_spec _ _ _ _ model_proto Hread).
    destruct (FixGivenPosition initial_solution variables_to_fix model_proto)
      as [restricted|e]; [|reflexivity].
    cbn [bind]. eexists _, _. split; [reflexivity|].
    split; [by apply lookup_ge_None_2|]. split; [apply lookup_at_end|].
    split.
    + split; [done|]. cbn [with_protos protos vectors].
      split; [|done]. intros l0 m Hl0. by apply lookup_app_l_Some.
    + destruct argument as [|l0]; [exact Hread|].
      cbn [read_proto with_protos protos] in Hread |- *.
      apply at_Ok in Hread as [_ Hl0]. rewrite Nat2Z.id in Hl0.
      apply at_of_nat. by apply lookup_app_l_Some.
  - intros l1 mem1 l2 mem2 Hrun1 Hrun2.
    pose proof (Generate_in_memory_spec class initial_solution seed difficulty
                  mem) as Hspec1.
    destruct (Generate class (this_ mem) initial_solution seed difficulty)
      as [restricted|e] eqn:Hpure; [|congruence].
    destruct Hspec1 as [new_vectors1 Hspec1].
    rewrite Hrun1 in Hspec1. injection Hspec1 as -> ->.
    pose proof (Generate_in_memory_spec class initial_solution seed difficulty
                  {| this_ := this_ mem;
                     protos := protos mem ++ [restricted];
                     vectors := vectors mem ++ new_vectors1 |}) as Hspec2.
    cbn [this_ protos vectors] in Hspec2. rewrite Hpure in Hspec2.
    destruct Hspec2 as [new_vectors2 Hspec2].
    rewrite Hrun2 in Hspec2. injection Hspec2 as -> ->.
    cbn [protos]. rewrite length_app. cbn [length].
    split; [lia|].
    rewrite lookup_at_end.
    replace (length (protos mem) + 1)%nat
      with (length (protos mem ++ [restricted]))
      by (rewrite length_app; cbn; lia).
    rewrite lookup_at_end. split; [done|].
    apply lookup_app_l_Some, lookup_at_end.
Qed.

Lemma Permutation_singleton_eq (x : Z) (l : list Z) :
  Permutation [x] l -> l = [x].
Proof. intros H. symmetry. by apply Permutation_singleton_l. Qed.

(** C7. Five variables, constraints over [{0,1}], [{1,2}] and [{3,4}],
    incumbent [[1,2,3,4,5]], focus off, difficulty 0.4: the target size is 2,
    and every run of the variable-graph generator whose first draw is
    variable 0 relaxes exactly [0] and [1], fixes variables 2, 3 and 4 to
    the single values 3, 4 and 5, and hints all five variables with the
    incumbent values. *)
Theorem VariableGraph_scenario (c0 c1 c2 : ConstraintProto)
    (v0 v1 v2 v3 v4 : IntegerVariableProto)
    (hint : option PartialVariableAssignment)
    (g : NeighborhoodGenerator) (seed : Z) :
  UsedVariables c0 = [0; 1] ->
  UsedVariables c1 = [1; 2] ->
  UsedVariables c2 = [3; 4] ->
  new_NeighborhoodGenerator
    {| variables := [v0; v1; v2; v3; v4];
       constraints := [c0; c1; c2];
       search_strategy := [];
       has_solution_hint := hint |} false = Ok g ->
  (uniform_int 0 4 (seed_engine seed)).1 = 0 ->
  target_size g difficulty_0_4 = Ok 2 /\
  (exists st, VariableGraph_walk g seed 2 = Ok st /\
              relaxed_variables st = [0; 1]) /\
  VariableGraphNeighborhoodGenerator_Generate g
    {| solution := [1; 2; 3; 4; 5] |} seed difficulty_0_4
  = Ok {| variables :=
            [v0; v1;
             {| name := name v2; domain := [3; 3] |};
             {| name := name v3; domain := [4; 4] |};
             {| name := name v4; domain := [5; 5] |}];
          constraints := [c0; c1; c2];
          search_strategy := [];
          has_solution_hint :=
            Some {| vars := [0; 1; 2; 3; 4]; values := [1; 2; 3; 4; 5] |} |}.
Proof.
  intros Hc0 Hc1 Hc2 Hnew Hstart.
  unfold new_NeighborhoodGenerator, enumerate in Hnew.
  cbn [variables constraints search_strategy] in Hnew.
  change (zip (seqZ 0 (size [c0; c1; c2])) [c0; c1; c2])
    with [(0, c0); (1, c1); (2, c2)] in Hnew.
  cbn [foldM] in Hnew. unfold add_constraint in Hnew. cbn [fst snd] in Hnew.
  rewrite Hc0, Hc1, Hc2 in Hnew. vm_compute in Hnew.
  injection Hnew as <-.
  destruct (uniform_int 0 4 (seed_engine seed)) as [r rnd] eqn:Hdraw.
  cbn [fst] in Hstart. subst r.
  pose proof (shuffle_Permutation [1] rnd) as Hperm.
  destruct (shuffle [1] rnd) as [rv rnd'] eqn:Hshuffle. cbn [fst] in Hperm.
  apply Permutation_singleton_eq in Hperm. subst rv.
  match goal with
  | |- context [VariableGraph_walk ?G seed 2] =>
      assert (Hwalk : VariableGraph_walk G seed 2
                      = Ok {| used_variables := [true; true; false; false; false];
                              visited_variables := [0; 1];
                              relaxed_variables := [0; 1];
                              random := rnd' |})
  end.
  { unfold VariableGraph_walk, uniform_int_distribution.
    match goal with
    | |- context [uniform_int 0 ?b _] => change b with 4
    end.
    rewrite Hdraw. lazy -[shuffle]. rewrite Hshuffle. reflexivity. }
  split; [by vm_compute|]. split; [by eexists|].
  unfold VariableGraphNeighborhoodGenerator_Generate.
  match goal with
  | |- context [target_size ?G difficulty_0_4] =>
      change (target_size G difficulty_0_4) with (@Ok Z 2)
  end.
  cbn [bind]. rewrite Hwalk. reflexivity.
Qed.

(** C6 at target size 1.  On the model of the scenario above with
    difficulty 0.2 the target size is 1, with [0 < 1 < 5], and the run of
    the variable-graph generator whose first draw is variable 0 relaxes
    variables 0 and 1: the relaxed sequence starts with the first variable,
    and its size is compared with the target only after the next variable
    has been appended. *)
Theorem VariableGraph_relaxes_two_for_target_one (c0 c1 c2 : ConstraintProto)
    (v0 v1 v2 v3 v4 : IntegerVariableProto)
    (hint : option PartialVariableAssignment)
    (g : NeighborhoodGenerator) (seed : Z) :
  UsedVariables c0 = [0; 1] ->
  UsedVariables c1 = [1; 2] ->
  UsedVariables c2 = [3; 4] ->
  new_NeighborhoodGenerator
    {| variables := [v0; v1; v2; v3; v4];
       constraints := [c0; c1; c2];
       search_strategy := [];
       has_solution_hint := hint |} false = Ok g ->
  (uniform_int 0 4 (seed_engine seed)).1 = 0 ->
  target_size g difficulty_0_2 = Ok 1 /\
  num_active_vars g = 5 /\
  (exists st, VariableGraph_walk g seed 1 = Ok st /\
              relaxed_variables st = [0; 1]) /\
  VariableGraphNeighborhoodGenerator_Generate g
    {| solution := [1; 2; 3; 4; 5] |} seed difficulty_0_2
  = Ok {| variables :=
            [v0; v1;
             {| name := name v2; domain := [3; 3] |};
             {| name := name v3; domain := [4; 4] |};
             {| name := name v4; domain := [5; 5] |}];
          constraints := [c0; c1; c2];
          search_strategy := [];
          has_solution_hint :=
            Some {| vars := [0; 1; 2; 3; 4]; values := [1; 2; 3; 4; 5] |} |}.
Proof.
  intros Hc0 Hc1 Hc2 Hnew Hstart.
  unfold new_NeighborhoodGenerator, enumerate in Hnew.
  cbn [variables constraints search_strategy] in Hnew.
  change (zip (seqZ 0 (size [c0; c1; c2])) [c0; c1; c2])
    with [(0, c0); (1, c1); (2, c2)] in Hnew.
  cbn [foldM] in Hnew. unfold add_constraint in Hnew. cbn [fst snd] in Hnew.
  rewrite Hc0, Hc1, Hc2 in Hnew. vm_compute in Hnew.
  injection Hnew as <-.
  destruct (uniform_int 0 4 (seed_engine seed)) as [r rnd] eqn:Hdraw.
  cbn [fst] in Hstart. subst r.
  pose proof (shuffle_Permutation [1] rnd) as Hperm.
  destruct (shuffle [1] rnd) as [rv rnd'] eqn:Hshuffle. cbn [fst] in Hperm.
  apply Permutation_singleton_eq in Hperm. subst rv.
  match goal with
  | |- context [VariableGraph_walk ?G seed 1] =>
      assert (Hwalk : VariableGraph_walk G seed 1
                      = Ok {| used_variables := [true; true; false; false; false];
                              visited_variables := [0; 1];
                              relaxed_variables := [0; 1];
                              random := rnd' |})
  end.
  { unfold VariableGraph_walk, uniform_int_distribution.
    match goal with
    | |- context [uniform_int 0 ?b _] => change b with 4
    end.
    rewrite Hdraw. lazy -[shuffle]. rewrite Hshuffle. reflexivity. }
  split; [by vm_compute|]. split; [by vm_compute|]. split; [by eexists|].
  unfold VariableGraphNeighborhoodGenerator_Generate.
  match goal with
  | |- context [target_size ?G difficulty_0_2] =>
      change (target_size G difficulty_0_2) with (@Ok Z 1)
  end.
  cbn [bind]. rewrite Hwalk. reflexivity.
Qed.

(** ** Further properties of FixGivenPosition and of the three generators *)

(** X1. [FixGivenPosition] returns a model exactly when the incumbent has one
    value per variable of the model and every index to fix is the index of a
    variable.  When the sizes differ the call aborts on [CHECK_EQ], whatever
    the indices are; when they agree and an index is not the index of a
    variable, the call accesses a variable outside the model. *)
Theorem FixGivenPosition_returns_iff (response : CpSolverResponse)
    (variables_to_fix : list Z) (model_proto : CpModelProto) :
  ((exists restricted,
      FixGivenPosition response variables_to_fix model_proto = Ok restricted)
   <-> size (solution response) = size (variables model_proto) /\
       Forall (fun var => 0 <= var < size (variables model_proto))
              variables_to_fix) /\
  (size (solution response) <> size (variables model_proto) ->
   FixGivenPosition response variables_to_fix model_proto
   = Fail CheckFailure) /\
  (size (solution response) = size (variables model_proto) ->
   ~ Forall (fun var => 0 <= var < size (variables model_proto))
            variables_to_fix ->
   FixGivenPosition response variables_to_fix model_proto
   = Fail UndefinedBehavior).
Proof.
  split; [split|split].
  - intros [restricted H]. apply FixGivenPosition_inv in H. tauto.
  - intros [Hsz Hall]. eexists. by apply FixGivenPosition_Ok.
  - apply FixGivenPosition_size_mismatch.
  - intros Hsz Hall. apply FixGivenPosition_index_outside; [done|].
    apply not_Forall_Exists in Hall; [|apply _].
    eapply Exists_impl; [exact Hall|]. by intros var Hvar.
Qed.

(** X2. The outcome of [FixGivenPosition] depends on the set of the indices
    to fix only: two lists with the same elements, in any order and with any
    repetitions, give the same model or the same failure. *)
Theorem FixGivenPosition_same_indices (response : CpSolverResponse)
    (l1 l2 : list Z) (model_proto : CpModelProto) :
  (forall var, var ∈ l1 <-> var ∈ l2) ->
  FixGivenPosition response l1 model_proto
  = FixGivenPosition response l2 model_proto.
Proof.
  intros Hsame.
  destruct (decide (size (solution response) = size (variables model_proto)))
    as [Hsz|Hsz].
  2:{ by rewrite !FixGivenPosition_size_mismatch. }
  destruct (decide (Forall (fun var => 0 <= var < size (variables model_proto))
                           l1)) as [Hall|Hall].
  - assert (Forall (fun var => 0 <= var < size (variables model_proto)) l2)
      as Hall2.
    { rewrite Forall_forall in Hall |- *. intros var Hvar.
      by apply Hall, Hsame. }
    rewrite !FixGivenPosition_Ok by done. f_equal.
    by apply restricted_model_ext.
  - apply not_Forall_Exists in Hall; [|apply _].
    assert (Exists (fun var => ~ 0 <= var < size (variables model_proto)) l2)
      as Hex2.
    { apply Exists_exists in Hall as (var & Hin & Hvar).
      apply Exists_exists. exists var. split; [by apply Hsame|done]. }
    rewrite !FixGivenPosition_index_outside; [done..|].
    eapply Exists_impl; [exact Hall|]. by intros var Hvar.
Qed.

(** X3. Fixing on top of a model that [FixGivenPosition] returned, with the
    same incumbent, is fixing the two lists at once; in particular fixing
    the same indices again returns the same model. *)
Theorem FixGivenPosition_twice (response : CpSolverResponse)
    (l1 l2 : list Z) (model_proto restricted : CpModelProto) :
  FixGivenPosition response l1 model_proto = Ok restricted ->
  FixGivenPosition response l2 restricted
  = FixGivenPosition response (l1 ++ l2) model_proto /\
  FixGivenPosition response l1 restricted = Ok restricted.
Proof.
  intros H. apply FixGivenPosition_inv in H as (Hsz & Hall & ->).
  assert (size (variables (restricted_model response l1 model_proto))
          = size (variables model_proto)) as Hsz'.
  { unfold size. by rewrite restricted_model_variables_length. }
  split.
  - destruct (decide (Forall (fun var => 0 <= var < size (variables model_proto))
                             l2)) as [Hall2|Hall2].
    + rewrite !FixGivenPosition_Ok;
        [|done|by apply Forall_app|by rewrite Hsz'|by rewrite Hsz'].
      by rewrite restricted_model_app.
    + apply not_Forall_Exists in Hall2; [|apply _].
      rewrite !FixGivenPosition_index_outside; [done|done| |by rewrite Hsz'|].
      * apply Exists_app. right.
        eapply Exists_impl; [exact Hall2|]. by intros var Hvar.
      * rewrite Hsz'. eapply Exists_impl; [exact Hall2|]. by intros var Hvar.
  - rewrite FixGivenPosition_Ok; [|by rewrite Hsz'|by rewrite Hsz'].
    rewrite restricted_model_app. f_equal. apply restricted_model_ext.
    intros var. rewrite elem_of_app. tauto.
Qed.

(** What a generator may return: the model itself or one of its
    restrictions on the incumbent. *)
Lemma Generate_returns (g : NeighborhoodGenerator)
    (initial_solution : CpSolverResponse) (seed : Z) (difficulty : double)
    (restricted : CpModelProto) :
  SimpleNeighborhoodGenerator_Generate g initial_solution seed difficulty
  = Ok restricted \/
  VariableGraphNeighborhoodGenerator_Generate g initial_solution seed difficulty
  = Ok restricted \/
  ConstraintGraphNeighborhoodGenerator_Generate g initial_solution seed
    difficulty = Ok restricted ->
  restricted = model_proto_ g \/
  size (solution initial_solution) = size (variables (model_proto_ g)) /\
  exists fixed_variables,
    restricted = restricted_model initial_solution fixed_variables
                   (model_proto_ g).
Proof.
  intros [H|[H|H]].
  - unfold SimpleNeighborhoodGenerator_Generate in H.
    inv_bind H as fixed Hfixed.
    apply FixGivenPosition_inv in H as (Hsz & _ & ->). eauto.
  - unfold VariableGraphNeighborhoodGenerator_Generate in H.
    inv_bind H as target Htarget.
    destruct (target =? num_active_vars g); [injection H as <-; by left|].
    inv_bind H as u Hcheck. inv_bind H as st Hwalk. inv_bind H as mask Hmask.
    unfold RelaxGivenVariables in H. inv_bind H as fixed Hfixed.
    apply FixGivenPosition_inv in H as (Hsz & _ & ->). eauto.
  - unfold ConstraintGraphNeighborhoodGenerator_Generate in H.
    inv_bind H as target Htarget.
    destruct (target =? num_active_vars g); [injection H as <-; by left|].
    inv_bind H as u Hcheck. inv_bind H as st Hwalk.
    unfold RelaxGivenVariables in H. inv_bind H as fixed Hfixed.
    apply FixGivenPosition_inv in H as (Hsz & _ & ->). eauto.
Qed.

(** X4. Whatever the generator, the incumbent, the seed and the difficulty,
    a model returned by one of the three [Generate] methods has the
    constraints, the search strategies and the number of variables of the
    model of the generator; each of its variables keeps its name, and its
    domain is the one of the model or the single value of the incumbent. *)
Theorem Generate_only_restricts (g : NeighborhoodGenerator)
    (initial_solution : CpSolverResponse) (seed : Z) (difficulty : double)
    (restricted : CpModelProto) :
  SimpleNeighborhoodGenerator_Generate g initial_solution seed difficulty
  = Ok restricted \/
  VariableGraphNeighborhoodGenerator_Generate g initial_solution seed difficulty
  = Ok restricted \/
  ConstraintGraphNeighborhoodGenerator_Generate g initial_solution seed
    difficulty = Ok restricted ->
  constraints restricted = constraints (model_proto_ g) /\
  search_strategy restricted = search_strategy (model_proto_ g) /\
  length (variables restricted) = length (variables (model_proto_ g)) /\
  forall i v v',
    variables (model_proto_ g) !! i = Some v ->
    variables restricted !! i = Some v' ->
    name v' = name v /\
    (domain v' = domain v \/
     exists s, solution initial_solution !! i = Some s /\ domain v' = [s; s]).
Proof.
  intros H. apply Generate_returns in H as [->|(Hsz & fixed & ->)].
  - split; [done|]. split; [done|]. split; [done|].
    intros i v v' Hv Hv'. simplify_eq. eauto.
  - split; [done|]. split; [done|].
    split; [apply restricted_model_variables_length|].
    intros i v v' Hv Hv'. by eapply restricted_model_variable.
Qed.

(** [RelaxGivenVariables] fixes variables of the pool only. *)
Lemma fixed_variables_of_pool (g : NeighborhoodGenerator)
    (relaxed_variables : list bool) (fixed_variables : list Z) :
  fixed_variables_of g relaxed_variables = Ok fixed_variables ->
  forall var, var ∈ fixed_variables -> var ∈ active_pool g.
Proof.
  intros H.
  assert (foldM (add_if_not_relaxed relaxed_variables) (active_pool g) []
          = Ok fixed_variables) as Hfold.
  { unfold fixed_variables_of in H. unfold active_pool.
    by destruct (focus_on_decision_variables_ g). }
  eapply (foldM_invariant (fun acc => forall var, var ∈ acc -> var ∈ active_pool g)
            (fun var => var ∈ active_pool g));
    [|by apply Forall_forall|by intros var ?%elem_of_nil|exact Hfold].
  intros acc var acc' Hacc Hvar Hstep. unfold add_if_not_relaxed in Hstep.
  inv_bind Hstep as r Hr. injection Hstep as <-.
  destruct r; cbn [negb]; [done|].
  intros v [Hv| ->%list_elem_of_singleton]%elem_of_app; [by apply Hacc|done].
Qed.

(** X20. With the focus on the decision variables, a model returned by
    [RelaxGivenVariables] or by one of the two graph generators has every
    variable that is not a decision variable as the model has it: only
    decision variables are fixed, whatever the mask or the walk marks. *)
Theorem graph_generators_fix_decision_variables_only
    (g : NeighborhoodGenerator) (initial_solution : CpSolverResponse)
    (relaxed_variables : list bool) (seed : Z) (difficulty : double)
    (restricted : CpModelProto) :
  focus_on_decision_variables_ g = true ->
  RelaxGivenVariables g initial_solution relaxed_variables = Ok restricted \/
  VariableGraphNeighborhoodGenerator_Generate g initial_solution seed difficulty
  = Ok restricted \/
  ConstraintGraphNeighborhoodGenerator_Generate g initial_solution seed
    difficulty = Ok restricted ->
  forall i, Z.of_nat i ∉ decision_variables_ g ->
            variables restricted !! i = variables (model_proto_ g) !! i.
Proof.
  intros Hfocus H i Hi.
  assert (restricted = model_proto_ g \/
          exists mask, RelaxGivenVariables g initial_solution mask
                       = Ok restricted) as [->|[mask Hrelax]]; [|done|].
  { destruct H as [H|[H|H]]; [eauto| |].
    - unfold VariableGraphNeighborhoodGenerator_Generate in H.
      inv_bind H as target Htarget.
      destruct (target =? num_active_vars g); [injection H as <-; by left|].
      inv_bind H as u Hcheck. inv_bind H as st Hwalk.
      inv_bind H as mask Hmask. eauto.
    - unfold ConstraintGraphNeighborhoodGenerator_Generate in H.
      inv_bind H as target Htarget.
      destruct (target =? num_active_vars g); [injection H as <-; by left|].
      inv_bind H as u Hcheck. inv_bind H as st Hwalk. eauto. }
  unfold RelaxGivenVariables in Hrelax. inv_bind Hrelax as fixed Hfixed.
  apply FixGivenPosition_inv in Hrelax as (_ & _ & ->).
  unfold restricted_model. cbn [variables]. rewrite list_lookup_imap.
  destruct (variables (model_proto_ g) !! i) as [v|]; [|done].
  cbn. f_equal. unfold restrict_variable.
  rewrite bool_decide_eq_false_2; [done|].
  intros Hin. apply (fixed_variables_of_pool g _ _ Hfixed) in Hin.
  unfold active_pool in Hin. by rewrite Hfocus in Hin.
Qed.

(** ** Further properties of the constructor *)

(** X5. On a model whose constraints use indices of variables only and
    whose search strategies list indices of variables only, the constructor
    returns a generator of that model, with and without the focus: every
    access of its loops is inside its container, and [CHECK_GE] and
    [CHECK_LT] hold for every variable of every constraint. *)
Theorem new_NeighborhoodGenerator_returns (model : CpModelProto)
    (focus_on_decision_variables : bool) :
  Forall (fun ct => Forall (fun var => 0 <= var < size (variables model))
                           (UsedVariables ct)) (constraints model) ->
  Forall (fun s => Forall (fun var => 0 <= var < size (variables model))
                          (strategy_variables s)) (search_strategy model) ->
  exists g,
    new_NeighborhoodGenerator model focus_on_decision_variables = Ok g /\
    model_proto_ g = model.
Proof.
  intros Hcts Hstrat.
  destruct (new_NeighborhoodGenerator_defined model
              focus_on_decision_variables Hcts Hstrat) as [g Hg].
  exists g. split; [exact Hg|].
  by destruct (new_NeighborhoodGenerator_ok _ _ _ Hg) as (_ & ? & _).
Qed.

(** X6. In a generator that the constructor returned, [constraint_to_var_]
    lists for each constraint the variables it uses, [var_to_constraint_]
    has one entry per variable, and the two tables are transposes of each
    other: constraint [ct] is listed for variable [v] exactly when [v] is
    listed for constraint [ct]. *)
Theorem incidence_tables_are_transposes (model : CpModelProto)
    (focus_on_decision_variables : bool) (g : NeighborhoodGenerator) :
  new_NeighborhoodGenerator model focus_on_decision_variables = Ok g ->
  constraint_to_var_ g = map UsedVariables (constraints model) /\
  length (var_to_constraint_ g) = length (variables model) /\
  forall (v : nat) (ct : Z),
    (exists cts, var_to_constraint_ g !! v = Some cts /\ ct ∈ cts) <->
    0 <= ct /\
    exists ct_vars, constraint_to_var_ g !! Z.to_nat ct = Some ct_vars /\
                    Z.of_nat v ∈ ct_vars.
Proof.
  intros Hg.
  destruct (new_NeighborhoodGenerator_ok _ _ _ Hg) as (Hok & Hmodel & _).
  rewrite <- Hmodel.
  split; [apply (ok_constraint_to_var g Hok)|].
  split; [apply (ok_var_to_constraint_length g Hok)|].
  intros v ct.
  change (exists cts, var_to_constraint_ g !! v = Some cts /\ ct ∈ cts)
    with (lists_constraint (var_to_constraint_ g) v ct).
  rewrite (ok_var_to_constraint g Hok), (ok_constraint_to_var g Hok).
  split; intros [Hct H]; (split; [done|]).
  - destruct H as (c & Hc & Hin). exists (UsedVariables c).
    by rewrite list_lookup_fmap, Hc.
  - destruct H as (ct_vars & Hl & Hin). rewrite list_lookup_fmap in Hl.
    destruct (constraints (model_proto_ g) !! Z.to_nat ct) as [c|];
      [|discriminate].
    injection Hl as <-. eauto.
Qed.

(** X7. The decision variables of a generator that the constructor returned
    are the variables listed by the search strategies of the model, each of
    them once; [decision_variables_set_] marks exactly them; and the focus
    on the decision variables is on exactly when it was asked for and there
    is a decision variable. *)
Theorem decision_variables_are_strategy_variables (model : CpModelProto)
    (focus_on_decision_variables : bool) (g : NeighborhoodGenerator) :
  new_NeighborhoodGenerator model focus_on_decision_variables = Ok g ->
  NoDup (decision_variables_ g) /\
  (forall var, var ∈ decision_variables_ g <->
               exists s, s ∈ search_strategy model /\
                         var ∈ strategy_variables s) /\
  (forall var, var ∈ decision_variables_ g <->
               0 <= var /\
               decision_variables_set_ g !! Z.to_nat var = Some true) /\
  (focus_on_decision_variables_ g = true <->
   focus_on_decision_variables = true /\ decision_variables_ g <> []).
Proof.
  intros Hg.
  destruct (new_NeighborhoodGenerator_ok _ _ _ Hg) as (Hok & Hmodel & Hfocus).
  split; [apply (ok_decision_NoDup g Hok)|].
  split; [apply (new_NeighborhoodGenerator_decision_variables _ _ _ Hg)|].
  split; [apply (ok_decision_set g Hok)|].
  rewrite Hfocus, andb_true_iff, negb_true_iff, bool_decide_eq_false. done.
Qed.

(** X8. On a model whose search strategies list no variable, asking for
    the focus on the decision variables changes nothing: the constructor
    gives the same outcome with and without it. *)
Theorem focus_needs_a_decision_variable (model : CpModelProto) :
  (forall s, s ∈ search_strategy model -> strategy_variables s = []) ->
  new_NeighborhoodGenerator model true = new_NeighborhoodGenerator model false.
Proof.
  intros Hempty.
  destruct (new_NeighborhoodGenerator model false) as [g|e] eqn:Hfalse.
  - pose proof (new_NeighborhoodGenerator_decision_variables _ _ _ Hfalse)
      as Hdec.
    assert (decision_variables_ g = []) as Hnil.
    { apply elem_of_nil_inv. intros var (s & Hs & Hvar)%Hdec.
      rewrite (Hempty s Hs) in Hvar. by apply elem_of_nil in Hvar. }
    unfold new_NeighborhoodGenerator in Hfalse |- *.
    inv_bind Hfalse as tabs Htabs. inv_bind Hfalse as dec Hd.
    rewrite Htabs. cbn [bind]. rewrite Hd. cbn [bind].
    injection Hfalse as <-. cbn [decision_variables_] in Hnil.
    by rewrite Hnil.
  - unfold new_NeighborhoodGenerator in Hfalse |- *.
    destruct (foldM _ (enumerate (constraints model)) _) as [tabs|];
      [|exact Hfalse].
    cbn [bind] in Hfalse |- *.
    destruct (foldM add_search_strategy _ _) as [dec|]; [|exact Hfalse].
    discriminate.
Qed.
End Claims.

(** ** The concrete engine keeps the laws *)

Lemma lcg_uniform_range (a b s : Z) :
  a <= b -> a <= fst (lcg_uniform a b s) <= b.
Proof.
  intros Hab. unfold lcg_uniform. simpl.
  pose proof (Z.mod_pos_bound (lcg_next s / 2 ^ 33) (b - a + 1)). lia.
Qed.

Lemma pick_shuffle_Permutation (fuel : nat) (l : list Z) (s : Z) :
  length l = fuel -> Permutation l (fst (pick_shuffle fuel l s)).
Proof.
  revert l s. induction fuel as [|fuel IH]; intros l s Hlen.
  - destruct l; [constructor | discriminate].
  - destruct l as [|x l]; [discriminate|].
    cbn [pick_shuffle].
    destruct (lcg_uniform 0 (Z.of_nat (length (x :: l)) - 1) s) as [i s'] eqn:Hu.
    pose proof (lcg_uniform_range 0 (Z.of_nat (length (x :: l)) - 1) s) as Hr.
    rewrite Hu in Hr. cbn [fst] in Hr.
    assert (Hi : (Z.to_nat i < length (x :: l))%nat) by (cbn [length] in *; lia).
    destruct (lookup_lt_is_Some_2 (x :: l) (Z.to_nat i) Hi) as [y Hy].
    specialize (IH (delete (Z.to_nat i) (x :: l)) s').
    destruct (pick_shuffle fuel (delete (Z.to_nat i) (x :: l)) s') as [rest s''].
    cbn [fst] in *.
    rewrite (nth_lookup_Some _ _ x y Hy).
    rewrite (delete_Permutation (x :: l) (Z.to_nat i) y Hy).
    constructor. apply IH.
    rewrite length_delete by eauto. cbn [length] in *. lia.
Qed.

#[local] Instance lcg_laws : RandomEngineLaws lcg.
Proof.
  split.
  - exact lcg_uniform_range.
  - intros l r. exact (pick_shuffle_Permutation (length l) l r eq_refl).
Qed.

(** ** The scenario of the specification, evaluated *)

#[local] Existing Instance list_constraints.
#[local] Existing Instance lcg.

Lemma generator5_built : new_NeighborhoodGenerator model5 false = Ok generator5.
Proof. vm_compute. reflexivity. Defined.

Lemma generator4_built : new_NeighborhoodGenerator model4 true = Ok generator4.
Proof. vm_compute. reflexivity. Defined.

Example difficulty_0_4_is_2_over_5 :
  SFdiv prec emax (double_of_int 2) (double_of_int 5) = difficulty_0_4.
Proof. vm_compute. reflexivity. Qed.

Example difficulty_0_2_is_1_over_5 :
  SFdiv prec emax (double_of_int 1) (double_of_int 5) = difficulty_0_2.
Proof. vm_compute. reflexivity. Qed.

Example difficulty_0_5_is_1_over_2 :
  SFdiv prec emax (double_of_int 1) (double_of_int 2) = difficulty_0_5.
Proof. vm_compute. reflexivity. Qed.

Example difficulty_0_4_in_unit_interval : in_unit_interval difficulty_0_4.
Proof. repeat split; vm_compute; reflexivity. Defined.

Example difficulty_0_2_in_unit_interval : in_unit_interval difficulty_0_2.
Proof. repeat split; vm_compute; reflexivity. Qed.

Example difficulty_0_5_in_unit_interval : in_unit_interval difficulty_0_5.
Proof. repeat split; vm_compute; reflexivity. Qed.

Example zero_and_one_in_unit_interval :
  in_unit_interval (S754_zero false) /\ in_unit_interval double_one.
Proof. repeat split; vm_compute; reflexivity. Qed.

(** C1 as stated fails with the focus on: on [model4] with difficulty 0.5
    (target size 2 of 3 decision variables) the variable-graph generator
    relaxes the decision variables 2 and 1 and fixes variable 0; variable 3
    is in neither set, so the sizes sum to 3 and not to 4. *)
Lemma partition_fails_with_focus :
  new_NeighborhoodGenerator model4 true = Ok generator4 /\
  size (solution incumbent4) = size (variables model4) /\
  target_size generator4 difficulty_0_5 = Ok 2 /\
  exists st mask fixed,
    VariableGraph_walk generator4 1 2 = Ok st /\
    mask_of generator4 (relaxed_variables st) = Ok mask /\
    fixed_variables_of generator4 mask = Ok fixed /\
    VariableGraphNeighborhoodGenerator_Generate generator4 incumbent4 1
      difficulty_0_5
    = FixGivenPosition incumbent4 fixed model4 /\
    relaxed_set mask = [1; 2] /\ fixed = [0] /\
    (length (relaxed_set mask) + length fixed)%nat
    <> length (variables model4).
Proof.
  split; [exact generator4_built|]. split; [reflexivity|].
  split; [vm_compute; reflexivity|].
  exists (@Build_variable_walk_state lcg [false; true; true; true]
            [2; 3; 1] [2; 1] 11960119808228829710),
    [false; true; true; false], [0].
  split; [reflexivity|]. cbn [relaxed_variables].
  split; [vm_compute; reflexivity|]. split; [vm_compute; reflexivity|].
  split; [vm_compute; reflexivity|]. split; [vm_compute; reflexivity|].
  split; [reflexivity|]. vm_compute. discriminate.
Qed.

Lemma relaxed_and_fixed_variables_partition_witness :
  new_NeighborhoodGenerator model5 false = Ok generator5 /\
  exists fixed,
    fixed_variables_of generator5 [true; true; false; false; false] = Ok fixed /\
    (length (relaxed_set [true; true; false; false; false]) + length fixed)%nat
    = length (variables model5).
Proof.
  split; [exact generator5_built|].
  destruct (relaxed_and_fixed_variables_partition model5 false generator5
              generator5_built) as [H _].
  destruct (H [true; true; false; false; false] eq_refl)
    as (fixed & Hfixed & _ & _ & _ & Hsum).
  exists fixed. split; [exact Hfixed|]. apply Hsum. reflexivity.
Defined.

(** C2 as stated fails: with difficulty 0 both graph generators abort. *)
Lemma difficulty_zero_aborts :
  new_NeighborhoodGenerator model5 false = Ok generator5 /\
  size (solution incumbent5) = size (variables model5) /\
  0 < num_active_vars generator5 /\
  VariableGraphNeighborhoodGenerator_Generate generator5 incumbent5 1
    (S754_zero false) = Fail CheckFailure /\
  ConstraintGraphNeighborhoodGenerator_Generate generator5 incumbent5 1
    (S754_zero false) = Fail CheckFailure /\
  ~ (exists restricted,
       VariableGraphNeighborhoodGenerator_Generate generator5 incumbent5 1
         (S754_zero false) = Ok restricted).
Proof.
  split; [exact generator5_built|]. split; [reflexivity|].
  split; [reflexivity|]. split; [vm_compute; reflexivity|].
  split; [vm_compute; reflexivity|].
  intros [restricted H]. vm_compute in H. discriminate.
Qed.

Lemma graph_generators_abort_on_difficulty_zero_witness :
  new_NeighborhoodGenerator model5 false = Ok generator5 /\
  0 < num_active_vars generator5 /\
  size (variables model5) <= INT_MAX /\
  VariableGraphNeighborhoodGenerator_Generate generator5 incumbent5 1
    (S754_zero false) = Fail CheckFailure /\
  ConstraintGraphNeighborhoodGenerator_Generate generator5 incumbent5 1
    (S754_zero false) = Fail CheckFailure.
Proof.
  split; [exact generator5_built|]. split; [reflexivity|].
  split; [vm_compute; discriminate|].
  apply (graph_generators_abort_on_difficulty_zero model5 false generator5
           generator5_built incumbent5 1 false).
  - reflexivity.
  - vm_compute. discriminate.
Defined.

Lemma FixGivenPosition_restricts_witness :
  size (solution incumbent5) = size (variables model5) /\
  exists restricted,
    FixGivenPosition incumbent5 [2; 3; 4] model5 = Ok restricted /\
    vars (solution_hint restricted) = [0; 1; 2; 3; 4] /\
    values (solution_hint restricted) = [1; 2; 3; 4; 5] /\
    constraints restricted = constraints model5.
Proof.
  split; [reflexivity|].
  destruct (FixGivenPosition_restricts incumbent5 [2; 3; 4] model5)
    as (restricted & E & _ & _ & Hvars & Hvalues & _ & Hcts).
  - reflexivity.
  - intros var Hin. apply list_elem_of_In in Hin. cbn in Hin.
    destruct Hin as [<-|[<-|[<-|[]]]]; vm_compute; split; congruence.
  - exists restricted. split; [exact E|]. split; [exact Hvars|].
    split; [exact Hvalues|exact Hcts].
Defined.

Lemma graph_generators_return_model_when_target_is_all_witness :
  new_NeighborhoodGenerator model5 false = Ok generator5 /\
  target_size generator5 double_one = Ok (num_active_vars generator5) /\
  VariableGraphNeighborhoodGenerator_Generate generator5 incumbent5 1 double_one
  = Ok model5 /\
  ConstraintGraphNeighborhoodGenerator_Generate generator5 incumbent5 1 double_one
  = Ok model5.
Proof.
  split; [exact generator5_built|]. split; [vm_compute; reflexivity|].
  apply (graph_generators_return_model_when_target_is_all model5 false
           generator5 generator5_built incumbent5 1 double_one).
  vm_compute. reflexivity.
Defined.


Lemma VariableGraph_scenario_witness :
  new_NeighborhoodGenerator model5 false = Ok generator5 /\
  (uniform_int 0 4 (seed_engine 2)).1 = 0 /\
  VariableGraphNeighborhoodGenerator_Generate generator5 incumbent5 2
    difficulty_0_4
  = Ok {| variables :=
            [variable_0_10; variable_0_10;
             {| name := ""; domain := [3; 3] |};
             {| name := ""; domain := [4; 4] |};
             {| name := ""; domain := [5; 5] |}];
          constraints := [[0; 1]; [1; 2]; [3; 4]];
          search_strategy := [];
          has_solution_hint :=
            Some {| vars := [0; 1; 2; 3; 4]; values := [1; 2; 3; 4; 5] |} |}.
Proof.
  split; [exact generator5_built|]. split; [vm_compute; reflexivity|].
  apply (VariableGraph_scenario (CM := list_constraints) (RE := lcg)
           [0; 1] [1; 2] [3; 4]
           variable_0_10 variable_0_10 variable_0_10 variable_0_10
           variable_0_10 None generator5 2
           eq_refl eq_refl eq_refl generator5_built).
  vm_compute. reflexivity.
Defined.

Lemma VariableGraph_relaxes_two_for_target_one_witness :
  new_NeighborhoodGenerator model5 false = Ok generator5 /\
  (uniform_int 0 4 (seed_engine 2)).1 = 0 /\
  target_size generator5 difficulty_0_2 = Ok 1 /\
  exists st, VariableGraph_walk generator5 2 1 = Ok st /\
             relaxed_variables st = [0; 1].
Proof.
  split; [exact generator5_built|]. split; [vm_compute; reflexivity|].
  destruct (VariableGraph_relaxes_two_for_target_one
              (CM := list_constraints) (RE := lcg)
              [0; 1] [1; 2] [3; 4]
              variable_0_10 variable_0_10 variable_0_10 variable_0_10
              variable_0_10 None generator5 2
              eq_refl eq_refl eq_refl generator5_built)
    as (Ht & _ & Hst & _).
  - vm_compute. reflexivity.
  - split; [exact Ht|exact Hst].
Defined.

Lemma Generate_is_pure_witness :
  exists l mem',
    Generate_in_memory VariableGraphNeighborhoodGenerator incumbent5 2
      difficulty_0_4 memory5 = Ok (l, mem') /\
    protos mem' !! l = Some neighborhood5 /\
    this_ mem' = generator5.
Proof.
  assert (Generate VariableGraphNeighborhoodGenerator (this_ memory5)
            incumbent5 2 difficulty_0_4 = Ok neighborhood5) as Hpure
    by (vm_compute; reflexivity).
  destruct (Generate_is_pure VariableGraphNeighborhoodGenerator memory5
              incumbent5 2 difficulty_0_4 [] this_model_proto) as [H _].
  rewrite Hpure in H. destruct H as (l & mem' & Hrun & _ & Hl & Hthis & _).
  exists l, mem'. split; [exact Hrun|]. split; [exact Hl|exact Hthis].
Defined.

Lemma VariableGraph_relaxed_variables_are_active_witness :
  new_NeighborhoodGenerator model4 true = Ok generator4 /\
  size (solution incumbent4) = size (variables model4) /\
  target_size generator4 difficulty_0_5 = Ok 2 /\
  0 < 2 < num_active_vars generator4 /\
  exists st,
    VariableGraph_walk generator4 1 2 = Ok st /\
    (forall var, var ∈ relaxed_variables st -> var ∈ decision_variables_ generator4).
Proof.
  split; [exact generator4_built|]. split; [reflexivity|].
  split; [vm_compute; reflexivity|]. split; [vm_compute; split; reflexivity|].
  destruct (VariableGraph_relaxed_variables_are_active model4 true generator4
              generator4_built incumbent4 1 difficulty_0_5 2)
    as (st & mask & Hwalk & _ & _ & Hfocus & _).
  - reflexivity.
  - vm_compute. reflexivity.
  - vm_compute. split; reflexivity.
  - exists st. split; [exact Hwalk|]. apply Hfocus. reflexivity.
Defined.

Lemma ConstraintGraph_returns_iff_some_constraint_witness :
  new_NeighborhoodGenerator model5 false = Ok generator5 /\
  size (solution incumbent5) = size (variables model5) /\
  target_size generator5 difficulty_0_4 = Ok 2 /\
  0 < 2 < num_active_vars generator5 /\
  exists st, ConstraintGraph_walk generator5 1 2 = Ok st.
Proof.
  split; [exact generator5_built|]. split; [reflexivity|].
  split; [vm_compute; reflexivity|]. split; [vm_compute; split; reflexivity|].
  destruct (ConstraintGraph_returns_iff_some_constraint model5 false generator5
              generator5_built incumbent5 1 difficulty_0_4 2) as [_ H].
  - reflexivity.
  - vm_compute. reflexivity.
  - vm_compute. split; reflexivity.
  - destruct H as (st & Hwalk & _); [discriminate|]. exists st. exact Hwalk.
Defined.

(** ** The further properties on the scenarios *)

Lemma generator0_built : new_NeighborhoodGenerator model0 false = Ok generator0.
Proof. vm_compute. reflexivity. Defined.

Lemma new_NeighborhoodGenerator_returns_witness :
  Forall (fun ct => Forall (fun var => 0 <= var < size (variables model4))
                           (UsedVariables ct)) (constraints model4) /\
  Forall (fun s => Forall (fun var => 0 <= var < size (variables model4))
                          (strategy_variables s)) (search_strategy model4) /\
  exists g, new_NeighborhoodGenerator model4 true = Ok g /\
            model_proto_ g = model4.
Proof.
  assert (Forall (fun ct => Forall (fun var => 0 <= var < size (variables model4))
                                   (UsedVariables ct)) (constraints model4))
    as Hcts.
  { repeat first [apply Forall_nil_2 | apply Forall_cons_2];
      vm_compute; split; congruence. }
  assert (Forall (fun s => Forall (fun var => 0 <= var < size (variables model4))
                                  (strategy_variables s))
                 (search_strategy model4)) as Hstrat.
  { repeat first [apply Forall_nil_2 | apply Forall_cons_2];
      vm_compute; split; congruence. }
  split; [exact Hcts|]. split; [exact Hstrat|].
  exact (new_NeighborhoodGenerator_returns model4 true Hcts Hstrat).
Defined.

Lemma FixGivenPosition_same_indices_witness :
  (forall var : Z, var ∈ [2; 3; 4] <-> var ∈ [4; 3; 2; 2]) /\
  FixGivenPosition incumbent5 [2; 3; 4] model5
  = FixGivenPosition incumbent5 [4; 3; 2; 2] model5.
Proof.
  assert (forall var : Z, var ∈ [2; 3; 4] <-> var ∈ [4; 3; 2; 2]) as Hsame.
  { intros var. rewrite !elem_of_cons, !elem_of_nil. tauto. }
  split; [exact Hsame|].
  exact (FixGivenPosition_same_indices incumbent5 [2; 3; 4] [4; 3; 2; 2]
           model5 Hsame).
Defined.

Lemma FixGivenPosition_twice_witness :
  FixGivenPosition incumbent5 [2] model5
  = Ok (restricted_model incumbent5 [2] model5) /\
  FixGivenPosition incumbent5 [3; 4] (restricted_model incumbent5 [2] model5)
  = FixGivenPosition incumbent5 [2; 3; 4] model5 /\
  FixGivenPosition incumbent5 [2] (restricted_model incumbent5 [2] model5)
  = Ok (restricted_model incumbent5 [2] model5).
Proof.
  assert (FixGivenPosition incumbent5 [2] model5
          = Ok (restricted_model incumbent5 [2] model5)) as H
    by (vm_compute; reflexivity).
  split; [exact H|].
  exact (FixGivenPosition_twice incumbent5 [2] [3; 4] model5 _ H).
Defined.

Lemma Generate_only_restricts_witness :
  exists restricted,
    VariableGraphNeighborhoodGenerator_Generate generator5 incumbent5 2
      difficulty_0_4 = Ok restricted /\
    constraints restricted = constraints model5 /\
    length (variables restricted) = length (variables model5).
Proof.
  set (restricted :=
         @Build_CpModelProto list_constraints
           [variable_0_10; variable_0_10;
            {| name := ""; domain := [3; 3] |};
            {| name := ""; domain := [4; 4] |};
            {| name := ""; domain := [5; 5] |}]
           [[0; 1]; [1; 2]; [3; 4]] []
           (Some {| vars := [0; 1; 2; 3; 4]; values := [1; 2; 3; 4; 5] |})).
  assert (VariableGraphNeighborhoodGenerator_Generate generator5 incumbent5 2
            difficulty_0_4 = Ok restricted) as H by (vm_compute; reflexivity).
  exists restricted. split; [exact H|].
  destruct (Generate_only_restricts generator5 incumbent5 2 difficulty_0_4
              restricted (or_intror (or_introl H))) as (Hcts & _ & Hlen & _).
  split; [exact Hcts|exact Hlen].
Defined.

Lemma incidence_tables_are_transposes_witness :
  new_NeighborhoodGenerator model5 false = Ok generator5 /\
  constraint_to_var_ generator5 = map UsedVariables (constraints model5) /\
  length (var_to_constraint_ generator5) = length (variables model5).
Proof.
  split; [exact generator5_built|].
  destruct (incidence_tables_are_transposes model5 false generator5
              generator5_built) as (H1 & H2 & _).
  split; [exact H1|exact H2].
Defined.

Lemma decision_variables_are_strategy_variables_witness :
  new_NeighborhoodGenerator model4 true = Ok generator4 /\
  NoDup (decision_variables_ generator4) /\
  forall var, var ∈ decision_variables_ generator4 <->
              exists s, s ∈ search_strategy model4 /\
                        var ∈ strategy_variables s.
Proof.
  split; [exact generator4_built|].
  destruct (decision_variables_are_strategy_variables model4 true generator4
              generator4_built) as (H1 & H2 & _).
  split; [exact H1|exact H2].
Defined.

Lemma focus_needs_a_decision_variable_witness :
  (forall s, s ∈ search_strategy model5 -> strategy_variables s = []) /\
  new_NeighborhoodGenerator model5 true = new_NeighborhoodGenerator model5 false.
Proof.
  assert (forall s, s ∈ search_strategy model5 -> strategy_variables s = [])
    as Hempty.
  { intros s Hs. apply list_elem_of_In in Hs. destruct Hs. }
  split; [exact Hempty|].
  exact (focus_needs_a_decision_variable model5 Hempty).
Defined.

Lemma graph_generators_return_on_positive_difficulty_witness :
  new_NeighborhoodGenerator model5 false = Ok generator5 /\
  size (solution incumbent5) = size (variables model5) /\
  size (variables model5) <= INT_MAX /\
  in_unit_interval difficulty_0_4 /\
  (forall s, difficulty_0_4 <> S754_zero s) /\
  exists restricted,
    VariableGraphNeighborhoodGenerator_Generate generator5 incumbent5 1
      difficulty_0_4 = Ok restricted.
Proof.
  assert (size (variables model5) <= INT_MAX) as Hmax
    by (vm_compute; discriminate).
  assert (forall s, difficulty_0_4 <> S754_zero s) as Hnz by discriminate.
  split; [exact generator5_built|]. split; [reflexivity|].
  split; [exact Hmax|]. split; [exact difficulty_0_4_in_unit_interval|].
  split; [exact Hnz|].
  destruct (graph_generators_return_on_positive_difficulty model5 false
              generator5 generator5_built incumbent5 1 difficulty_0_4
              eq_refl Hmax difficulty_0_4_in_unit_interval Hnz)
    as (_ & Hvariable & _).
  exact Hvariable.
Defined.

Lemma graph_generators_return_model_on_difficulty_one_witness :
  new_NeighborhoodGenerator model5 false = Ok generator5 /\
  size (variables model5) <= INT_MAX /\
  VariableGraphNeighborhoodGenerator_Generate generator5 incumbent5 1 double_one
  = Ok model5.
Proof.
  assert (size (variables model5) <= INT_MAX) as Hmax
    by (vm_compute; discriminate).
  split; [exact generator5_built|]. split; [exact Hmax|].
  destruct (graph_generators_return_model_on_difficulty_one model5 false
              generator5 generator5_built incumbent5 1 Hmax) as (_ & H & _).
  exact H.
Defined.

Lemma Simple_fixes_the_pool_on_difficulty_zero_witness :
  new_NeighborhoodGenerator model5 false = Ok generator5 /\
  size (solution incumbent5) = size (variables model5) /\
  size (variables model5) <= INT_MAX /\
  SimpleNeighborhoodGenerator_Generate generator5 incumbent5 1 (S754_zero false)
  = Ok (restricted_model incumbent5 (active_pool generator5) model5).
Proof.
  assert (size (variables model5) <= INT_MAX) as Hmax
    by (vm_compute; discriminate).
  split; [exact generator5_built|]. split; [reflexivity|].
  split; [exact Hmax|].
  destruct (Simple_fixes_the_pool_on_difficulty_zero model5 false generator5
              generator5_built incumbent5 1 false eq_refl Hmax) as [H _].
  exact H.
Defined.

Lemma Generate_aborts_on_other_size_witness :
  new_NeighborhoodGenerator model5 false = Ok generator5 /\
  size (solution incumbent4) <> size (variables model5) /\
  size (variables model5) <= INT_MAX /\
  in_unit_interval difficulty_0_4 /\
  SimpleNeighborhoodGenerator_Generate generator5 incumbent4 1 difficulty_0_4
  = Fail CheckFailure.
Proof.
  assert (size (variables model5) <= INT_MAX) as Hmax
    by (vm_compute; discriminate).
  assert (size (solution incumbent4) <> size (variables model5)) as Hsz
    by (vm_compute; discriminate).
  split; [exact generator5_built|]. split; [exact Hsz|].
  split; [exact Hmax|]. split; [exact difficulty_0_4_in_unit_interval|].
  destruct (Generate_aborts_on_other_size model5 false generator5
              generator5_built incumbent4 1 difficulty_0_4 Hsz Hmax
              difficulty_0_4_in_unit_interval) as [H _].
  exact H.
Defined.

Lemma graph_generators_return_model_without_variables_witness :
  new_NeighborhoodGenerator model0 false = Ok generator0 /\
  variables model0 = [] /\
  in_unit_interval difficulty_0_4 /\
  VariableGraphNeighborhoodGenerator_Generate generator0 incumbent0 1
    difficulty_0_4 = Ok model0 /\
  ConstraintGraphNeighborhoodGenerator_Generate generator0 incumbent0 1
    difficulty_0_4 = Ok model0.
Proof.
  split; [exact generator0_built|]. split; [reflexivity|].
  split; [exact difficulty_0_4_in_unit_interval|].
  exact (graph_generators_return_model_without_variables model0 false
           generator0 generator0_built incumbent0 1 difficulty_0_4 eq_refl
           difficulty_0_4_in_unit_interval).
Defined.

Lemma VariableGraph_walk_bounds_witness :
  new_NeighborhoodGenerator model5 false = Ok generator5 /\
  1 <= num_active_vars generator5 /\
  exists st,
    VariableGraph_walk generator5 1 2 = Ok st /\
    NoDup (relaxed_variables st) /\
    1 <= size (relaxed_variables st) <= Z.max 2 2.
Proof.
  assert (1 <= num_active_vars generator5) as Hact
    by (vm_compute; discriminate).
  split; [exact generator5_built|]. split; [exact Hact|].
  destruct (VariableGraph_walk_bounds model5 false generator5 generator5_built
              1 2 Hact) as (st & first & Hwalk & _ & _ & Hnd & Hsz & _).
  exists st. split; [exact Hwalk|]. split; [exact Hnd|exact Hsz].
Defined.

Lemma VariableGraph_walk_exhausts_component_witness :
  new_NeighborhoodGenerator model5 false = Ok generator5 /\
  exists st first,
    VariableGraph_walk generator5 1 3 = Ok st /\
    relaxed_variables st = [4; 3] /\
    size (relaxed_variables st) < 3 /\
    head (relaxed_variables st) = Some first /\
    forall var, var ∈ relaxed_variables st <->
                active generator5 var /\
                rtc (shares_constraint generator5) first var.
Proof.
  split; [exact generator5_built|].
  set (st := @Build_variable_walk_state lcg [false; false; false; true; true]
               [4; 3] [4; 3] 7806831264735756412).
  assert (VariableGraph_walk generator5 1 3 = Ok st) as Hwalk by reflexivity.
  assert (size (relaxed_variables st) < 3) as Hshort by reflexivity.
  destruct (VariableGraph_walk_exhausts_component model5 false generator5
              generator5_built 1 3 st Hwalk Hshort) as (first & Hhead & Hiff).
  exists st, first. split; [exact Hwalk|]. split; [reflexivity|].
  split; [exact Hshort|]. split; [exact Hhead|exact Hiff].
Defined.

Lemma ConstraintGraph_walk_bounds_witness :
  new_NeighborhoodGenerator model5 false = Ok generator5 /\
  constraints model5 <> [] /\
  exists st,
    ConstraintGraph_walk generator5 1 2 = Ok st /\
    num_relaxed_variables st <= Z.max 0 2.
Proof.
  assert (constraints model5 <> []) as Hne by discriminate.
  split; [exact generator5_built|]. split; [exact Hne|].
  destruct (ConstraintGraph_walk_bounds model5 false generator5
              generator5_built 1 2 Hne) as (st & start & Hwalk & _ & _ & Hnum & _).
  exists st. split; [exact Hwalk|exact Hnum].
Defined.

Lemma ConstraintGraph_walk_exhausts_component_witness :
  new_NeighborhoodGenerator model5 false = Ok generator5 /\
  exists st start,
    ConstraintGraph_walk generator5 1 3 = Ok st /\
    relaxed_set (visited st) = [3; 4] /\
    num_relaxed_variables st < 3 /\
    0 <= start < size (constraints model5) /\
    forall var, var ∈ relaxed_set (visited st) <->
                exists ct, rtc (shares_variable generator5) start ct /\
                           uses generator5 ct var.
Proof.
  split; [exact generator5_built|].
  set (st := {| visited := [false; false; false; true; true];
                added_constraints := [false; false; true];
                next_constraints := [];
                num_relaxed_variables := 2 |}).
  assert (ConstraintGraph_walk generator5 1 3 = Ok st) as Hwalk
    by (vm_compute; reflexivity).
  assert (num_relaxed_variables st < 3) as Hshort by reflexivity.
  destruct (ConstraintGraph_walk_exhausts_component model5 false generator5
              generator5_built 1 3 st Hwalk Hshort) as (start & Hstart & Hiff).
  exists st, start. split; [exact Hwalk|]. split; [vm_compute; reflexivity|].
  split; [exact Hshort|]. split; [exact Hstart|exact Hiff].
Defined.

Lemma RelaxGivenVariables_reads_the_active_entries_witness :
  new_NeighborhoodGenerator model4 true = Ok generator4 /\
  (forall var, var ∈ active_pool generator4 ->
               [true; false; false; false] !! Z.to_nat var
               = [true; false; false; true] !! Z.to_nat var) /\
  RelaxGivenVariables generator4 incumbent4 [true; false; false; false]
  = RelaxGivenVariables generator4 incumbent4 [true; false; false; true].
Proof.
  assert (forall var, var ∈ active_pool generator4 ->
                      [true; false; false; false] !! Z.to_nat var
                      = [true; false; false; true] !! Z.to_nat var) as Hagree.
  { intros var Hin. apply list_elem_of_In in Hin. cbn in Hin.
    destruct Hin as [<-|[<-|[<-|[]]]]; reflexivity. }
  split; [exact generator4_built|]. split; [exact Hagree|].
  exact (RelaxGivenVariables_reads_the_active_entries model4 true generator4
           generator4_built incumbent4 [true; false; false; false]
           [true; false; false; true] eq_refl eq_refl Hagree).
Defined.

Lemma Simple_neighborhoods_of_a_seed_are_nested_witness :
  new_NeighborhoodGenerator model5 false = Ok generator5 /\
  Simple_fixed_variables generator5 1 difficulty_0_4 = Ok [4; 1; 0] /\
  Simple_fixed_variables generator5 1 difficulty_0_2 = Ok [4; 1; 0; 2] /\
  exists rest, [4; 1; 0; 2] = [4; 1; 0] ++ rest.
Proof.
  assert (size (variables model5) <= INT_MAX) as Hmax
    by (vm_compute; discriminate).
  assert (Simple_fixed_variables generator5 1 difficulty_0_4 = Ok [4; 1; 0])
    as H1 by (vm_compute; reflexivity).
  assert (Simple_fixed_variables generator5 1 difficulty_0_2 = Ok [4; 1; 0; 2])
    as H2 by (vm_compute; reflexivity).
  split; [exact generator5_built|]. split; [exact H1|]. split; [exact H2|].
  apply (Simple_neighborhoods_of_a_seed_are_nested model5 false generator5
           generator5_built 1 difficulty_0_4 difficulty_0_2 [4; 1; 0]
           [4; 1; 0; 2] Hmax difficulty_0_4_in_unit_interval
           difficulty_0_2_in_unit_interval H1 H2).
  cbn. lia.
Defined.

Lemma graph_generators_fix_decision_variables_only_witness :
  focus_on_decision_variables_ generator4 = true /\
  RelaxGivenVariables generator4 incumbent4 [true; false; false; false]
  = Ok (restricted_model incumbent4 [1; 2] model4) /\
  (3 ∉ decision_variables_ generator4) /\
  variables (restricted_model incumbent4 [1; 2] model4) !! 3%nat
  = variables model4 !! 3%nat.
Proof.
  assert (RelaxGivenVariables generator4 incumbent4 [true; false; false; false]
          = Ok (restricted_model incumbent4 [1; 2] model4)) as H
    by (vm_compute; reflexivity).
  assert (3 ∉ decision_variables_ generator4) as Hnot.
  { intros Hin. apply list_elem_of_In in Hin. cbn in Hin.
    destruct Hin as [E|[E|[E|[]]]]; discriminate E. }
  split; [reflexivity|]. split; [exact H|]. split; [exact Hnot|].
  exact (graph_generators_fix_decision_variables_only generator4 incumbent4
           [true; false; false; false] 1 difficulty_0_4
           (restricted_model incumbent4 [1; 2] model4) eq_refl (or_introl H)
           3%nat Hnot).
Defined.

Lemma VariableGraph_walk_overshoots_target_one_witness :
  new_NeighborhoodGenerator model5 false = Ok generator5 /\
  focus_on_decision_variables_ generator5 = false /\
  exists st first,
    VariableGraph_walk generator5 2 1 = Ok st /\
    head (relaxed_variables st) = Some first /\
    ((exists v, v <> first /\ shares_constraint generator5 first v) ->
     exists v, v <> first /\ shares_constraint generator5 first v /\
               relaxed_variables st = [first; v]).
Proof.
  split; [exact generator5_built|]. split; [reflexivity|].
  set (st := @Build_variable_walk_state lcg [true; true; false; false; false]
               [0; 1] [0; 1] 16917806452429146372).
  assert (VariableGraph_walk generator5 2 1 = Ok st) as Hwalk by reflexivity.
  destruct (VariableGraph_walk_overshoots_target_one model5 false generator5
              generator5_built 2 st eq_refl Hwalk) as (first & Hhead & Htwo & _).
  exists st, first. split; [exact Hwalk|]. split; [exact Hhead|exact Htwo].
Defined.
